(** * An explicit free-list heap allocator (explicit.c), embedded in Rocq

    The allocator manages one contiguous arena of bytes.  Every block starts
    with an eight-byte header holding the block size and, in its lowest bit,
    the status (0 free, 1 in use).  Free blocks carry two link words right
    behind the header.  The C code reads and writes these words through raw
    pointers, so the embedding keeps a flat byte memory indexed by 64-bit
    addresses and writes every pointer and size computation with its
    wrap-around. *)

From Stdlib Require Import ZArith List Lia Bool.
Import ListNotations.
Open Scope Z_scope.

(** ** Machine integers *)

Definition W64 : Z := 2 ^ 64.

(** [unsigned long], [size_t] and pointer arithmetic wrap modulo 2^64. *)
Definition wrap64 (x : Z) : Z := x mod W64.

(** The value of an [unsigned long] read as a [signed long]. *)
Definition signed64 (x : Z) : Z := if x <? 2 ^ 63 then x else x - W64.

(** Conversion of a wide value to a 32-bit [int]. *)
Definition to_int (x : Z) : Z := (x + 2 ^ 31) mod 2 ^ 32 - 2 ^ 31.

(** The complement [~x] on 64 bits. *)
Definition not64 (x : Z) : Z := W64 - 1 - x.

(** ** Flat byte memory

    The memory is total: the arena is a window into it.  A read or write
    outside the arena, which C leaves undefined, reaches the cell at that
    address; in particular a write through a null pointer lands at
    address 0. *)

Definition memory := Z -> Z.

Definition load8 (m : memory) (a : Z) : Z := m a mod 256.

(** Little-endian read of [n] bytes. *)
Fixpoint load_le (n : nat) (m : memory) (a : Z) : Z :=
  match n with
  | O => 0
  | S k => load8 m a + 256 * load_le k m (a + 1)
  end.

Definition load64 (m : memory) (a : Z) : Z := load_le 8 m a.

(** Little-endian write of the eight bytes of [w] at [a]. *)
Definition store64 (m : memory) (a w : Z) : memory :=
  fun x => if (a <=? x) && (x <? a + 8)
           then (w / 2 ^ (8 * (x - a))) mod 256
           else m x.

(** [memmove(dst, src, n)]: the [n] bytes at [src], as they were before the
    call, end up at [dst]. *)
Definition memmove (m : memory) (dst src n : Z) : memory :=
  fun x => if (dst <=? x) && (x <? dst + n) then m (src + (x - dst)) else m x.

(** ** Constants *)

Definition NULL : Z := 0.
Definition HEADER_SIZE : Z := 8.

(** Modelled from the spec: [ALIGNMENT] comes from allocator.h, which is not
    among the sources.  The data model fixes the machine word at eight bytes
    and asks for sizes that are multiples of the minimum alignment;
    [validate_heap] tests addresses and sizes modulo 8. *)
Definition ALIGNMENT : Z := 8.

(** [breakpoint()] of debug_break.h stops the program under a debugger.  It
    does not touch the allocator, so it is the identity on whatever state
    flows through it. *)
Definition breakpoint {A : Type} (x : A) : A := x.

(** ** Allocator state: the three globals and the memory they point into *)

Record state : Type := mkState {
  mem : memory;
  segment_start : Z;
  segment_size : Z;
  nused : Z
}.

Definition set_mem (st : state) (m : memory) : state :=
  mkState m (segment_start st) (segment_size st) (nused st).

Definition segment_end (st : state) : Z :=
  wrap64 (segment_start st + segment_size st).

(** ** Header and link codec *)

Definition roundup (sz mult : Z) : Z :=
  let roundup := Z.land (wrap64 (sz + mult - 1)) (not64 (wrap64 (mult - 1))) in
  if (roundup >? 0) && (roundup <? HEADER_SIZE + 16)
  then HEADER_SIZE + 16
  else wrap64 (roundup + 8).

Definition isfree (m : memory) (header_address : Z) : bool :=
  Z.land (load64 m header_address) 1 =? 0.

Definition getsize (m : memory) (header_address : Z) : Z :=
  Z.land (load64 m header_address) (not64 1).

Definition getprevptr (m : memory) (block_header : Z) : Z :=
  load64 m (wrap64 (block_header + HEADER_SIZE)).

Definition getnextptr (m : memory) (block_header : Z) : Z :=
  load64 m (wrap64 (block_header + HEADER_SIZE + 8)).

Definition setprevptr (m : memory) (block_header prev_address : Z) : memory :=
  store64 m (wrap64 (block_header + HEADER_SIZE)) prev_address.

Definition setnextptr (m : memory) (block_header next_address : Z) : memory :=
  store64 m (wrap64 (block_header + HEADER_SIZE + 8)) next_address.

Definition placeheader (m : memory) (block_start size status : Z) : memory :=
  let m := if negb (status =? 1) && negb (status =? 0) then breakpoint m else m in
  let header := Z.lor size (wrap64 status) in
  store64 m block_start header.

(** ** Loops

    Every [while] and [for] of the source becomes a recursion on a fuel
    counter; [None] means the fuel ran out before the loop left. *)

Fixpoint getfirstfree_loop (fuel : nat) (st : state) (traverse_blocks : Z)
  : option Z :=
  match fuel with
  | O => None
  | S fuel' =>
      if negb (isfree (mem st) traverse_blocks) then
        let traverse_blocks :=
          wrap64 (traverse_blocks + getsize (mem st) traverse_blocks) in
        if traverse_blocks >? segment_end st then Some NULL
        else getfirstfree_loop fuel' st traverse_blocks
      else Some traverse_blocks
  end.

Definition getfirstfree (fuel : nat) (st : state) : option Z :=
  getfirstfree_loop fuel st (segment_start st).

Fixpoint updatelinkedlist_loop (fuel : nat) (m : memory) (seg_end : Z)
  (traverse_blocks prev_ptr : Z) : option memory :=
  match fuel with
  | O => None
  | S fuel' =>
      if traverse_blocks <? seg_end then
        if isfree m traverse_blocks then
          let m := setprevptr m traverse_blocks prev_ptr in
          let m :=
            if negb (getprevptr m traverse_blocks =? 0)
            then setnextptr m (getprevptr m traverse_blocks) traverse_blocks
            else m in
          let m := setnextptr m traverse_blocks 0 in
          updatelinkedlist_loop fuel' m seg_end
            (wrap64 (traverse_blocks + getsize m traverse_blocks))
            traverse_blocks
        else
          updatelinkedlist_loop fuel' m seg_end
            (wrap64 (traverse_blocks + getsize m traverse_blocks))
            prev_ptr
      else Some m
  end.

Definition updatelinkedlist (fuel : nat) (st : state) : option state :=
  match updatelinkedlist_loop fuel (mem st) (segment_end st)
          (segment_start st) 0 with
  | Some m => Some (set_mem st m)
  | None => None
  end.

(** The search of [mymalloc] along the next links. *)
Fixpoint fit_loop (fuel : nat) (m : memory) (needed traverse_free : Z)
  : option Z :=
  match fuel with
  | O => None
  | S fuel' =>
      if getsize m traverse_free <? needed then
        let traverse_free := getnextptr m traverse_free in
        if traverse_free =? 0 then Some NULL
        else fit_loop fuel' m needed traverse_free
      else Some traverse_free
  end.

(** The coalescing loop of [myfree]. *)
Fixpoint coalesce_loop (fuel : nat) (m : memory) (seg_end ptr next_block : Z)
  : option memory :=
  match fuel with
  | O => None
  | S fuel' =>
      if (wrap64 (ptr + getsize m ptr) <? seg_end) && isfree m next_block then
        let m :=
          placeheader m ptr (wrap64 (getsize m ptr + getsize m next_block)) 0 in
        let m := setnextptr m ptr (getnextptr m next_block) in
        coalesce_loop fuel' m seg_end ptr (wrap64 (ptr + getsize m ptr))
      else Some m
  end.

(** The walk of [validate_heap]; [i] is the 32-bit [int] counter. *)
Fixpoint validate_loop (fuel : nat) (st : state) (address_tracker i : Z)
  : option bool :=
  match fuel with
  | O => None
  | S fuel' =>
      if wrap64 i <? nused st then
        if negb (address_tracker mod 8 =? 0) then Some false
        else if address_tracker >=? segment_end st then Some true
        else
          let size := getsize (mem st) address_tracker in
          if negb (size mod 8 =? 0) then Some false
          else
            let address_tracker := wrap64 (address_tracker + size) in
            let i := to_int (wrap64 (wrap64 i + wrap64 (size + 1))) in
            validate_loop fuel' st address_tracker (to_int (i + 1))
      else Some true
  end.

(** ** The allocator interface *)

Definition myinit (st : state) (heap_start heap_size : Z) : bool * state :=
  (true, mkState (placeheader (mem st) heap_start heap_size 0)
                 heap_start heap_size 0).

Section Allocator.

(** [MAX_REQUEST_SIZE] is defined in allocator.h, which is not among the
    sources; the code is read for every value of it. *)
Variable MAX_REQUEST_SIZE : Z.

Definition mymalloc (fuel : nat) (st : state) (requested_size : Z)
  : option (Z * state) :=
  if requested_size <=? 0 then Some (NULL, st)
  else
    let needed := roundup requested_size ALIGNMENT in
    if wrap64 (needed + nused st) >? segment_size st then Some (NULL, st)
    else if needed >? MAX_REQUEST_SIZE then Some (NULL, st)
    else
      match getfirstfree fuel st with
      | None => None
      | Some traverse_free =>
          if traverse_free =? NULL then Some (NULL, st)
          else
            match fit_loop fuel (mem st) needed traverse_free with
            | None => None
            | Some traverse_free =>
                if traverse_free =? 0 then Some (NULL, st)
                else
                  let free_block_size := getsize (mem st) traverse_free in
                  let remaining_space := wrap64 (free_block_size - needed) in
                  let st1 :=
                    if remaining_space >=? 40 then
                      let m := placeheader (mem st)
                                 (wrap64 (traverse_free + needed))
                                 remaining_space 0 in
                      let m := placeheader m traverse_free needed 1 in
                      mkState m (segment_start st) (segment_size st)
                        (wrap64 (nused st + needed))
                    else
                      let m := placeheader (mem st) traverse_free
                                 free_block_size 1 in
                      mkState m (segment_start st) (segment_size st)
                        (wrap64 (nused st + free_block_size)) in
                  match updatelinkedlist fuel st1 with
                  | None => None
                  | Some st2 =>
                      Some (wrap64 (traverse_free + HEADER_SIZE), st2)
                  end
            end
      end.

Definition myfree (fuel : nat) (st : state) (ptr : Z) : option state :=
  if ptr =? NULL then Some st
  else
    let ptr := wrap64 (ptr - HEADER_SIZE) in
    let m := store64 (mem st) ptr (Z.land (load64 (mem st) ptr) (not64 1)) in
    let next_block := wrap64 (ptr + getsize m ptr) in
    match coalesce_loop fuel m (segment_end st) ptr next_block with
    | None => None
    | Some m => updatelinkedlist fuel (set_mem st m)
    end.

Definition myrealloc (fuel : nat) (st : state) (old_ptr new_size : Z)
  : option (Z * state) :=
  if (new_size =? 0) && negb (old_ptr =? NULL) then
    match myfree fuel st old_ptr with
    | None => None
    | Some st' => Some (NULL, st')
    end
  else if old_ptr =? NULL then mymalloc fuel st new_size
  else
    let needed := roundup new_size ALIGNMENT in
    let old_size := getsize (mem st) (wrap64 (old_ptr - HEADER_SIZE)) in
    let next_block := wrap64 (wrap64 (old_ptr + old_size) - HEADER_SIZE) in
    if isfree (mem st) next_block
       && (signed64 (wrap64 (old_size + getsize (mem st) next_block - new_size))
           >? 32)
    then
      let st := if new_size =? 979 then breakpoint st else st in
      let m :=
        if needed <? old_size then
          placeheader (mem st) (wrap64 (next_block + wrap64 (needed - old_size)))
            (wrap64 (getsize (mem st) next_block + wrap64 (old_size - needed))) 0
        else
          placeheader (mem st) (wrap64 (next_block + wrap64 (needed - old_size)))
            (wrap64 (getsize (mem st) next_block + wrap64 (old_size - needed))) 0
      in
      let m := placeheader m (wrap64 (old_ptr - HEADER_SIZE)) needed 1 in
      match updatelinkedlist fuel (set_mem st m) with
      | None => None
      | Some st' => Some (old_ptr, st')
      end
    else
      match mymalloc fuel st new_size with
      | None => None
      | Some (new_ptr, st1) =>
          let m :=
            if old_size >? new_size
            then memmove (mem st1) new_ptr old_ptr new_size
            else memmove (mem st1) new_ptr old_ptr old_size in
          match myfree fuel (set_mem st1 m) old_ptr with
          | None => None
          | Some st2 => Some (new_ptr, st2)
          end
      end.

End Allocator.

Definition validate_heap (fuel : nat) (st : state) : option bool :=
  if nused st >? segment_size st then breakpoint (Some false)
  else validate_loop fuel st (segment_start st) 0.

(** * The abstract view: the arena as a sequence of blocks *)

Record block : Type := mkBlock { bsize : Z; bfree : bool }.

(** The header word of a block: the size with the status in the low bit. *)
Definition hdr (b : block) : Z := bsize b + (if bfree b then 0 else 1).

Definition block_ok (b : block) : Prop := 24 <= bsize b /\ bsize b mod 8 = 0.

Fixpoint blocks_ok (l : list block) : Prop :=
  match l with
  | [] => True
  | b :: l' => block_ok b /\ blocks_ok l'
  end.

Fixpoint total (l : list block) : Z :=
  match l with
  | [] => 0
  | b :: l' => bsize b + total l'
  end.

(** [chain m a l]: walking memory from [a] by header sizes meets exactly the
    blocks of [l]. *)
Fixpoint chain (m : memory) (a : Z) (l : list block) : Prop :=
  match l with
  | [] => True
  | b :: l' => load64 m a = hdr b /\ chain m (a + bsize b) l'
  end.

Fixpoint has_free (l : list block) : bool :=
  match l with
  | [] => false
  | b :: l' => bfree b || has_free l'
  end.

(** Address of the first free block of [l] laid out from [a]; 0 when none. *)
Fixpoint first_free (a : Z) (l : list block) : Z :=
  match l with
  | [] => 0
  | b :: l' => if bfree b then a else first_free (a + bsize b) l'
  end.

(** [links m a prev l]: the link words of the free blocks of [l] form the
    address-ordered doubly-linked list; [prev] is the free block before [a]
    (0 when there is none) and the last free block has next link 0. *)
Fixpoint links (m : memory) (a prev : Z) (l : list block) : Prop :=
  match l with
  | [] => True
  | b :: l' =>
      if bfree b then
        load64 m (a + 8) = prev /\
        load64 m (a + 16) = first_free (a + bsize b) l' /\
        links m (a + bsize b) a l'
      else links m (a + bsize b) prev l'
  end.

(** The bytes of the link words of the free blocks. *)
Fixpoint in_links (a : Z) (l : list block) (x : Z) : Prop :=
  match l with
  | [] => False
  | b :: l' =>
      (bfree b = true /\ a + 8 <= x < a + 24) \/ in_links (a + bsize b) l' x
  end.

(** The bytes covered by free blocks. *)
Fixpoint in_free (a : Z) (l : list block) (x : Z) : Prop :=
  match l with
  | [] => False
  | b :: l' =>
      (bfree b = true /\ a <= x < a + bsize b) \/ in_free (a + bsize b) l' x
  end.

(** [block_at a l c b]: block [b] of [l] starts at address [c]. *)
Fixpoint block_at (a : Z) (l : list block) (c : Z) (b : block) : Prop :=
  match l with
  | [] => False
  | b' :: l' => (a = c /\ b' = b) \/ block_at (a + bsize b') l' c b
  end.

Definition heap_ok (st : state) (l : list block) : Prop :=
  0 < segment_start st /\
  segment_start st + segment_size st < W64 /\
  chain (mem st) (segment_start st) l /\
  total l = segment_size st /\
  blocks_ok l.

Definition list_ok (st : state) (l : list block) : Prop :=
  links (mem st) (segment_start st) 0 l.

(** The heap as [myinit] leaves it: one free block, nothing in use. *)
Definition fresh (st : state) (l : list block) : Prop :=
  nused st = 0 /\ exists s, l = [mkBlock s true].

(** First fit: the address of the first free block of size at least
    [needed]; 0 when none. *)
Fixpoint fit_addr (needed a : Z) (l : list block) : Z :=
  match l with
  | [] => 0
  | b :: l' =>
      if bfree b && (needed <=? bsize b) then a
      else fit_addr needed (a + bsize b) l'
  end.

(** What an allocation of [needed] bytes does to the block at the front. *)
Definition take (needed : Z) (b : block) : list block :=
  if bsize b - needed >=? 40
  then [mkBlock needed false; mkBlock (bsize b - needed) true]
  else [mkBlock (bsize b) false].

Fixpoint alloc_blocks (needed : Z) (l : list block) : list block :=
  match l with
  | [] => []
  | b :: l' =>
      if bfree b && (needed <=? bsize b) then take needed b ++ l'
      else b :: alloc_blocks needed l'
  end.

(** The bytes taken by an allocation: the size of the in-use block made. *)
Fixpoint alloc_taken (needed : Z) (l : list block) : Z :=
  match l with
  | [] => 0
  | b :: l' =>
      if bfree b && (needed <=? bsize b)
      then (if bsize b - needed >=? 40 then needed else bsize b)
      else alloc_taken needed l'
  end.

(** Size of the maximal run of free blocks at the front, and what follows. *)
Fixpoint absorb (l : list block) : Z * list block :=
  match l with
  | [] => (0, [])
  | b :: l' =>
      if bfree b then (bsize b + fst (absorb l'), snd (absorb l'))
      else (0, l)
  end.

(** Release of the block at address [c]. *)
Fixpoint free_blocks (a c : Z) (l : list block) : list block :=
  match l with
  | [] => []
  | b :: l' =>
      if a =? c
      then mkBlock (bsize b + fst (absorb l')) true :: snd (absorb l')
      else b :: free_blocks (a + bsize b) c l'
  end.

(** Bytes in use: the sum of the sizes of the in-use blocks. *)
Fixpoint inuse (l : list block) : Z :=
  match l with
  | [] => 0
  | b :: l' => (if bfree b then 0 else bsize b) + inuse l'
  end.

(** Reading the block sequence off the memory. *)
Fixpoint read_blocks (fuel : nat) (m : memory) (a e : Z) : list block :=
  match fuel with
  | O => []
  | S fuel' =>
      if a <? e
      then mkBlock (getsize m a) (isfree m a)
             :: read_blocks fuel' m (wrap64 (a + getsize m a)) e
      else []
  end.

Definition blocks_of (fuel : nat) (st : state) : list block :=
  read_blocks fuel (mem st) (segment_start st) (segment_end st).

(** The maximal run of free blocks behind a released block. *)
Definition all_free (run : list block) : Prop :=
  forallb bfree run = true.

Definition head_used (rest : list block) : Prop :=
  match rest with
  | [] => True
  | r :: _ => bfree r = false
  end.

(** The address reached after [k] steps of the walk by decoded sizes. *)
Fixpoint walk_addr (k : nat) (m : memory) (a : Z) : Z :=
  match k with
  | O => a
  | S k' => walk_addr k' m (wrap64 (a + getsize m a))
  end.

(** ** Requests of a client *)

Inductive request : Type :=
| Malloc (requested_size : Z)
| Free (ptr : Z)
| Realloc (old_ptr new_size : Z).

Definition serve (max_request : Z) (fuel : nat) (st : state) (r : request)
  : option (Z * state) :=
  match r with
  | Malloc n => mymalloc max_request fuel st n
  | Free p =>
      match myfree fuel st p with
      | Some st' => Some (NULL, st')
      | None => None
      end
  | Realloc p n => myrealloc max_request fuel st p n
  end.

(** The requests a client may make of a heap with block sequence [l]:
    sizes below 2^63, pointers that are payload addresses of in-use blocks,
    a free block to start the scan from, and, for a resize that has to move
    the block, a fallback allocation that finds room. *)
Definition may_malloc (l : list block) (n : Z) : Prop :=
  n = 0 \/ (0 < n < 2 ^ 63 /\ has_free l = true).

Definition may_free (st : state) (l : list block) (p : Z) : Prop :=
  p = 0 \/
  exists c b, p = c + 8 /\ block_at (segment_start st) l c b /\ bfree b = false.

Definition may_grow (st : state) (l : list block) (c n : Z) : Prop :=
  exists l1 b nb l2,
    l = l1 ++ b :: nb :: l2 /\ c = segment_start st + total l1 /\
    bfree nb = true /\
    signed64 (wrap64 (bsize b + bsize nb - n)) > 32.

Definition may_move (max_request : Z) (st : state) (l : list block) (c n : Z)
  : Prop :=
  exists b,
    block_at (segment_start st) l c b /\ bfree b = false /\
    isfree (mem st) (c + bsize b)
    && (signed64 (wrap64 (bsize b + getsize (mem st) (c + bsize b) - n)) >? 32)
    = false /\
    wrap64 (roundup n ALIGNMENT + nused st) <= segment_size st /\
    roundup n ALIGNMENT <= max_request /\
    fit_addr (roundup n ALIGNMENT) (segment_start st) l <> 0.

Definition admissible (max_request : Z) (st : state) (l : list block)
  (r : request) : Prop :=
  match r with
  | Malloc n => may_malloc l n
  | Free p => may_free st l p
  | Realloc p n =>
      (p = 0 /\ may_malloc l n) \/
      (p <> 0 /\ n = 0 /\ may_free st l p) \/
      (0 < n < 2 ^ 63 /\
       exists c, p = c + 8 /\
         (may_grow st l c n \/ may_move max_request st l c n))
  end.

(** ** Observing a call *)

Definition returned (r : option (Z * state)) : option Z :=
  match r with
  | Some (p, _) => Some p
  | None => None
  end.

Definition after (r : option (Z * state)) (dflt : state) : state :=
  match r with
  | Some (_, st) => st
  | None => dflt
  end.

Definition after_free (r : option state) (dflt : state) : state :=
  match r with
  | Some st => st
  | None => dflt
  end.

(** A client write of one word into memory it owns. *)
Definition poke (st : state) (a w : Z) : state :=
  set_mem st (store64 (mem st) a w).

(** ** Concrete heaps

    All of them start from a zeroed memory with no arena set up; the
    bound on a single request is taken to be 2^30. *)

Definition boot : state := mkState (fun _ => 0) 0 0 0.
Definition max30 : Z := 2 ^ 30.

(** A 128-byte arena at address 1000, then three 8-byte allocations. *)
Definition h128 : state := snd (myinit boot 1000 128).
Definition h128_a : state := after (mymalloc max30 8 h128 8) h128.
Definition h128_ab : state := after (mymalloc max30 8 h128_a 8) h128_a.
Definition h128_abc : state := after (mymalloc max30 8 h128_ab 8) h128_ab.

(** ... and the first of them released again. *)
Definition h128_freed : state := after_free (myfree 8 h128_a 1008) h128_a.

(** [k] rounds of allocating 8 bytes and releasing them again. *)
Fixpoint churn (k : nat) (st : state) : state :=
  match k with
  | O => st
  | S k' =>
      let st1 := after (mymalloc max30 8 st 8) st in
      churn k' (after_free (myfree 8 st1 (segment_start st + 8)) st1)
  end.

(** A 72-byte arena filled by two allocations, with a marker word in the
    first payload. *)
Definition h72 : state := snd (myinit boot 1000 72).
Definition h72_a : state := after (mymalloc max30 8 h72 8) h72.
Definition h72_ab : state := after (mymalloc max30 8 h72_a 8) h72_a.
Definition h72_full : state := poke h72_ab 1008 81985529216486895.

(** A 56-byte arena. *)
Definition h56 : state := snd (myinit boot 1000 56).

(** A 96-byte arena cut into three in-use blocks A, B, C of 24, 24 and 48
    bytes. *)
Definition h96 : state := snd (myinit boot 1000 96).
Definition h96_a : state := after (mymalloc max30 8 h96 8) h96.
Definition h96_ab : state := after (mymalloc max30 8 h96_a 8) h96_a.
Definition h96_abc : state := after (mymalloc max30 8 h96_ab 8) h96_ab.

(** Blocks of 24, 32 and 24 bytes in use, 48 bytes free behind them; then
    the middle one released. *)
Definition g128_ab : state := after (mymalloc max30 8 h128_a 24) h128_a.
Definition g128_abc : state := after (mymalloc max30 8 g128_ab 8) g128_ab.
Definition g128_hole : state := after_free (myfree 8 g128_abc 1032) g128_abc.

(** The 128-byte arena set up a second time over a used heap. *)
Definition h128_again : state :=
  snd (myinit (after_free (myfree 8 h128_ab 1008) h128_ab) 1000 128).

(** The third block released (it merges with the free tail), then a
    40-byte request that takes the whole 80-byte block. *)
Definition h128_c_freed : state :=
  after_free (myfree 8 h128_abc 1056) h128_abc.
Definition h128_over : state :=
  after (mymalloc max30 8 h128_c_freed 40) h128_c_freed.

(** Heaps for the validator: an arena whose base is not aligned, a first
    header overwritten with "in use, size 0", and one overwritten with
    "in use, size 136" in the arena of 128 bytes. *)
Definition h_odd_base : state := snd (myinit boot 1001 128).
Definition h_zero_size : state := poke h128_a 1000 1.
Definition h_overshoot : state := poke h128_a 1000 137.

(** A heap filled up through an in-place resize, which does not count the
    bytes it adds: 88 bytes counted, 128 in use.  Then the same heap with a
    word behind the arena that reads as a free header of 4096 bytes. *)
Definition f128_grown : state :=
  after (myrealloc max30 8 h128_a 1008 50) h128_a.
Definition f128_full : state :=
  after (mymalloc max30 8 f128_grown 40) f128_grown.
Definition f128_beyond : state := poke f128_full 1128 4096.

(** ** The walk of the validator, block by block

    [walk_count k m a i] is the loop counter of [validate_heap] when the
    walk that started at address [a] with counter [i] is at its [k]-th
    block: the 32-bit [int] grows by the block size plus 2 with every
    block ([i += size + 1] in the body, [i++] in the loop header). *)
Fixpoint walk_count (k : nat) (m : memory) (a i : Z) : Z :=
  match k with
  | O => i
  | S k' =>
      walk_count k' m (wrap64 (a + getsize m a))
        (to_int (to_int (wrap64 (wrap64 i + wrap64 (getsize m a + 1))) + 1))
  end.

(** Block [j] of the walk is looked at and passes: the counter is below
    [nused], the address is a multiple of 8 and below the arena end, the
    decoded size is a multiple of 8. *)
Definition walk_ok (j : nat) (st : state) (a i : Z) : Prop :=
  wrap64 (walk_count j (mem st) a i) < nused st /\
  walk_addr j (mem st) a mod 8 = 0 /\
  walk_addr j (mem st) a < segment_end st /\
  getsize (mem st) (walk_addr j (mem st) a) mod 8 = 0.

(** The walk looks at its [k]-th block: all blocks before it passed and the
    counter is still below [nused]. *)
Definition looks_at (k : nat) (st : state) (a i : Z) : Prop :=
  (forall j, (j < k)%nat -> walk_ok j st a i) /\
  wrap64 (walk_count k (mem st) a i) < nused st.

(** Block [k] of the walk is one the validator rejects: its address is not
    a multiple of 8, or it lies below the arena end and its decoded size is
    not a multiple of 8. *)
Definition bad_block (k : nat) (st : state) (a : Z) : Prop :=
  walk_addr k (mem st) a mod 8 <> 0 \/
  (walk_addr k (mem st) a < segment_end st /\
   getsize (mem st) (walk_addr k (mem st) a) mod 8 <> 0).

(** Heaps the validator rejects: an 8-byte allocation in an arena based at
    1001; one in an arena of 36 bytes, which takes the whole block of 36
    bytes; and three in an arena of 100 bytes, the third of which takes the
    remaining 52 bytes. *)
Definition h_odd_a : state := after (mymalloc max30 8 h_odd_base 8) h_odd_base.
Definition h36 : state := snd (myinit boot 1000 36).
Definition h36_a : state := after (mymalloc max30 8 h36 8) h36.
Definition h100 : state := snd (myinit boot 1000 100).
Definition h100_a : state := after (mymalloc max30 8 h100 8) h100.
Definition h100_ab : state := after (mymalloc max30 8 h100_a 8) h100_a.
Definition h100_abc : state := after (mymalloc max30 8 h100_ab 8) h100_ab.

(** * The implicit-list allocator (implicit.c)

    The precursor of the explicit allocator: the same globals and the same
    header word, no link words, a linear scan over all blocks, no
    coalescing.  [isfree] and [getsize] are the same functions in both
    files and are shared here. *)

Module Implicit.

Definition placeheader (m : memory) (block_start size status : Z) : memory :=
  let header := Z.lor size (wrap64 status) in
  store64 m block_start header.

Definition myinit (st : state) (heap_start heap_size : Z) : bool * state :=
  (true, mkState (placeheader (mem st) heap_start heap_size 0)
                 heap_start heap_size 0).

Definition roundup (sz mult : Z) : Z :=
  Z.land (wrap64 (sz + mult - 1)) (not64 (wrap64 (mult - 1))).

(** The scan of [mymalloc].  The loop can leave in two ways: through the
    [return NULL] in its body ([Some None]) or through its condition
    ([Some (Some search_headers)]). *)
Fixpoint search_loop (fuel : nat) (st : state) (needed search_headers : Z)
  : option (option Z) :=
  match fuel with
  | O => None
  | S fuel' =>
      if negb (isfree (mem st) search_headers)
         || (getsize (mem st) search_headers <? needed)
      then
        let search_headers :=
          wrap64 (search_headers + getsize (mem st) search_headers) in
        if search_headers >? segment_end st then Some None
        else search_loop fuel' st needed search_headers
      else Some (Some search_headers)
  end.

(** [memcpy(dst, src, n)] between regions that do not overlap. *)
Definition memcpy (m : memory) (dst src n : Z) : memory := memmove m dst src n.

Section WithBound.

Variable MAX_REQUEST_SIZE : Z.

Definition mymalloc (fuel : nat) (st : state) (requested_size : Z)
  : option (Z * state) :=
  let st := breakpoint st in
  if requested_size <=? 0 then Some (NULL, st)
  else
    let needed := wrap64 (roundup requested_size ALIGNMENT + HEADER_SIZE) in
    if wrap64 (needed + nused st) >? segment_size st then Some (NULL, st)
    else if needed >? MAX_REQUEST_SIZE then Some (NULL, st)
    else
      match search_loop fuel st needed (segment_start st) with
      | None => None
      | Some None => Some (NULL, st)
      | Some (Some search_headers) =>
          let free_block_size := getsize (mem st) search_headers in
          let remaining_space := wrap64 (free_block_size - needed) in
          let st' :=
            if remaining_space >=? HEADER_SIZE + ALIGNMENT then
              let m := placeheader (mem st) (wrap64 (search_headers + needed))
                         remaining_space 0 in
              let m := placeheader m search_headers needed 1 in
              mkState m (segment_start st) (segment_size st)
                (wrap64 (nused st + needed))
            else
              let m := placeheader (mem st) search_headers free_block_size 1 in
              mkState m (segment_start st) (segment_size st)
                (wrap64 (nused st + free_block_size)) in
          Some (wrap64 (search_headers + HEADER_SIZE), st')
      end.

Definition myfree (st : state) (ptr : Z) : state :=
  if ptr =? NULL then st
  else
    let ptr := wrap64 (ptr - HEADER_SIZE) in
    set_mem st (store64 (mem st) ptr (Z.land (load64 (mem st) ptr) (not64 1))).

(** [old_size] is declared [unsigned int]: the block size is cut to 32
    bits. *)
Definition myrealloc (fuel : nat) (st : state) (old_ptr new_size : Z)
  : option (Z * state) :=
  let st := breakpoint st in
  if (new_size =? 0) && negb (old_ptr =? NULL) then
    Some (NULL, myfree st old_ptr)
  else if old_ptr =? NULL then mymalloc fuel st new_size
  else
    match mymalloc fuel st new_size with
    | None => None
    | Some (new_ptr, st1) =>
        let old_size :=
          getsize (mem st1) (wrap64 (old_ptr - HEADER_SIZE)) mod 2 ^ 32 in
        let m :=
          if old_size >? new_size
          then memcpy (mem st1) new_ptr old_ptr new_size
          else memcpy (mem st1) new_ptr old_ptr old_size in
        Some (new_ptr, myfree (set_mem st1 m) old_ptr)
    end.

End WithBound.

Definition validate_heap (st : state) : bool :=
  if nused st >? segment_size st then breakpoint false else true.

(** Well-formed heaps of the implicit allocator: blocks of at least 16
    bytes. *)
Definition block_ok (b : block) : Prop := 16 <= bsize b /\ bsize b mod 8 = 0.

Fixpoint blocks_ok (l : list block) : Prop :=
  match l with
  | [] => True
  | b :: l' => block_ok b /\ blocks_ok l'
  end.

Definition heap_ok (st : state) (l : list block) : Prop :=
  0 < segment_start st /\
  segment_start st + segment_size st < W64 /\
  chain (mem st) (segment_start st) l /\
  total l = segment_size st /\
  blocks_ok l.

(** The split of [mymalloc]: the remainder needs a header and one aligned
    unit. *)
Definition take (needed : Z) (b : block) : list block :=
  if bsize b - needed >=? HEADER_SIZE + ALIGNMENT
  then [mkBlock needed false; mkBlock (bsize b - needed) true]
  else [mkBlock (bsize b) false].

(** What [nused] accounts for.  [nused] is only ever added to, so it bounds
    from above the bytes of every block that was handed out at some time:
    all blocks except possibly the last one, which is free as long as it was
    never taken. *)
Definition heap_inv (st : state) (l : list block) : Prop :=
  heap_ok st l /\
  exists l0 tl,
    l = l0 ++ tl /\
    (tl = [] \/ exists t, tl = [mkBlock t true]) /\
    total l0 <= nused st <= segment_size st + 8.

(** The states a client reaches with [myinit], [mymalloc] and [myfree] of
    pointers to blocks of the heap. *)
Inductive reachable (max_request : Z) : state -> Prop :=
| reach_init st0 heap_start heap_size :
    0 < heap_start -> heap_start + heap_size < W64 ->
    16 <= heap_size -> heap_size mod 8 = 0 ->
    max_request + heap_size + 8 < W64 ->
    reachable max_request (snd (myinit st0 heap_start heap_size))
| reach_malloc st fuel requested_size p st' :
    reachable max_request st ->
    0 <= requested_size <= W64 - 16 ->
    mymalloc max_request fuel st requested_size = Some (p, st') ->
    reachable max_request st'
| reach_free st l c b :
    reachable max_request st ->
    heap_ok st l -> block_at (segment_start st) l c b ->
    reachable max_request (myfree st (c + HEADER_SIZE)).

(** A 128-byte arena with blocks of 16, 24 and 16 bytes in use and 72 bytes
    free; then the first two released. *)
Definition i128 : state := snd (myinit boot 1000 128).
Definition i128_a : state := after (mymalloc max30 8 i128 8) i128.
Definition i128_ab : state := after (mymalloc max30 8 i128_a 16) i128_a.
Definition i128_abc : state := after (mymalloc max30 8 i128_ab 8) i128_ab.
Definition i128_holes : state := myfree (myfree i128_abc 1008) 1024.

End Implicit.

(** * Evaluation on concrete heaps *)

Ltac concrete_heap :=
  unfold heap_ok;
  split; [vm_compute; reflexivity|];
  split; [vm_compute; reflexivity|];
  split; [vm_compute; repeat split|];
  split; [vm_compute; reflexivity|];
  vm_compute; repeat split; congruence.

Ltac concrete_list := unfold list_ok; vm_compute; repeat split.

(** * Memory lemmas *)

Lemma load8_range m a : 0 <= load8 m a < 256.
Proof. unfold load8. apply Z.mod_pos_bound. lia. Qed.

Lemma load_le_range n : forall m a, 0 <= load_le n m a < 256 ^ Z.of_nat n.
Proof.
  induction n as [|n IH]; intros m a.
  - simpl. lia.
  - rewrite Nat2Z.inj_succ, Z.pow_succ_r by lia.
    cbn [load_le]. pose proof (load8_range m a). specialize (IH m (a + 1)). lia.
Qed.

Lemma load64_range m a : 0 <= load64 m a < W64.
Proof. exact (load_le_range 8 m a). Qed.

Lemma load_le_ext n : forall m m' a,
  (forall x, a <= x < a + Z.of_nat n -> m' x = m x) ->
  load_le n m' a = load_le n m a.
Proof.
  induction n as [|n IH]; intros m m' a H; [reflexivity|].
  cbn [load_le]. unfold load8. rewrite (H a) by lia.
  rewrite (IH m m' (a + 1)); [reflexivity|]. intros x Hx. apply H. lia.
Qed.

Lemma load64_ext m m' a :
  (forall x, a <= x < a + 8 -> m' x = m x) -> load64 m' a = load64 m a.
Proof. intros H. apply (load_le_ext 8). exact H. Qed.

Lemma store64_out m a w x : x < a \/ a + 8 <= x -> store64 m a w x = m x.
Proof.
  intros H. unfold store64.
  destruct (Z.leb_spec a x), (Z.ltb_spec x (a + 8)); simpl; try reflexivity; lia.
Qed.

Lemma store64_in m a w x :
  a <= x < a + 8 -> store64 m a w x = (w / 2 ^ (8 * (x - a))) mod 256.
Proof.
  intros H. unfold store64.
  destruct (Z.leb_spec a x), (Z.ltb_spec x (a + 8)); simpl; try reflexivity; lia.
Qed.

Lemma load64_store64_other m a w b :
  b + 8 <= a \/ a + 8 <= b -> load64 (store64 m a w) b = load64 m b.
Proof.
  intros H. apply load64_ext. intros x Hx. apply store64_out. lia.
Qed.

Lemma load_le_store64 m a w n : forall k,
  0 <= k -> k + Z.of_nat n <= 8 ->
  load_le n (store64 m a w) (a + k) = (w / 256 ^ k) mod 256 ^ Z.of_nat n.
Proof.
  induction n as [|n IH]; intros k Hk Hn.
  - simpl. now rewrite Z.mod_1_r.
  - rewrite Nat2Z.inj_succ in *. cbn [load_le].
    replace (a + k + 1) with (a + (k + 1)) by lia.
    rewrite IH by lia. unfold load8. rewrite store64_in by lia.
    replace (a + k - a) with k by lia.
    replace (2 ^ (8 * k)) with (256 ^ k)
      by (rewrite Z.pow_mul_r by lia; reflexivity).
    rewrite Z.mod_mod by lia.
    rewrite Z.pow_succ_r by lia.
    rewrite (Z.rem_mul_r (w / 256 ^ k) 256 (256 ^ Z.of_nat n)) by lia.
    rewrite Z.pow_add_r, Z.pow_1_r by lia.
    rewrite Z.div_div by lia. reflexivity.
Qed.

Lemma load64_store64_same m a w : load64 (store64 m a w) a = wrap64 w.
Proof.
  unfold load64. replace a with (a + 0) at 2 by lia.
  rewrite load_le_store64 by lia.
  rewrite Z.pow_0_r, Z.div_1_r. reflexivity.
Qed.

(** * Codec lemmas *)

Lemma land_even_mask w : 0 <= w < W64 -> Z.land w (not64 1) = w - w mod 2.
Proof.
  intros Hw.
  replace (not64 1) with (Z.ldiff (Z.ones 64) (Z.ones 1)) by reflexivity.
  assert (E : Z.land w (Z.ldiff (Z.ones 64) (Z.ones 1))
              = Z.ldiff (Z.land w (Z.ones 64)) (Z.ones 1)).
  { apply Z.bits_inj'. intros n Hn.
    rewrite Z.land_spec, !Z.ldiff_spec, Z.land_spec.
    now rewrite andb_assoc. }
  rewrite E, Z.land_ones by lia.
  change (2 ^ 64) with W64. rewrite Z.mod_small by lia.
  rewrite Z.ldiff_ones_r, Z.shiftr_div_pow2, Z.shiftl_mul_pow2 by lia.
  change (2 ^ 1) with 2. pose proof (Z.div_mod w 2). lia.
Qed.

Lemma land_align_mask w : 0 <= w < W64 -> Z.land w (not64 7) = w - w mod 8.
Proof.
  intros Hw.
  replace (not64 7) with (Z.ldiff (Z.ones 64) (Z.ones 3)) by reflexivity.
  assert (E : Z.land w (Z.ldiff (Z.ones 64) (Z.ones 3))
              = Z.ldiff (Z.land w (Z.ones 64)) (Z.ones 3)).
  { apply Z.bits_inj'. intros n Hn.
    rewrite Z.land_spec, !Z.ldiff_spec, Z.land_spec.
    now rewrite andb_assoc. }
  rewrite E, Z.land_ones by lia.
  change (2 ^ 64) with W64. rewrite Z.mod_small by lia.
  rewrite Z.ldiff_ones_r, Z.shiftr_div_pow2, Z.shiftl_mul_pow2 by lia.
  change (2 ^ 3) with 8. pose proof (Z.div_mod w 8). lia.
Qed.

Lemma land_one w : Z.land w 1 = w mod 2.
Proof. change 1 with (Z.ones 1). now rewrite Z.land_ones by lia. Qed.

Lemma lor_one s : s mod 2 = 0 -> Z.lor s 1 = s + 1.
Proof.
  intros Hs. pose proof (Z.add_lor_land s 1) as H.
  rewrite land_one, Hs in H. lia.
Qed.

Lemma wrap64_small x : 0 <= x < W64 -> wrap64 x = x.
Proof. intros H. unfold wrap64. now apply Z.mod_small. Qed.

Lemma W64_val : W64 = 18446744073709551616.
Proof. reflexivity. Qed.

Lemma mod8_mod2 s : s mod 8 = 0 -> s mod 2 = 0.
Proof.
  intros H. pose proof (Z.div_mod s 8). pose proof (Z.div_mod s 2).
  pose proof (Z.mod_pos_bound s 2). lia.
Qed.

Lemma hdr_getsize m a b :
  load64 m a = hdr b -> bsize b mod 2 = 0 -> 0 <= bsize b ->
  getsize m a = bsize b.
Proof.
  intros H He Hp. unfold getsize. pose proof (load64_range m a) as R.
  rewrite land_even_mask by exact R. rewrite H in *. unfold hdr in *.
  destruct (bfree b).
  - rewrite Z.add_0_r, He. lia.
  - replace ((bsize b + 1) mod 2) with 1; [lia|].
    pose proof (Z.div_mod (bsize b) 2). pose proof (Z.div_mod (bsize b + 1) 2).
    pose proof (Z.mod_pos_bound (bsize b + 1) 2). lia.
Qed.

Lemma hdr_isfree m a b :
  load64 m a = hdr b -> bsize b mod 2 = 0 -> isfree m a = bfree b.
Proof.
  intros H He. unfold isfree. rewrite land_one, H. unfold hdr.
  destruct (bfree b).
  - rewrite Z.add_0_r, He. reflexivity.
  - replace ((bsize b + 1) mod 2) with 1; [reflexivity|].
    pose proof (Z.div_mod (bsize b) 2). pose proof (Z.div_mod (bsize b + 1) 2).
    pose proof (Z.mod_pos_bound (bsize b + 1) 2). lia.
Qed.

Lemma placeheader_free m a s : placeheader m a s 0 = store64 m a s.
Proof.
  unfold placeheader. simpl. unfold breakpoint.
  change (wrap64 0) with 0. now rewrite Z.lor_0_r.
Qed.

Lemma placeheader_used m a s :
  s mod 2 = 0 -> placeheader m a s 1 = store64 m a (s + 1).
Proof.
  intros H. unfold placeheader. simpl.
  change (wrap64 1) with 1. now rewrite lor_one.
Qed.

(** [roundup] at the alignment of the allocator, away from the wrap-around. *)
Lemma roundup_small sz : 0 < sz <= 16 -> roundup sz ALIGNMENT = 24.
Proof.
  intros H. unfold roundup, ALIGNMENT, HEADER_SIZE.
  change (wrap64 (8 - 1)) with 7.
  replace (sz + 8 - 1) with (sz + 7) by lia.
  rewrite wrap64_small by (rewrite W64_val; lia).
  rewrite land_align_mask by (rewrite W64_val; lia).
  pose proof (Z.div_mod (sz + 7) 8). pose proof (Z.mod_pos_bound (sz + 7) 8).
  destruct (Z.gtb_spec (sz + 7 - (sz + 7) mod 8) 0),
           (Z.ltb_spec (sz + 7 - (sz + 7) mod 8) (8 + 16)); simpl; lia.
Qed.

Lemma roundup_large sz :
  16 < sz <= W64 - 16 ->
  roundup sz ALIGNMENT = sz + 7 - (sz + 7) mod 8 + 8.
Proof.
  intros H. unfold roundup, ALIGNMENT, HEADER_SIZE.
  change (wrap64 (8 - 1)) with 7.
  replace (sz + 8 - 1) with (sz + 7) by lia.
  rewrite W64_val in H.
  rewrite wrap64_small by (rewrite W64_val; lia).
  rewrite land_align_mask by (rewrite W64_val; lia).
  pose proof (Z.div_mod (sz + 7) 8). pose proof (Z.mod_pos_bound (sz + 7) 8).
  rewrite wrap64_small by (rewrite W64_val; lia).
  destruct (Z.gtb_spec (sz + 7 - (sz + 7) mod 8) 0),
           (Z.ltb_spec (sz + 7 - (sz + 7) mod 8) (8 + 16)); simpl; lia.
Qed.

Lemma roundup_props sz :
  0 < sz <= W64 - 16 ->
  let needed := roundup sz ALIGNMENT in
  24 <= needed /\ needed mod 8 = 0 /\ sz + 8 <= needed <= sz + 23
  /\ (16 < sz -> needed <= sz + 15).
Proof.
  intros H needed. subst needed.
  destruct (Z.le_gt_cases sz 16) as [Hs|Hs].
  - rewrite roundup_small by lia. repeat split; try reflexivity; lia.
  - rewrite roundup_large by lia.
    pose proof (Z.div_mod (sz + 7) 8). pose proof (Z.mod_pos_bound (sz + 7) 8).
    assert (E : (sz + 7 - (sz + 7) mod 8 + 8) mod 8 = 0).
    { replace (sz + 7 - (sz + 7) mod 8 + 8) with (((sz + 7) / 8 + 1) * 8) by lia.
      apply Z.mod_mul. lia. }
    repeat split; solve [lia | exact E].
Qed.

Lemma roundup_lt sz : 0 < sz <= W64 - 16 -> roundup sz ALIGNMENT < W64.
Proof.
  intros H. pose proof (roundup_props sz H) as (_ & _ & _ & H15).
  destruct (Z.le_gt_cases sz 16).
  - rewrite roundup_small by lia. reflexivity.
  - specialize (H15 ltac:(lia)). lia.
Qed.

Lemma add_mod8 x y : x mod 8 = 0 -> y mod 8 = 0 -> (x + y) mod 8 = 0.
Proof.
  intros Hx Hy. pose proof (Z.div_mod x 8). pose proof (Z.div_mod y 8).
  replace (x + y) with ((x / 8 + y / 8) * 8) by lia. apply Z.mod_mul. lia.
Qed.

Lemma sub_mod8 x y : x mod 8 = 0 -> y mod 8 = 0 -> (x - y) mod 8 = 0.
Proof.
  intros Hx Hy. pose proof (Z.div_mod x 8). pose proof (Z.div_mod y 8).
  replace (x - y) with ((x / 8 - y / 8) * 8) by lia. apply Z.mod_mul. lia.
Qed.


(** * Block sequences *)

Lemma block_ok_even b : block_ok b -> bsize b mod 2 = 0.
Proof. intros [_ H]. now apply mod8_mod2. Qed.

Lemma total_nonneg l : blocks_ok l -> 0 <= total l.
Proof.
  induction l as [|b l IH]; simpl; [lia|].
  intros [[Hb _] Hl]. specialize (IH Hl). lia.
Qed.

Lemma total_app l1 l2 : total (l1 ++ l2) = total l1 + total l2.
Proof. induction l1 as [|b l1 IH]; simpl; lia. Qed.

Lemma blocks_ok_app l1 l2 : blocks_ok (l1 ++ l2) <-> blocks_ok l1 /\ blocks_ok l2.
Proof. induction l1 as [|b l1 IH]; simpl; tauto. Qed.

Lemma chain_app m l1 : forall a l2,
  chain m a (l1 ++ l2) <-> chain m a l1 /\ chain m (a + total l1) l2.
Proof.
  induction l1 as [|b l1 IH]; intros a l2; simpl.
  - rewrite Z.add_0_r. tauto.
  - rewrite IH. replace (a + bsize b + total l1) with (a + (bsize b + total l1)) by lia.
    tauto.
Qed.

(** A chain only depends on the bytes of the region it covers. *)
Lemma chain_ext m m' l : forall a,
  blocks_ok l -> chain m a l ->
  (forall x, a <= x < a + total l -> m' x = m x) ->
  chain m' a l.
Proof.
  induction l as [|b l IH]; intros a Hok Hc Hx; simpl in *; [exact I|].
  destruct Hok as [[Hb Hb8] Hl], Hc as [Hh Hc].
  pose proof (total_nonneg l Hl). split.
  - rewrite <- Hh. apply load64_ext. intros x Hx'. apply Hx. lia.
  - apply IH; auto. intros x Hx'. apply Hx. lia.
Qed.

Lemma in_links_range l : forall a x,
  blocks_ok l -> in_links a l x -> a + 8 <= x < a + total l.
Proof.
  induction l as [|b l IH]; intros a x Hok H; simpl in *; [tauto|].
  destruct Hok as [[Hb _] Hl]. pose proof (total_nonneg l Hl).
  destruct H as [[_ H]|H]; [lia|]. specialize (IH _ _ Hl H). lia.
Qed.

Lemma in_free_range l : forall a x,
  blocks_ok l -> in_free a l x -> a <= x < a + total l.
Proof.
  induction l as [|b l IH]; intros a x Hok H; simpl in *; [tauto|].
  destruct Hok as [[Hb _] Hl]. pose proof (total_nonneg l Hl).
  destruct H as [[_ H]|H]; [lia|]. specialize (IH _ _ Hl H). lia.
Qed.

Lemma in_links_in_free l : forall a x,
  blocks_ok l -> in_links a l x -> in_free a l x.
Proof.
  induction l as [|b l IH]; intros a x Hok H; simpl in *; [tauto|].
  destruct Hok as [[Hb _] Hl].
  destruct H as [[Hf H]|H]; [left; split; [assumption|lia]|right; auto].
Qed.

Lemma first_free_none l : forall a, has_free l = false -> first_free a l = 0.
Proof.
  induction l as [|b l IH]; intros a H; simpl in *; [reflexivity|].
  apply orb_false_iff in H. destruct H as [Hb Hl]. rewrite Hb. auto.
Qed.

Lemma first_free_range l : forall a,
  blocks_ok l -> has_free l = true -> a <= first_free a l < a + total l.
Proof.
  induction l as [|b l IH]; intros a Hok H; simpl in *; [discriminate|].
  destruct Hok as [[Hb _] Hl]. pose proof (total_nonneg l Hl).
  destruct (bfree b); simpl in H; [lia|]. specialize (IH (a + bsize b) Hl H). lia.
Qed.

Lemma first_free_zero l a :
  blocks_ok l -> 0 < a -> first_free a l = 0 -> has_free l = false.
Proof.
  intros Hok Ha H. destruct (has_free l) eqn:E; [|reflexivity].
  pose proof (first_free_range l a Hok E). lia.
Qed.

(** * The list maintainer *)

Lemma updatelinkedlist_loop_spec l : forall m a prev fuel e,
  chain m a l -> blocks_ok l ->
  0 < a -> a + total l = e -> e < W64 ->
  0 <= prev -> (prev = 0 \/ prev + 24 <= a) ->
  (length l < fuel)%nat ->
  exists m',
    updatelinkedlist_loop fuel m e a prev = Some m' /\
    chain m' a l /\
    links m' a prev l /\
    (forall x, ~ in_links a l x ->
               ~ (prev <> 0 /\ has_free l = true /\ prev + 16 <= x < prev + 24) ->
               m' x = m x) /\
    (prev <> 0 -> has_free l = true -> load64 m' (prev + 16) = first_free a l).
Proof.
  induction l as [|b l IH]; intros m a prev fuel e Hc Hok Ha He HW Hp Hpa Hf.
  - destruct fuel as [|fuel]; [simpl in Hf; lia|]. simpl in *.
    destruct (Z.ltb_spec a e); [lia|].
    exists m. repeat split; auto. discriminate.
  - destruct fuel as [|fuel]; [simpl in Hf; lia|].
    simpl in Hc, Hok, He, Hf. destruct Hc as [Hh Hc], Hok as [Hb Hl].
    pose proof (block_ok_even b Hb) as Heven. destruct Hb as [Hb24 Hb8].
    pose proof (total_nonneg l Hl) as Ht.
    cbn [updatelinkedlist_loop].
    destruct (Z.ltb_spec a e); [|lia].
    rewrite (hdr_isfree m a b Hh Heven).
    destruct (bfree b) eqn:Efree.
    + (* a free block: three link writes, then on with [prev := a] *)
      unfold setprevptr, setnextptr, getprevptr, HEADER_SIZE.
      rewrite (wrap64_small (a + 8)) by lia.
      rewrite (wrap64_small (a + 8 + 8)) by lia.
      rewrite load64_store64_same, (wrap64_small prev) by lia.
      set (m1 := store64 m (a + 8) prev).
      set (m2 := if negb (prev =? 0)
                 then store64 m1 (wrap64 (prev + 8 + 8)) a else m1).
      set (m3 := store64 m2 (a + 8 + 8) 0).
      assert (Hm2 : forall x, ~ (prev <> 0 /\ prev + 16 <= x < prev + 24) ->
                              m2 x = m1 x).
      { intros x Hx. unfold m2. destruct (Z.eqb_spec prev 0); simpl; auto.
        rewrite wrap64_small by lia. apply store64_out. lia. }
      assert (Hm3 : forall x, ~ (a + 8 <= x < a + 24) ->
                  ~ (prev <> 0 /\ prev + 16 <= x < prev + 24) -> m3 x = m x).
      { intros x Hx1 Hx2. unfold m3. rewrite store64_out by lia.
        rewrite Hm2 by exact Hx2. unfold m1. apply store64_out. lia. }
      assert (Hh3 : load64 m3 a = hdr b).
      { rewrite <- Hh. apply load64_ext. intros x Hx. apply Hm3; lia. }
      rewrite (hdr_getsize m3 a b Hh3 Heven) by lia.
      rewrite (wrap64_small (a + bsize b)) by lia.
      assert (Hc3 : chain m3 (a + bsize b) l).
      { apply (chain_ext m); auto. intros x Hx. apply Hm3; lia. }
      destruct (IH m3 (a + bsize b) a fuel e Hc3 Hl) as (m' & Hrun & Hc' & Hl' & Hfr & Hnx);
        try lia.
      exists m'. split; [exact Hrun|].
      assert (Hsame : forall x, a <= x < a + 16 -> m' x = m3 x).
      { intros x Hx. apply Hfr.
        - intros Hin. apply in_links_range in Hin; auto. lia.
        - lia. }
      split; [|split; [|split]].
      * simpl. split; [|exact Hc'].
        rewrite <- Hh3. apply load64_ext. intros x Hx. apply Hsame. lia.
      * simpl. rewrite Efree. split; [|split; [|exact Hl']].
        -- transitivity (load64 m3 (a + 8)).
           { apply load64_ext. intros x Hx. apply Hsame. lia. }
           unfold m3. rewrite load64_store64_other by lia.
           transitivity (load64 m1 (a + 8)).
           { apply load64_ext. intros x Hx. apply Hm2. lia. }
           unfold m1. rewrite load64_store64_same. apply wrap64_small. lia.
        -- destruct (has_free l) eqn:Ehf.
           ++ apply Hnx; [lia|reflexivity].
           ++ rewrite first_free_none by exact Ehf.
              transitivity (load64 m3 (a + 16)).
              { apply load64_ext. intros x Hx. apply Hfr.
                - intros Hin. apply in_links_range in Hin; auto. lia.
                - intros (_ & Hd & _). discriminate. }
              unfold m3. replace (a + 8 + 8) with (a + 16) by lia.
              rewrite load64_store64_same. reflexivity.
      * intros x Hx1 Hx2. simpl in Hx1, Hx2. rewrite Efree in Hx2. simpl in Hx2.
        transitivity (m3 x).
        -- apply Hfr.
           ++ intros Hin. apply Hx1. now right.
           ++ intros (_ & _ & Hr). apply Hx1. left. split; [exact Efree|lia].
        -- apply Hm3.
           ++ intros Hr. apply Hx1. left. split; [exact Efree|lia].
           ++ intros (Hp0 & Hr). apply Hx2. auto.
      * intros Hp0 _. simpl. rewrite Efree.
        transitivity (load64 m3 (prev + 16)).
        { apply load64_ext. intros x Hx. apply Hfr.
          - intros Hin. apply in_links_range in Hin; auto. lia.
          - lia. }
        unfold m3. rewrite load64_store64_other by lia.
        unfold m2. destruct (Z.eqb_spec prev 0); [lia|]. simpl.
        rewrite wrap64_small by lia. replace (prev + 8 + 8) with (prev + 16) by lia.
        rewrite load64_store64_same. apply wrap64_small. lia.
    + (* an in-use block: skipped *)
      rewrite (hdr_getsize m a b Hh Heven) by lia.
      rewrite (wrap64_small (a + bsize b)) by lia.
      destruct (IH m (a + bsize b) prev fuel e Hc Hl) as (m' & Hrun & Hc' & Hl' & Hfr & Hnx);
        try lia.
      exists m'. split; [exact Hrun|]. split; [|split; [|split]].
      * simpl. split; [|exact Hc'].
        rewrite <- Hh. apply load64_ext. intros x Hx. apply Hfr.
        -- intros Hin. apply in_links_range in Hin; auto. lia.
        -- lia.
      * simpl. rewrite Efree. exact Hl'.
      * intros x Hx1 Hx2. simpl in Hx1, Hx2. rewrite Efree in Hx2. simpl in Hx2.
        apply Hfr; [|exact Hx2]. intros Hin. apply Hx1. now right.
      * intros Hp0 Hhf. simpl in Hhf |- *. rewrite Efree in *. simpl in Hhf. auto.
Qed.

Lemma segment_end_ok st l : heap_ok st l -> segment_end st = segment_start st + segment_size st.
Proof.
  intros (Hs & Hw & _ & Ht & Hok). unfold segment_end. apply wrap64_small.
  pose proof (total_nonneg l Hok). lia.
Qed.

Lemma updatelinkedlist_spec st l fuel :
  heap_ok st l -> (length l < fuel)%nat ->
  exists st',
    updatelinkedlist fuel st = Some st' /\
    heap_ok st' l /\ list_ok st' l /\
    segment_start st' = segment_start st /\
    segment_size st' = segment_size st /\
    nused st' = nused st /\
    (forall x, ~ in_links (segment_start st) l x -> mem st' x = mem st x).
Proof.
  intros Hok Hf. pose proof (segment_end_ok st l Hok) as He.
  destruct Hok as (Hs & Hw & Hc & Ht & Hl).
  destruct (updatelinkedlist_loop_spec l (mem st) (segment_start st) 0 fuel
              (segment_end st) Hc Hl) as (m' & Hrun & Hc' & Hl' & Hfr & _);
    try lia.
  exists (set_mem st m'). unfold updatelinkedlist. rewrite Hrun.
  repeat split; simpl; auto. intros x Hx. apply Hfr; [exact Hx|]. intros [H _]. lia.
Qed.

(** * The block scanner and the first-fit search *)

Lemma getfirstfree_loop_spec st l : forall a fuel,
  chain (mem st) a l -> blocks_ok l -> has_free l = true ->
  0 < a -> a + total l = segment_end st -> segment_end st < W64 ->
  (length l < fuel)%nat ->
  getfirstfree_loop fuel st a = Some (first_free a l).
Proof.
  induction l as [|b l IH]; intros a fuel Hc Hok Hhf Ha He HW Hf;
    [discriminate|].
  destruct fuel as [|fuel]; [simpl in Hf; lia|].
  simpl in Hc, Hok, He, Hf, Hhf. destruct Hc as [Hh Hc], Hok as [Hb Hl].
  pose proof (block_ok_even b Hb) as Heven. destruct Hb as [Hb24 Hb8].
  pose proof (total_nonneg l Hl) as Ht.
  cbn [getfirstfree_loop first_free].
  rewrite (hdr_isfree _ a b Hh Heven).
  destruct (bfree b) eqn:Efree; simpl; [reflexivity|].
  rewrite (hdr_getsize _ a b Hh Heven) by lia.
  rewrite (wrap64_small (a + bsize b)) by lia.
  destruct (Z.gtb_spec (a + bsize b) (segment_end st)); [lia|].
  apply IH; auto; lia.
Qed.

Lemma fit_addr_none needed l : forall a, has_free l = false -> fit_addr needed a l = 0.
Proof.
  induction l as [|b l IH]; intros a H; simpl in *; [reflexivity|].
  apply orb_false_iff in H. destruct H as [Hb Hl]. rewrite Hb. simpl. auto.
Qed.

Lemma fit_loop_spec m needed l : forall a prev fuel,
  chain m a l -> links m a prev l -> blocks_ok l -> has_free l = true ->
  0 < a -> a + total l < W64 ->
  (length l < fuel)%nat ->
  fit_loop fuel m needed (first_free a l) = Some (fit_addr needed a l).
Proof.
  induction l as [|b l IH]; intros a prev fuel Hc Hlk Hok Hhf Ha HW Hf;
    [discriminate|].
  simpl in Hc, Hok, Hf, Hhf, Hlk, HW. destruct Hc as [Hh Hc], Hok as [Hb Hl].
  pose proof (block_ok_even b Hb) as Heven. destruct Hb as [Hb24 Hb8].
  pose proof (total_nonneg l Hl) as Ht.
  cbn [first_free fit_addr].
  destruct (bfree b) eqn:Efree; simpl in Hhf |- *.
  - destruct fuel as [|fuel]; [simpl in Hf; lia|].
    destruct Hlk as (Hprev & Hnext & Hlk).
    cbn [fit_loop]. rewrite (hdr_getsize _ a b Hh Heven) by lia.
    destruct (Z.ltb_spec (bsize b) needed), (Z.leb_spec needed (bsize b));
      try lia; [|reflexivity].
    unfold getnextptr, HEADER_SIZE. rewrite wrap64_small by lia.
    replace (a + 8 + 8) with (a + 16) by lia. rewrite Hnext.
    destruct (Z.eqb_spec (first_free (a + bsize b) l) 0) as [E0|E0].
    + apply first_free_zero in E0; auto; [|lia].
      now rewrite fit_addr_none.
    + destruct (has_free l) eqn:Ehf; [|now rewrite first_free_none in E0].
      apply (IH _ a); auto; lia.
  - apply (IH _ prev); auto; lia.
Qed.

Lemma fit_addr_split needed l : forall a,
  blocks_ok l -> 0 < a -> fit_addr needed a l <> 0 ->
  exists l1 b l2,
    l = l1 ++ b :: l2 /\
    fit_addr needed a l = a + total l1 /\
    bfree b = true /\ needed <= bsize b /\
    (forall b', In b' l1 -> bfree b' = true -> bsize b' < needed) /\
    alloc_blocks needed l = l1 ++ take needed b ++ l2 /\
    alloc_taken needed l = (if bsize b - needed >=? 40 then needed else bsize b).
Proof.
  induction l as [|b l IH]; intros a Hok Ha Hfit; simpl in *; [congruence|].
  destruct Hok as [[Hb24 Hb8] Hl].
  destruct (bfree b && (needed <=? bsize b)) eqn:E.
  - apply andb_true_iff in E. destruct E as [Ef En]. apply Z.leb_le in En.
    exists [], b, l. simpl. repeat split; auto; try lia.
  - destruct (IH (a + bsize b) Hl ltac:(lia) Hfit)
      as (l1 & b1 & l2 & El & Ea & Ef & En & Hall & Eal & Etk).
    exists (b :: l1), b1, l2. simpl. rewrite Ea, Eal.
    repeat split; auto; try lia.
    + now rewrite El.
    + intros b' [<-|Hin] Hfb; [|auto].
      rewrite Hfb in E. simpl in E. apply Z.leb_gt in E. exact E.
Qed.

Lemma in_free_app l1 : forall a l2 x,
  in_free a (l1 ++ l2) x <-> in_free a l1 x \/ in_free (a + total l1) l2 x.
Proof.
  induction l1 as [|b l1 IH]; intros a l2 x; simpl.
  - rewrite Z.add_0_r. tauto.
  - rewrite IH. replace (a + bsize b + total l1) with (a + (bsize b + total l1)) by lia.
    tauto.
Qed.

Lemma in_links_app l1 : forall a l2 x,
  in_links a (l1 ++ l2) x <-> in_links a l1 x \/ in_links (a + total l1) l2 x.
Proof.
  induction l1 as [|b l1 IH]; intros a l2 x; simpl.
  - rewrite Z.add_0_r. tauto.
  - rewrite IH. replace (a + bsize b + total l1) with (a + (bsize b + total l1)) by lia.
    tauto.
Qed.

Lemma total_take needed b : total (take needed b) = bsize b.
Proof. unfold take. destruct (bsize b - needed >=? 40); simpl; lia. Qed.

Lemma length_take needed b : (length (take needed b) <= 2)%nat.
Proof. unfold take. destruct (bsize b - needed >=? 40); simpl; lia. Qed.

Lemma blocks_ok_take needed b :
  block_ok b -> 24 <= needed -> needed mod 8 = 0 -> blocks_ok (take needed b).
Proof.
  intros [Hb Hb8] Hn Hn8. unfold take.
  destruct (Z.geb_spec (bsize b - needed) 40); simpl; unfold block_ok; simpl;
    repeat split; auto; try lia.
  now apply sub_mod8.
Qed.

Lemma in_links_take needed b a x :
  24 <= needed -> in_links a (take needed b) x -> a <= x < a + bsize b.
Proof.
  intros Hn. unfold take.
  destruct (Z.geb_spec (bsize b - needed) 40); simpl; intros Hin.
  - destruct Hin as [[Hin _]|[[_ Hin]|[]]]; [discriminate|lia].
  - destruct Hin as [[Hin _]|[]]. discriminate.
Qed.

Section Proofs.

Variable MAX_REQUEST_SIZE : Z.

(** * Allocation *)

Lemma fit_loop_ok st l fuel needed :
  heap_ok st l -> list_ok st l \/ fresh st l -> has_free l = true ->
  0 <= needed < W64 -> wrap64 (needed + nused st) <= segment_size st ->
  (length l < fuel)%nat ->
  fit_loop fuel (mem st) needed (first_free (segment_start st) l)
  = Some (fit_addr needed (segment_start st) l).
Proof.
  intros (Hs & Hw & Hc & Ht & Hl) Hlk Hhf Hn Hnu Hf.
  destruct Hlk as [Hlk|[Hu [s Es]]].
  - apply (fit_loop_spec (mem st) needed l (segment_start st) 0); auto; lia.
  - subst l. simpl in *. destruct Hc as [Hh _], Hl as [Hb _].
    pose proof (block_ok_even _ Hb) as Heven. destruct Hb as [Hb24 Hb8].
    simpl in Hb24, Hb8.
    destruct fuel as [|fuel]; [lia|]. cbn [fit_loop].
    rewrite (hdr_getsize _ _ _ Hh Heven) by (simpl; lia). simpl.
    rewrite Hu, Z.add_0_r, wrap64_small in Hnu by lia.
    destruct (Z.ltb_spec s needed), (Z.leb_spec needed s); try lia. reflexivity.
Qed.

Lemma mymalloc_spec st l fuel req :
  heap_ok st l -> list_ok st l \/ fresh st l -> has_free l = true ->
  0 < req <= W64 - 16 -> (length l + 1 < fuel)%nat ->
  let needed := roundup req ALIGNMENT in
  let c := fit_addr needed (segment_start st) l in
  if (wrap64 (needed + nused st) >? segment_size st)
     || (needed >? MAX_REQUEST_SIZE) || (c =? 0)
  then mymalloc MAX_REQUEST_SIZE fuel st req = Some (NULL, st)
  else
    exists st',
      mymalloc MAX_REQUEST_SIZE fuel st req = Some (c + 8, st') /\
      heap_ok st' (alloc_blocks needed l) /\
      list_ok st' (alloc_blocks needed l) /\
      segment_start st' = segment_start st /\
      segment_size st' = segment_size st /\
      nused st' = wrap64 (nused st + alloc_taken needed l) /\
      (forall x, ~ in_free (segment_start st) l x -> mem st' x = mem st x).
Proof.
  intros Hok Hlk Hhf Hreq Hf needed c.
  pose proof (roundup_props req Hreq) as (Hn24 & Hn8 & Hnreq & _).
  fold needed in Hn24, Hn8, Hnreq.
  pose proof (roundup_lt req Hreq) as HnW. fold needed in HnW.
  pose proof (segment_end_ok st l Hok) as He.
  destruct Hok as (Hs & Hw & Hc & Ht & Hl).
  pose proof (total_nonneg l Hl) as Htn.
  unfold mymalloc. fold needed.
  destruct (Z.leb_spec req 0); [lia|].
  destruct (Z.gtb_spec (wrap64 (needed + nused st)) (segment_size st)) as [|Hnu];
    [reflexivity|].
  destruct (needed >? MAX_REQUEST_SIZE); [reflexivity|]. simpl.
  unfold getfirstfree.
  rewrite (getfirstfree_loop_spec st l) by (auto; lia).
  pose proof (first_free_range l (segment_start st) Hl Hhf) as Hffr.
  unfold NULL.
  destruct (Z.eqb_spec (first_free (segment_start st) l) 0); [lia|].
  assert (Hfit : fit_loop fuel (mem st) needed (first_free (segment_start st) l)
                 = Some (fit_addr needed (segment_start st) l)).
  { apply fit_loop_ok; auto; try lia. unfold heap_ok. auto. }
  rewrite Hfit.
  fold c. destruct (Z.eqb_spec c 0) as [Ec|Ec]; [reflexivity|].
  destruct (fit_addr_split needed l (segment_start st) Hl Hs Ec)
    as (l1 & b & l2 & El & Ea & Ef & En & _ & Eal & Etk).
  fold c in Ea.
  rewrite El in Hc, Hl, Ht. apply chain_app in Hc. destruct Hc as [Hc1 Hc2].
  simpl in Hc2. destruct Hc2 as [Hh Hc2]. rewrite <- Ea in Hh, Hc2.
  apply blocks_ok_app in Hl. destruct Hl as [Hl1 Hl2]. simpl in Hl2.
  destruct Hl2 as [Hb Hl2]. pose proof (block_ok_even b Hb) as Heven.
  pose proof Hb as [Hb24 Hb8].
  rewrite total_app in Ht. simpl in Ht.
  pose proof (total_nonneg l1 Hl1) as Ht1. pose proof (total_nonneg l2 Hl2) as Ht2.
  rewrite (hdr_getsize _ c b Hh Heven) by lia.
  rewrite (wrap64_small (bsize b - needed)) by lia.
  unfold HEADER_SIZE. rewrite (wrap64_small (c + 8)) by lia.
  set (st1 := if bsize b - needed >=? 40 then _ else _).
  set (m1 := if bsize b - needed >=? 40
             then store64 (store64 (mem st) (c + needed) (bsize b - needed)) c (needed + 1)
             else store64 (mem st) c (bsize b + 1)).
  assert (Est1 : st1 = mkState m1 (segment_start st) (segment_size st)
                         (wrap64 (nused st + alloc_taken needed l))).
  { unfold st1, m1. rewrite Etk. destruct (bsize b - needed >=? 40).
    - rewrite placeheader_free, placeheader_used by (now apply mod8_mod2).
      rewrite (wrap64_small (c + needed)) by lia. reflexivity.
    - rewrite placeheader_used by exact Heven. reflexivity. }
  assert (Hm1 : forall x, ~ (c <= x < c + bsize b) -> m1 x = mem st x).
  { intros x Hx. unfold m1. destruct (Z.geb_spec (bsize b - needed) 40).
    - rewrite !store64_out by lia. reflexivity.
    - rewrite store64_out by lia. reflexivity. }
  assert (Hok1 : heap_ok st1 (alloc_blocks needed l)).
  { rewrite Est1, Eal. unfold heap_ok. simpl.
    split; [exact Hs|]. split; [exact Hw|]. split; [|split].
    - apply chain_app. split.
      + apply (chain_ext (mem st)); auto. intros x Hx. apply Hm1. lia.
      + rewrite <- Ea. apply chain_app. rewrite total_take. split.
        * unfold take, m1. destruct (Z.geb_spec (bsize b - needed) 40); simpl.
          -- rewrite load64_store64_same, load64_store64_other by lia.
             rewrite load64_store64_same. unfold hdr. simpl.
             rewrite !wrap64_small by lia. repeat split; lia.
          -- rewrite load64_store64_same. unfold hdr. simpl.
             rewrite !wrap64_small by lia. repeat split; lia.
        * apply (chain_ext (mem st)); auto. intros x Hx. apply Hm1. lia.
    - rewrite !total_app, total_take. simpl. exact Ht.
    - apply blocks_ok_app. split; [exact Hl1|]. apply blocks_ok_app.
      split; [|exact Hl2]. now apply blocks_ok_take. }
  destruct (updatelinkedlist_spec st1 (alloc_blocks needed l) fuel Hok1)
    as (st2 & Hrun & Hok2 & Hlk2 & Es2 & Ez2 & Eu2 & Hfr2).
  { rewrite Eal, !length_app. pose proof (length_take needed b).
    rewrite El, length_app in Hf. simpl in Hf |- *. lia. }
  rewrite Hrun. exists st2. split; [reflexivity|].
  rewrite Est1 in Es2, Ez2, Eu2, Hfr2. simpl in Es2, Ez2, Eu2, Hfr2.
  split; [exact Hok2|]. split; [exact Hlk2|]. split; [exact Es2|].
  split; [exact Ez2|]. split; [exact Eu2|].
  intros x Hx. rewrite El in Hx.
  assert (Hxb : ~ (c <= x < c + bsize b)).
  { intros Hr. apply Hx. apply in_free_app. right. simpl. left. split; [exact Ef|lia]. }
  rewrite Hfr2; [apply Hm1; exact Hxb|].
  rewrite Eal. intros Hin. apply in_links_app in Hin. destruct Hin as [Hin|Hin].
  - apply Hx. apply in_free_app. left. now apply in_links_in_free.
  - apply in_links_app in Hin. destruct Hin as [Hin|Hin].
    + apply in_links_take in Hin; [|exact Hn24]. lia.
    + rewrite total_take in Hin. apply Hx. apply in_free_app. right. simpl. right.
      now apply in_links_in_free.
Qed.

(** * Release *)

Lemma absorb_total l : fst (absorb l) + total (snd (absorb l)) = total l.
Proof.
  induction l as [|b l IH]; simpl; [reflexivity|].
  destruct (bfree b); simpl; lia.
Qed.

Lemma absorb_ok l :
  blocks_ok l ->
  blocks_ok (snd (absorb l)) /\ 0 <= fst (absorb l) /\ fst (absorb l) mod 8 = 0.
Proof.
  induction l as [|b l IH]; simpl; [intros _; repeat split; lia|].
  intros [Hb Hl]. destruct (IH Hl) as (H1 & H2 & H3). destruct Hb as [Hb24 Hb8].
  destruct (bfree b); simpl.
  - repeat split; auto; try lia. now apply add_mod8.
  - repeat split; auto; lia.
Qed.

Lemma absorb_length l : (length (snd (absorb l)) <= length l)%nat.
Proof.
  induction l as [|b l IH]; simpl; [lia|]. destruct (bfree b); simpl; lia.
Qed.

Lemma absorb_in_free l : forall a x,
  in_free (a + fst (absorb l)) (snd (absorb l)) x -> in_free a l x.
Proof.
  induction l as [|b l IH]; intros a x; simpl; [tauto|].
  destruct (bfree b) eqn:E; simpl.
  - intros H. right. apply IH.
    replace (a + bsize b + fst (absorb l)) with (a + (bsize b + fst (absorb l))) by lia.
    exact H.
  - rewrite Z.add_0_r, E. tauto.
Qed.

Lemma block_at_split l : forall a c b,
  block_at a l c b ->
  exists l1 l2, l = l1 ++ b :: l2 /\ c = a + total l1.
Proof.
  induction l as [|b' l IH]; intros a c b H; simpl in H; [tauto|].
  destruct H as [[<- ->]|H].
  - exists [], l. simpl. split; [reflexivity|lia].
  - destruct (IH _ _ _ H) as (l1 & l2 & -> & ->).
    exists (b' :: l1), l2. simpl. split; [reflexivity|lia].
Qed.

Lemma block_at_app l1 : forall a b l2,
  block_at a (l1 ++ b :: l2) (a + total l1) b.
Proof.
  induction l1 as [|b' l1 IH]; intros a b l2; simpl.
  - left. split; [lia|reflexivity].
  - right. replace (a + (bsize b' + total l1)) with (a + bsize b' + total l1) by lia.
    apply IH.
Qed.

Lemma free_blocks_split l1 : forall a b l2,
  blocks_ok l1 ->
  free_blocks a (a + total l1) (l1 ++ b :: l2)
  = l1 ++ mkBlock (bsize b + fst (absorb l2)) true :: snd (absorb l2).
Proof.
  induction l1 as [|b' l1 IH]; intros a b l2 Hok; simpl.
  - rewrite Z.add_0_r, Z.eqb_refl. reflexivity.
  - destruct Hok as [[Hb _] Hl]. pose proof (total_nonneg l1 Hl).
    destruct (Z.eqb_spec a (a + (bsize b' + total l1))); [lia|].
    replace (a + (bsize b' + total l1)) with (a + bsize b' + total l1) by lia.
    now rewrite IH.
Qed.

Lemma coalesce_loop_spec l2 : forall m c s fuel e,
  load64 m c = s -> 24 <= s -> s mod 8 = 0 -> 0 < c ->
  chain m (c + s) l2 -> blocks_ok l2 ->
  c + s + total l2 = e -> e < W64 -> (length l2 < fuel)%nat ->
  exists m',
    coalesce_loop fuel m e c (c + s) = Some m' /\
    load64 m' c = s + fst (absorb l2) /\
    chain m' (c + s + fst (absorb l2)) (snd (absorb l2)) /\
    (forall x, ~ (c <= x < c + 8) -> ~ (c + 16 <= x < c + 24) -> m' x = m x).
Proof.
  induction l2 as [|b l2 IH]; intros m c s fuel e Hh Hs Hs8 Hc0 Hc Hok He HW Hf;
    (destruct fuel as [|fuel]; [simpl in Hf; lia|]).
  - simpl in He. cbn [coalesce_loop].
    assert (Hg : getsize m c = s).
    { apply (hdr_getsize m c (mkBlock s true)); simpl; try lia.
      - unfold hdr. simpl. lia.
      - now apply mod8_mod2. }
    rewrite Hg, wrap64_small by lia.
    destruct (Z.ltb_spec (c + s) e); [lia|]. simpl.
    exists m. simpl. rewrite !Z.add_0_r. auto.
  - simpl in He, Hc, Hok, Hf. destruct Hc as [Hhb Hc], Hok as [Hb Hl].
    pose proof (block_ok_even b Hb) as Heven. destruct Hb as [Hb24 Hb8].
    pose proof (total_nonneg l2 Hl) as Ht.
    cbn [coalesce_loop].
    assert (Hg : getsize m c = s).
    { apply (hdr_getsize m c (mkBlock s true)); simpl; try lia.
      - unfold hdr. simpl. lia.
      - now apply mod8_mod2. }
    rewrite Hg, (wrap64_small (c + s)) by lia.
    destruct (Z.ltb_spec (c + s) e); [|lia]. simpl.
    rewrite (hdr_isfree m (c + s) b Hhb Heven).
    rewrite (hdr_getsize m (c + s) b Hhb Heven) by lia.
    cbn [absorb]. destruct (bfree b) eqn:Efree.
    + rewrite placeheader_free, (wrap64_small (s + bsize b)) by lia.
      unfold setnextptr, HEADER_SIZE. rewrite (wrap64_small (c + 8 + 8)) by lia.
      set (m1 := store64 m c (s + bsize b)).
      set (m2 := store64 m1 (c + 8 + 8) (getnextptr m1 (c + s))).
      assert (Hm2 : forall x, ~ (c <= x < c + 8) -> ~ (c + 16 <= x < c + 24) ->
                              m2 x = m x).
      { intros x H1 H2. unfold m2, m1. rewrite !store64_out by lia. reflexivity. }
      assert (Hh2 : load64 m2 c = s + bsize b).
      { unfold m2. rewrite load64_store64_other by lia. unfold m1.
        rewrite load64_store64_same. apply wrap64_small. lia. }
      assert (Hg2 : getsize m2 c = s + bsize b).
      { apply (hdr_getsize m2 c (mkBlock (s + bsize b) true)); simpl; try lia.
        - unfold hdr. simpl. lia.
        - apply mod8_mod2. now apply add_mod8. }
      rewrite Hg2, (wrap64_small (c + (s + bsize b))) by lia.
      destruct (IH m2 c (s + bsize b) fuel e Hh2) as (m' & Hrun & Hh' & Hc' & Hfr);
        try lia.
      { now apply add_mod8. }
      { replace (c + (s + bsize b)) with (c + s + bsize b) by lia.
        apply (chain_ext m); auto. intros x Hx. apply Hm2; lia. }
      { exact Hl. }
      exists m'. split; [exact Hrun|]. simpl.
      split; [lia|]. split.
      * replace (c + s + (bsize b + fst (absorb l2)))
          with (c + (s + bsize b) + fst (absorb l2)) by lia. exact Hc'.
      * intros x H1 H2. rewrite Hfr by assumption. now apply Hm2.
    + exists m. simpl. rewrite !Z.add_0_r. repeat split; auto.
Qed.

Lemma myfree_spec st l fuel c b :
  heap_ok st l -> block_at (segment_start st) l c b ->
  (length l < fuel)%nat ->
  let l' := free_blocks (segment_start st) c l in
  exists st',
    myfree fuel st (c + 8) = Some st' /\
    heap_ok st' l' /\ list_ok st' l' /\
    segment_start st' = segment_start st /\
    segment_size st' = segment_size st /\
    nused st' = nused st /\
    (forall x, ~ in_free (segment_start st) l x -> ~ (c <= x < c + bsize b) ->
               mem st' x = mem st x).
Proof.
  intros Hok Hat Hf l'.
  pose proof (segment_end_ok st l Hok) as He.
  destruct Hok as (Hs & Hw & Hc & Ht & Hl).
  destruct (block_at_split _ _ _ _ Hat) as (l1 & l2 & El & Ec).
  rewrite El in Hc, Hl, Ht. apply chain_app in Hc. destruct Hc as [Hc1 Hc2].
  simpl in Hc2. destruct Hc2 as [Hh Hc2]. rewrite <- Ec in Hh, Hc2.
  apply blocks_ok_app in Hl. destruct Hl as [Hl1 Hl2]. simpl in Hl2.
  destruct Hl2 as [Hb Hl2]. pose proof (block_ok_even b Hb) as Heven.
  pose proof Hb as [Hb24 Hb8].
  rewrite total_app in Ht. simpl in Ht.
  pose proof (total_nonneg l1 Hl1) as Ht1. pose proof (total_nonneg l2 Hl2) as Ht2.
  assert (El' : l' = l1 ++ mkBlock (bsize b + fst (absorb l2)) true :: snd (absorb l2)).
  { unfold l'. rewrite El, Ec. now apply free_blocks_split. }
  pose proof (absorb_total l2) as Hat2. destruct (absorb_ok l2 Hl2) as (Hr1 & Hr2 & Hr3).
  unfold myfree, NULL, HEADER_SIZE.
  destruct (Z.eqb_spec (c + 8) 0); [lia|].
  replace (c + 8 - 8) with c by lia. rewrite (wrap64_small c) by lia.
  change (Z.land (load64 (mem st) c) (not64 1)) with (getsize (mem st) c).
  rewrite (hdr_getsize _ c b Hh Heven) by lia.
  set (m1 := store64 (mem st) c (bsize b)).
  assert (Hh1 : load64 m1 c = bsize b).
  { unfold m1. rewrite load64_store64_same. apply wrap64_small. lia. }
  assert (Hg1 : getsize m1 c = bsize b).
  { apply (hdr_getsize m1 c (mkBlock (bsize b) true)); simpl; try lia.
    unfold hdr. simpl. lia. }
  rewrite Hg1, (wrap64_small (c + bsize b)) by lia.
  destruct (coalesce_loop_spec l2 m1 c (bsize b) fuel (segment_end st) Hh1)
    as (m2 & Hrun & Hh2 & Hc2' & Hfr2); try lia; auto.
  { apply (chain_ext (mem st)); auto. intros x Hx. unfold m1. apply store64_out. lia. }
  { rewrite El, length_app in Hf. simpl in Hf. lia. }
  rewrite Hrun.
  assert (Hok2 : heap_ok (set_mem st m2) l').
  { rewrite El'. unfold heap_ok. simpl.
    split; [exact Hs|]. split; [exact Hw|]. split; [|split].
    - apply chain_app. split.
      + apply (chain_ext (mem st)); auto. intros x Hx.
        rewrite Hfr2 by lia. unfold m1. apply store64_out. lia.
      + rewrite <- Ec. simpl. split.
        * rewrite Hh2. unfold hdr. simpl. lia.
        * replace (c + (bsize b + fst (absorb l2)))
            with (c + bsize b + fst (absorb l2)) by lia. exact Hc2'.
    - rewrite total_app. simpl. lia.
    - apply blocks_ok_app. split; [exact Hl1|]. simpl. split; [|exact Hr1].
      split; simpl; [lia|now apply add_mod8]. }
  destruct (updatelinkedlist_spec (set_mem st m2) l' fuel Hok2)
    as (st3 & Hrun3 & Hok3 & Hlk3 & Es3 & Ez3 & Eu3 & Hfr3).
  { rewrite El', length_app. rewrite El, length_app in Hf. simpl in Hf |- *.
    pose proof (absorb_length l2). lia. }
  rewrite Hrun3. exists st3. split; [reflexivity|].
  simpl in Es3, Ez3, Eu3, Hfr3.
  split; [exact Hok3|]. split; [exact Hlk3|]. split; [exact Es3|].
  split; [exact Ez3|]. split; [exact Eu3|].
  intros x Hx Hxb. rewrite El in Hx.
  rewrite Hfr3.
  - rewrite Hfr2 by lia. unfold m1. apply store64_out. lia.
  - rewrite El'. intros Hin. apply in_links_app in Hin. destruct Hin as [Hin|Hin].
    + apply Hx. apply in_free_app. left. now apply in_links_in_free.
    + rewrite <- Ec in Hin. simpl in Hin. destruct Hin as [[_ Hin]|Hin]; [lia|].
      apply Hx. apply in_free_app. right. rewrite <- Ec. simpl. right.
      apply absorb_in_free. apply in_links_in_free; [exact Hr1|].
      replace (c + bsize b + fst (absorb l2))
        with (c + (bsize b + fst (absorb l2))) by lia. exact Hin.
Qed.

(** * Resize *)

Lemma wrap64_add_r x y : wrap64 (x + wrap64 y) = wrap64 (x + y).
Proof. unfold wrap64. apply Zplus_mod_idemp_r. Qed.

Lemma wrap64_sub_l x y : wrap64 (wrap64 x - y) = wrap64 (x - y).
Proof. unfold wrap64. apply Zminus_mod_idemp_l. Qed.

Lemma signed64_gt x k :
  - 2 ^ 63 < x < W64 -> 0 <= k -> signed64 (wrap64 x) > k -> k < x < 2 ^ 63.
Proof.
  intros Hx Hk H. unfold signed64, wrap64 in H. rewrite W64_val in *.
  change (2 ^ 63) with 9223372036854775808 in *.
  destruct (Z.ltb_spec (x mod 18446744073709551616) 9223372036854775808);
    Z.div_mod_to_equations; lia.
Qed.

Lemma myrealloc_inplace_spec st l1 b n l2 fuel new_size :
  let l := l1 ++ b :: n :: l2 in
  let c := segment_start st + total l1 in
  let needed := roundup new_size ALIGNMENT in
  let l' := l1 ++ mkBlock needed false
               :: mkBlock (bsize b + bsize n - needed) true :: l2 in
  heap_ok st l -> bfree n = true ->
  0 < new_size < 2 ^ 63 ->
  signed64 (wrap64 (bsize b + bsize n - new_size)) > 32 ->
  (length l < fuel)%nat ->
  exists st',
    myrealloc MAX_REQUEST_SIZE fuel st (c + 8) new_size = Some (c + 8, st') /\
    heap_ok st' l' /\ list_ok st' l' /\
    segment_start st' = segment_start st /\
    segment_size st' = segment_size st /\
    nused st' = nused st /\
    (forall x, ~ in_free (segment_start st) l x -> ~ (c <= x < c + 8) ->
               ~ (c + needed <= x < c + needed + 24) -> mem st' x = mem st x).
Proof.
  intros l c needed l' Hok Hfn Hns Hcond Hf.
  assert (Hreq : 0 < new_size <= W64 - 16) by (rewrite W64_val; lia).
  pose proof (roundup_props new_size Hreq) as (Hn24 & Hn8 & Hnreq & Hn15).
  fold needed in Hn24, Hn8, Hnreq, Hn15.
  pose proof (segment_end_ok st l Hok) as He.
  destruct Hok as (Hs & Hw & Hc & Ht & Hl).
  unfold l in Hc, Hl, Ht. apply chain_app in Hc. destruct Hc as [Hc1 Hc2].
  simpl in Hc2. destruct Hc2 as (Hh & Hhn & Hc2). fold c in Hh, Hhn, Hc2.
  apply blocks_ok_app in Hl. destruct Hl as [Hl1 Hl2]. simpl in Hl2.
  destruct Hl2 as (Hb & Hnb & Hl2).
  pose proof (block_ok_even b Hb) as Heven. pose proof Hb as [Hb24 Hb8].
  pose proof (block_ok_even n Hnb) as Hevenn. pose proof Hnb as [Hnb24 Hnb8].
  rewrite total_app in Ht. simpl in Ht.
  pose proof (total_nonneg l1 Hl1) as Ht1. pose proof (total_nonneg l2 Hl2) as Ht2.
  assert (HT : 32 < bsize b + bsize n - new_size < 2 ^ 63).
  { apply signed64_gt; [rewrite W64_val in *; lia|lia|exact Hcond]. }
  assert (Htail : 24 <= bsize b + bsize n - needed).
  { assert (E : (bsize b + bsize n - needed) mod 8 = 0)
      by (apply sub_mod8; [now apply add_mod8|exact Hn8]).
    destruct (Z.le_gt_cases new_size 16).
    - unfold needed in *. rewrite roundup_small in * by lia. lia.
    - specialize (Hn15 ltac:(lia)). clear - E HT Hn15.
      Z.div_mod_to_equations. lia. }
  unfold myrealloc, NULL, HEADER_SIZE.
  destruct (Z.eqb_spec new_size 0); [lia|]. simpl.
  destruct (Z.eqb_spec (c + 8) 0); [lia|].
  replace (c + 8 - 8) with c by lia. rewrite (wrap64_small c) by lia.
  rewrite (hdr_getsize _ c b Hh Heven) by lia.
  rewrite (wrap64_small (c + 8 + bsize b)) by lia.
  replace (c + 8 + bsize b - 8) with (c + bsize b) by lia.
  rewrite (wrap64_small (c + bsize b)) by lia.
  rewrite (hdr_isfree _ _ n Hhn Hevenn), Hfn.
  rewrite (hdr_getsize _ _ n Hhn Hevenn) by lia.
  destruct (Z.gtb_spec (signed64 (wrap64 (bsize b + bsize n - new_size))) 32);
    [|lia]. simpl.
  fold needed. unfold breakpoint.
  replace (if new_size =? 979 then st else st) with st
    by (destruct (new_size =? 979); reflexivity).
  rewrite (hdr_getsize _ _ n Hhn Hevenn) by lia.
  rewrite !wrap64_add_r.
  replace (c + bsize b + (needed - bsize b)) with (c + needed) by lia.
  replace (bsize n + (bsize b - needed)) with (bsize b + bsize n - needed) by lia.
  rewrite (wrap64_small (c + needed)) by lia.
  rewrite (wrap64_small (bsize b + bsize n - needed)) by lia.
  match goal with
  | |- context [if needed <? bsize b then ?X else ?X] =>
      replace (if needed <? bsize b then X else X) with X
        by (destruct (needed <? bsize b); reflexivity)
  end.
  rewrite placeheader_free, placeheader_used by (now apply mod8_mod2).
  set (m2 := store64 (store64 (mem st) (c + needed) (bsize b + bsize n - needed))
               c (needed + 1)).
  assert (Hm2 : forall x, ~ (c <= x < c + 8) -> ~ (c + needed <= x < c + needed + 8) ->
                          m2 x = mem st x).
  { intros x H1 H2. unfold m2. rewrite !store64_out by lia. reflexivity. }
  assert (Hok2 : heap_ok (set_mem st m2) l').
  { unfold heap_ok, l'. simpl.
    split; [exact Hs|]. split; [exact Hw|]. split; [|split].
    - apply chain_app. split.
      + apply (chain_ext (mem st)); auto. intros x Hx. apply Hm2; lia.
      + fold c. simpl. split; [|split].
        * unfold m2. rewrite load64_store64_same. unfold hdr. simpl.
          apply wrap64_small. lia.
        * unfold m2. rewrite load64_store64_other by lia.
          rewrite load64_store64_same. unfold hdr. simpl.
          rewrite wrap64_small by lia. lia.
        * replace (c + needed + (bsize b + bsize n - needed))
            with (c + bsize b + bsize n) by lia.
          apply (chain_ext (mem st)); auto. intros x Hx. apply Hm2; lia.
    - rewrite total_app. simpl. lia.
    - apply blocks_ok_app. split; [exact Hl1|]. simpl. unfold block_ok. simpl.
      repeat split; auto. apply sub_mod8; [now apply add_mod8|exact Hn8]. }
  destruct (updatelinkedlist_spec (set_mem st m2) l' fuel Hok2)
    as (st3 & Hrun3 & Hok3 & Hlk3 & Es3 & Ez3 & Eu3 & Hfr3).
  { unfold l', l in *. rewrite length_app in *. simpl in *. lia. }
  rewrite Hrun3. exists st3. split; [reflexivity|].
  simpl in Es3, Ez3, Eu3, Hfr3.
  split; [exact Hok3|]. split; [exact Hlk3|]. split; [exact Es3|].
  split; [exact Ez3|]. split; [exact Eu3|].
  intros x Hx Hx1 Hx2. unfold l in Hx.
  rewrite Hfr3; [apply Hm2; lia|].
  unfold l'. intros Hin. apply in_links_app in Hin. destruct Hin as [Hin|Hin].
  - apply Hx. apply in_free_app. left. now apply in_links_in_free.
  - fold c in Hin. simpl in Hin. destruct Hin as [[Hin _]|[[_ Hin]|Hin]];
      [discriminate|lia|].
    apply Hx. apply in_free_app. right. fold c. simpl. right. right.
    replace (c + needed + (bsize b + bsize n - needed))
      with (c + bsize b + bsize n) in Hin by lia.
    now apply in_links_in_free.
Qed.

(** ** Blocks by address *)

Lemma chain_block_at m l : forall a c b,
  chain m a l -> block_at a l c b -> load64 m c = hdr b.
Proof.
  induction l as [|b' l IH]; intros a c b Hc H; simpl in *; [tauto|].
  destruct Hc as [Hh Hc]. destruct H as [[<- <-]|H]; [exact Hh|eauto].
Qed.

Lemma block_at_range l : forall a c b,
  blocks_ok l -> block_at a l c b ->
  a <= c /\ c + bsize b <= a + total l /\ block_ok b.
Proof.
  induction l as [|b' l IH]; intros a c b Hok H; simpl in *; [tauto|].
  destruct Hok as [Hb Hl]. pose proof (total_nonneg l Hl). pose proof Hb as [Hb24 _].
  destruct H as [[<- <-]|H]; [split; [lia|split; [lia|exact Hb]]|].
  destruct (IH _ _ _ Hl H) as (H1 & H2 & H3).
  split; [lia|split; [lia|exact H3]].
Qed.

Lemma block_at_apart l : forall a c1 b1 c2 b2,
  blocks_ok l -> block_at a l c1 b1 -> block_at a l c2 b2 ->
  (c1 = c2 /\ b1 = b2) \/ c1 + bsize b1 <= c2 \/ c2 + bsize b2 <= c1.
Proof.
  induction l as [|b' l IH]; intros a c1 b1 c2 b2 Hok H1 H2; simpl in *; [tauto|].
  destruct Hok as [Hb Hl].
  destruct H1 as [[<- <-]|H1], H2 as [[<- <-]|H2].
  - left. auto.
  - apply block_at_range in H2; auto. right. left. lia.
  - apply block_at_range in H1; auto. right. right. lia.
  - eauto.
Qed.

Lemma used_not_in_free l : forall a c b x,
  blocks_ok l -> block_at a l c b -> bfree b = false ->
  c <= x < c + bsize b -> ~ in_free a l x.
Proof.
  induction l as [|b' l IH]; intros a c b x Hok H Hu Hx; simpl in *; [tauto|].
  destruct Hok as [Hb Hl]. pose proof Hb as [Hb24 _].
  destruct H as [[<- <-]|H].
  - intros [[Hf _]|Hin]; [congruence|].
    apply in_free_range in Hin; auto. lia.
  - intros [[_ Hr]|Hin].
    + apply block_at_range in H; auto. lia.
    + exact (IH _ _ _ _ Hl H Hu Hx Hin).
Qed.

Lemma block_at_app_r l1 : forall a l2 c b,
  block_at (a + total l1) l2 c b -> block_at a (l1 ++ l2) c b.
Proof.
  induction l1 as [|b' l1 IH]; intros a l2 c b H; simpl in *.
  - now rewrite Z.add_0_r in H.
  - right. apply IH.
    now replace (a + bsize b' + total l1) with (a + (bsize b' + total l1)) by lia.
Qed.

Lemma block_at_alloc needed l : forall a c b,
  block_at a l c b -> bfree b = false ->
  block_at a (alloc_blocks needed l) c b.
Proof.
  induction l as [|b' l IH]; intros a c b H Hu; simpl in *; [tauto|].
  destruct (bfree b' && (needed <=? bsize b')) eqn:E.
  - apply andb_true_iff in E. destruct E as [Ef _].
    destruct H as [[_ <-]|H]; [congruence|].
    apply block_at_app_r. now rewrite total_take.
  - simpl. destruct H as [H|H]; [now left|right; auto].
Qed.

Lemma block_at_fit needed l : forall a,
  blocks_ok l -> 0 < a -> fit_addr needed a l <> 0 ->
  exists bw,
    block_at a l (fit_addr needed a l) bw /\ bfree bw = true /\
    block_at a (alloc_blocks needed l) (fit_addr needed a l)
      (mkBlock (alloc_taken needed l) false) /\
    needed <= alloc_taken needed l.
Proof.
  induction l as [|b l IH]; intros a Hok Ha Hfit; simpl in *; [congruence|].
  destruct Hok as [[Hb24 Hb8] Hl].
  destruct (bfree b && (needed <=? bsize b)) eqn:E.
  - apply andb_true_iff in E. destruct E as [Ef En]. apply Z.leb_le in En.
    exists b. split; [now left|]. split; [exact Ef|].
    unfold take. destruct (Z.geb_spec (bsize b - needed) 40); simpl;
      (split; [left; split; reflexivity|lia]).
  - destruct (IH (a + bsize b) Hl ltac:(lia) Hfit) as (bw & H1 & H2 & H3 & H4).
    exists bw. simpl. auto.
Qed.

Lemma block_at_freed l : forall a c b,
  blocks_ok l -> block_at a l c b ->
  exists s, block_at a (free_blocks a c l) c (mkBlock s true).
Proof.
  intros a c b Hok H. destruct (block_at_split _ _ _ _ H) as (l1 & l2 & -> & ->).
  apply blocks_ok_app in Hok. destruct Hok as [Hl1 _].
  rewrite free_blocks_split by exact Hl1.
  eexists. apply block_at_app.
Qed.

Lemma myrealloc_fallback_spec st l fuel c b new_size :
  heap_ok st l -> list_ok st l ->
  block_at (segment_start st) l c b -> bfree b = false ->
  0 < new_size < 2 ^ 63 ->
  isfree (mem st) (c + bsize b)
  && (signed64 (wrap64 (bsize b + getsize (mem st) (c + bsize b) - new_size))
      >? 32) = false ->
  let needed := roundup new_size ALIGNMENT in
  let f := fit_addr needed (segment_start st) l in
  wrap64 (needed + nused st) <= segment_size st ->
  needed <= MAX_REQUEST_SIZE -> f <> 0 ->
  (length l + 1 < fuel)%nat ->
  let lf := free_blocks (segment_start st) c (alloc_blocks needed l) in
  exists st',
    myrealloc MAX_REQUEST_SIZE fuel st (c + 8) new_size = Some (f + 8, st') /\
    heap_ok st' lf /\ list_ok st' lf /\
    segment_start st' = segment_start st /\
    segment_size st' = segment_size st /\
    nused st' = wrap64 (nused st + alloc_taken needed l) /\
    f <> c /\
    (forall i, 0 <= i < Z.min (bsize b - 8) new_size ->
               mem st' (f + 8 + i) = mem st (c + 8 + i)) /\
    isfree (mem st') c = true.
Proof.
  intros Hok Hlk Hat Hu Hns Hcond needed f Hnu Hmax Hf0 Hfuel lf.
  assert (Hreq : 0 < new_size <= W64 - 16) by (rewrite W64_val; lia).
  pose proof (roundup_props new_size Hreq) as (Hn24 & Hn8 & Hnreq & Hn15).
  fold needed in Hn24, Hn8, Hnreq, Hn15.
  assert (Hhf : has_free l = true).
  { destruct (has_free l) eqn:E; [reflexivity|]. exfalso. apply Hf0.
    now apply fit_addr_none. }
  pose proof (mymalloc_spec st l fuel new_size Hok (or_introl Hlk) Hhf Hreq Hfuel)
    as Hm. cbv zeta in Hm. fold needed in Hm. fold f in Hm.
  destruct (Z.gtb_spec (wrap64 (needed + nused st)) (segment_size st)); [lia|].
  destruct (Z.gtb_spec needed MAX_REQUEST_SIZE); [lia|].
  destruct (Z.eqb_spec f 0); [lia|]. simpl in Hm.
  destruct Hm as (st1 & Hrun1 & Hok1 & Hlk1 & Es1 & Ez1 & Eu1 & Hfr1).
  pose proof Hok as (Hs & Hw & Hc & Ht & Hl).
  destruct (block_at_range _ _ _ _ Hl Hat) as (Hc1 & Hc2 & Hb).
  pose proof (block_ok_even b Hb) as Heven. pose proof Hb as [Hb24 Hb8].
  pose proof (chain_block_at _ _ _ _ _ Hc Hat) as Hh.
  destruct (block_at_fit needed l (segment_start st) Hl Hs Hf0)
    as (bw & Hatw & Hfw & Hatn & Htk).
  fold f in Hatw, Hatn.
  set (la := alloc_blocks needed l) in *.
  set (tk := alloc_taken needed l) in *.
  pose proof Hok1 as (Hs1 & Hw1 & Hch1 & Ht1 & Hl1). rewrite Es1 in *.
  assert (Hatb : block_at (segment_start st) la c b) by (now apply block_at_alloc).
  assert (Hfc : f <> c).
  { intros ->. destruct (block_at_apart _ _ _ _ _ _ Hl Hat Hatw) as [[_ E]|E].
    - congruence.
    - destruct (block_at_range _ _ _ _ Hl Hatw) as (_ & _ & [Hw24 _]). lia. }
  destruct (block_at_range _ _ _ _ Hl1 Hatn) as (Hf1 & Hf2 & _). simpl in Hf2.
  destruct (block_at_apart _ _ _ _ _ _ Hl1 Hatb Hatn) as [[E _]|Hap]; [congruence|].
  simpl in Hap.
  (* the code *)
  unfold myrealloc, NULL, HEADER_SIZE.
  destruct (Z.eqb_spec new_size 0); [lia|]. simpl.
  destruct (Z.eqb_spec (c + 8) 0); [lia|].
  replace (c + 8 - 8) with c by lia. rewrite (wrap64_small c) by lia.
  rewrite (hdr_getsize _ c b Hh Heven) by lia.
  rewrite wrap64_sub_l.
  replace (c + 8 + bsize b - 8) with (c + bsize b) by lia.
  rewrite (wrap64_small (c + bsize b)) by lia.
  rewrite Hcond. fold needed. rewrite Hrun1.
  set (cnt := if bsize b >? new_size then new_size else bsize b).
  set (m2 := if bsize b >? new_size then _ else _).
  assert (Em2 : m2 = memmove (mem st1) (f + 8) (c + 8) cnt).
  { unfold m2, cnt. destruct (bsize b >? new_size); reflexivity. }
  assert (Hn : Z.min (bsize b - 8) new_size <= cnt <= new_size).
  { unfold cnt. destruct (Z.gtb_spec (bsize b) new_size); lia. }
  assert (Hm2 : forall x, ~ (f + 8 <= x < f + tk) -> m2 x = mem st1 x).
  { intros x Hx. rewrite Em2. unfold memmove.
    destruct (Z.leb_spec (f + 8) x), (Z.ltb_spec x (f + 8 + cnt)); simpl;
      try reflexivity. lia. }
  assert (Hch2 : chain m2 (segment_start st) la).
  { destruct (block_at_split _ _ _ _ Hatn) as (k1 & k2 & Ek & Efk).
    pose proof Hch1 as Hch. pose proof Hl1 as Hlk'.
    rewrite Ek in Hch, Hlk' |- *. apply chain_app in Hch.
    destruct Hch as [Hk1 Hk2]. simpl in Hk2. destruct Hk2 as [Hkh Hk2].
    apply blocks_ok_app in Hlk'. destruct Hlk' as [Hlk1' Hlk2]. simpl in Hlk2.
    destruct Hlk2 as [_ Hlk2]. rewrite <- Efk in Hkh, Hk2.
    pose proof (total_nonneg _ Hlk1'). pose proof (total_nonneg _ Hlk2).
    apply chain_app. split; [|simpl; split].
    - apply (chain_ext (mem st1)); auto. intros x Hx. apply Hm2. lia.
    - rewrite <- Efk, <- Hkh. apply load64_ext. intros x Hx. apply Hm2. lia.
    - rewrite <- Efk. apply (chain_ext (mem st1)); auto. intros x Hx. apply Hm2. lia. }
  assert (Hok2 : heap_ok (set_mem st1 m2) la).
  { unfold heap_ok. simpl. rewrite Es1.
    split; [exact Hs|]. split; [exact Hw1|]. split; [exact Hch2|].
    split; [exact Ht1|exact Hl1]. }
  assert (Hatb2 : block_at (segment_start (set_mem st1 m2)) la c b)
    by (simpl; now rewrite Es1).
  destruct (myfree_spec (set_mem st1 m2) la fuel c b Hok2 Hatb2)
    as (st3 & Hrun3 & Hok3 & Hlk3 & Es3 & Ez3 & Eu3 & Hfr3).
  { pose proof Hok1 as (_ & _ & _ & _ & Hl1').
    assert (length la <= length l + 1)%nat; [|lia].
    destruct (fit_addr_split needed l (segment_start st) Hl Hs Hf0)
      as (l1 & b1 & l2 & El & _ & _ & _ & _ & Eal & _).
    unfold la. rewrite Eal, El, !length_app. pose proof (length_take needed b1).
    simpl. lia. }
  rewrite Hrun3. exists st3. split; [reflexivity|].
  change (segment_start (set_mem st1 m2)) with (segment_start st1) in *.
  simpl in Es3, Ez3, Eu3, Hfr3. rewrite Es1 in *.
  split; [exact Hok3|]. split; [exact Hlk3|]. split; [congruence|].
  split; [congruence|]. split; [congruence|]. split; [exact Hfc|]. split.
  - intros i Hi.
    rewrite Hfr3.
    + rewrite Em2. unfold memmove.
      destruct (Z.leb_spec (f + 8) (f + 8 + i)), (Z.ltb_spec (f + 8 + i) (f + 8 + cnt));
        simpl; try lia.
      replace (c + 8 + (f + 8 + i - (f + 8))) with (c + 8 + i) by lia.
      apply Hfr1. apply (used_not_in_free l _ c b); auto. lia.
    + apply (used_not_in_free la _ f (mkBlock tk false)); auto. simpl. lia.
    + lia.
  - destruct (block_at_freed la (segment_start st) c b Hl1 Hatb) as (s & Hs3).
    fold lf in Hs3. destruct Hok3 as (_ & _ & Hch3 & _ & Hl3).
    rewrite Es3 in Hch3.
    pose proof (chain_block_at _ _ _ _ _ Hch3 Hs3) as Hh3.
    destruct (block_at_range _ _ _ _ Hl3 Hs3) as (_ & _ & Hbs).
    rewrite (hdr_isfree _ _ _ Hh3 (block_ok_even _ Hbs)). reflexivity.
Qed.

(** * The claims about allocation *)

Lemma fit_addr_at needed l1 : forall a b l2,
  bfree b = true -> needed <= bsize b ->
  (forall b', In b' l1 -> bfree b' = true -> bsize b' < needed) ->
  fit_addr needed a (l1 ++ b :: l2) = a + total l1 /\
  alloc_blocks needed (l1 ++ b :: l2) = l1 ++ take needed b ++ l2 /\
  alloc_taken needed (l1 ++ b :: l2)
  = (if bsize b - needed >=? 40 then needed else bsize b).
Proof.
  induction l1 as [|b1 l1 IH]; intros a b l2 Hf Hn Hall; simpl.
  - rewrite Hf. destruct (Z.leb_spec needed (bsize b)); [|lia]. simpl.
    repeat split. lia.
  - assert (E : bfree b1 && (needed <=? bsize b1) = false).
    { destruct (bfree b1) eqn:E1; [|reflexivity]. simpl.
      apply Z.leb_gt. apply Hall; [now left|exact E1]. }
    rewrite E.
    destruct (IH (a + bsize b1) b l2 Hf Hn) as (H1 & H2 & H3).
    { intros b' Hin. apply Hall. now right. }
    rewrite H1, H2, H3. repeat split. lia.
Qed.

Lemma has_free_app l1 b l2 : bfree b = true -> has_free (l1 ++ b :: l2) = true.
Proof.
  intros Hf. induction l1 as [|b1 l1 IH]; simpl.
  - now rewrite Hf.
  - rewrite IH. apply orb_true_r.
Qed.

(** C2 (amended): for a request of 1 to 2^64 - 16 bytes, the sizes that
    [roundup] does not wrap, on a well-formed heap: when [mymalloc] has
    found its block [b] (the first free block of at least [needed] bytes),
    it splits it exactly when the remainder [bsize b - needed] is at least
    40 bytes: the front [needed] bytes get an in-use header, a free header
    for the remainder is placed at [block + needed], and [nused] grows by
    [needed].  With a remainder below 40 bytes (so also for 24 and 32, which
    would hold a header and two link words) the whole block becomes in-use,
    unsplit, and [nused] grows by its full size. *)
Theorem mymalloc_splits_at_40 st l1 b l2 fuel req :
  let l := l1 ++ b :: l2 in
  let needed := roundup req ALIGNMENT in
  let c := segment_start st + total l1 in
  heap_ok st l -> list_ok st l \/ fresh st l ->
  0 < req <= W64 - 16 ->
  wrap64 (needed + nused st) <= segment_size st ->
  needed <= MAX_REQUEST_SIZE ->
  bfree b = true -> needed <= bsize b ->
  (forall b', In b' l1 -> bfree b' = true -> bsize b' < needed) ->
  (length l + 1 < fuel)%nat ->
  exists st',
    mymalloc MAX_REQUEST_SIZE fuel st req = Some (c + HEADER_SIZE, st') /\
    (40 <= bsize b - needed ->
     heap_ok st'
       (l1 ++ mkBlock needed false :: mkBlock (bsize b - needed) true :: l2) /\
     load64 (mem st') c = needed + 1 /\
     load64 (mem st') (c + needed) = bsize b - needed /\
     nused st' = wrap64 (nused st + needed)) /\
    (bsize b - needed < 40 ->
     heap_ok st' (l1 ++ mkBlock (bsize b) false :: l2) /\
     load64 (mem st') c = bsize b + 1 /\
     nused st' = wrap64 (nused st + bsize b)).
Proof.
  intros l needed c Hok Hlk Hreq' Hnu Hmax Hf Hn Hall Hfuel.
  destruct (fit_addr_at needed l1 (segment_start st) b l2 Hf Hn Hall)
    as (Efit & Eal & Etk). fold l c in Efit, Eal, Etk.
  pose proof (mymalloc_spec st l fuel req Hok Hlk (has_free_app l1 b l2 Hf)
                Hreq' Hfuel) as Hm.
  cbv zeta in Hm. fold needed in Hm. rewrite Efit in Hm.
  destruct Hok as (Hs & _ & _ & _ & Hl).
  unfold l in Hl. apply blocks_ok_app in Hl. destruct Hl as [Hl1 _].
  pose proof (total_nonneg l1 Hl1).
  destruct (Z.gtb_spec (wrap64 (needed + nused st)) (segment_size st)); [lia|].
  destruct (Z.gtb_spec needed MAX_REQUEST_SIZE); [lia|].
  destruct (Z.eqb_spec c 0); [unfold c in *; lia|]. simpl in Hm.
  destruct Hm as (st' & Hrun & Hok' & _ & Es' & _ & Eu' & _).
  exists st'. split; [exact Hrun|].
  rewrite Eal in Hok'. rewrite Etk in Eu'. unfold take in Hok'.
  pose proof Hok' as (_ & _ & Hc' & _ & _). rewrite Es' in Hc'.
  destruct (Z.geb_spec (bsize b - needed) 40).
  - split; [|lia]. intros _. apply chain_app in Hc'. fold c in Hc'.
    simpl in Hc'. destruct Hc' as (_ & Hh1 & Hh2 & _).
    unfold hdr in Hh1, Hh2. simpl in Hh1, Hh2.
    split; [exact Hok'|]. split; [lia|]. split; [lia|exact Eu'].
  - split; [lia|]. intros _. apply chain_app in Hc'. fold c in Hc'.
    simpl in Hc'. destruct Hc' as (_ & Hh1 & _).
    unfold hdr in Hh1. simpl in Hh1.
    split; [exact Hok'|]. split; [lia|exact Eu'].
Qed.

(** A failed allocation changes nothing: a NULL result comes with the state
    the call was given. *)
Lemma mymalloc_failure_is_atomic st l fuel req st' :
  heap_ok st l -> list_ok st l \/ fresh st l -> has_free l = true ->
  0 <= req < 2 ^ 63 -> (length l + 1 < fuel)%nat ->
  mymalloc MAX_REQUEST_SIZE fuel st req = Some (NULL, st') -> st' = st.
Proof.
  intros Hok Hlk Hhf Hreq Hfuel Hrun.
  destruct (Z.eq_dec req 0) as [->|Hr0].
  { unfold mymalloc in Hrun. simpl in Hrun. now injection Hrun. }
  assert (Hreq' : 0 < req <= W64 - 16) by (rewrite W64_val; lia).
  pose proof (mymalloc_spec st l fuel req Hok Hlk Hhf Hreq' Hfuel) as Hm.
  cbv zeta in Hm.
  destruct ((wrap64 (roundup req ALIGNMENT + nused st) >? segment_size st)
            || (roundup req ALIGNMENT >? MAX_REQUEST_SIZE)
            || (fit_addr (roundup req ALIGNMENT) (segment_start st) l =? 0))
    eqn:E.
  - rewrite Hm in Hrun. now injection Hrun.
  - destruct Hm as (st2 & Hrun2 & _). rewrite Hrun2 in Hrun.
    injection Hrun as Hp _. exfalso.
    apply orb_false_iff in E. destruct E as [_ E]. apply Z.eqb_neq in E.
    destruct Hok as (Hs & _ & _ & _ & Hl).
    destruct (fit_addr_split _ l (segment_start st) Hl Hs E)
      as (l1 & b & l2 & El & Ea & _).
    rewrite El in Hl. apply blocks_ok_app in Hl. destruct Hl as [Hl1 _].
    pose proof (total_nonneg l1 Hl1). unfold NULL in Hp. lia.
Qed.

Lemma fit_addr_found needed l : forall a b,
  blocks_ok l -> 0 < a -> In b l -> bfree b = true -> needed <= bsize b ->
  fit_addr needed a l <> 0.
Proof.
  induction l as [|b' l IH]; intros a b Hok Ha Hin Hf Hn; simpl in *; [tauto|].
  destruct Hok as [[Hb24 _] Hl].
  destruct (bfree b' && (needed <=? bsize b')) eqn:E; [lia|].
  destruct Hin as [->|Hin].
  - rewrite Hf in E. simpl in E. apply Z.leb_gt in E. lia.
  - apply (IH (a + bsize b') b); auto. lia.
Qed.


(** * The claims about release *)

Lemma absorb_run run : forall rest,
  all_free run -> head_used rest -> absorb (run ++ rest) = (total run, rest).
Proof.
  unfold all_free. induction run as [|r run IH]; intros rest Hrun Hrest; simpl in *.
  - destruct rest as [|r rest]; [reflexivity|]. simpl in Hrest |- *.
    now rewrite Hrest.
  - apply andb_true_iff in Hrun. destruct Hrun as [Hr Hrun]. rewrite Hr.
    rewrite (IH rest Hrun Hrest). reflexivity.
Qed.

Lemma myfree_merges_run st l1 b run rest fuel :
  let l := l1 ++ b :: run ++ rest in
  let l' := l1 ++ mkBlock (bsize b + total run) true :: rest in
  heap_ok st l -> all_free run -> head_used rest ->
  (length l < fuel)%nat ->
  exists st',
    myfree fuel st (segment_start st + total l1 + 8) = Some st' /\
    heap_ok st' l' /\ list_ok st' l' /\
    segment_start st' = segment_start st /\
    segment_size st' = segment_size st /\
    nused st' = nused st.
Proof.
  intros l l' Hok Hrun Hrest Hfuel.
  destruct (myfree_spec st l fuel (segment_start st + total l1) b Hok
              (block_at_app l1 _ b (run ++ rest)) Hfuel)
    as (st' & Hgo & Hok' & Hlk' & Es & Ez & Eu & _).
  destruct Hok as (_ & _ & _ & _ & Hl). unfold l in Hl.
  apply blocks_ok_app in Hl. destruct Hl as [Hl1 _].
  unfold l in Hok', Hlk'.
  rewrite free_blocks_split, absorb_run in Hok', Hlk' by assumption.
  simpl in Hok', Hlk'.
  exists st'. split; [exact Hgo|]. split; [exact Hok'|]. split; [exact Hlk'|].
  auto.
Qed.

(** C4 (amended): release of an in-use block marks it free and merges it
    with the maximal run of free blocks right behind it: one free block of
    the summed size takes their place and the blocks before it (a free
    left neighbour included) stay as they are.  For three adjacent in-use
    blocks A, B, C: releasing C and then B leaves one
    free block over B and C (and the free run behind C); releasing B and
    then C leaves B free at its own size and, next to it, a second free
    block starting at C. *)
Theorem myfree_coalesces_right_only :
  (forall st l1 b run rest fuel,
     heap_ok st (l1 ++ b :: run ++ rest) -> bfree b = false ->
     all_free run -> head_used rest ->
     (length (l1 ++ b :: run ++ rest) < fuel)%nat ->
     exists st',
       myfree fuel st (segment_start st + total l1 + HEADER_SIZE) = Some st' /\
       heap_ok st' (l1 ++ mkBlock (bsize b + total run) true :: rest) /\
       list_ok st' (l1 ++ mkBlock (bsize b + total run) true :: rest)) /\
  (forall st l0 A B C run rest fuel,
     let pB := segment_start st + total l0 + bsize A + HEADER_SIZE in
     let pC := pB + bsize B in
     heap_ok st (l0 ++ A :: B :: C :: run ++ rest) ->
     bfree A = false -> bfree B = false -> bfree C = false ->
     all_free run -> head_used rest ->
     (length (l0 ++ A :: B :: C :: run ++ rest) < fuel)%nat ->
     (exists st1 st2,
        myfree fuel st pC = Some st1 /\
        myfree fuel st1 pB = Some st2 /\
        heap_ok st2
          (l0 ++ A :: mkBlock (bsize B + (bsize C + total run)) true :: rest)) /\
     (exists st1 st2,
        myfree fuel st pB = Some st1 /\
        myfree fuel st1 pC = Some st2 /\
        heap_ok st2
          (l0 ++ A :: mkBlock (bsize B) true
              :: mkBlock (bsize C + total run) true :: rest))).
Proof.
  split.
  - intros st l1 b run rest fuel Hok _ Hrun Hrest Hfuel.
    destruct (myfree_merges_run st l1 b run rest fuel Hok Hrun Hrest Hfuel)
      as (st' & H1 & H2 & H3 & _).
    exists st'. unfold HEADER_SIZE. auto.
  - intros st l0 A B C run rest fuel pB pC Hok HA HB HC Hrun Hrest Hfuel.
    unfold pC, pB, HEADER_SIZE. rewrite length_app in Hfuel. simpl in Hfuel.
    rewrite length_app in Hfuel.
    split.
    + (* C first, then B *)
      assert (Hok0 : heap_ok st ((l0 ++ [A; B]) ++ C :: run ++ rest))
        by (now rewrite <- app_assoc).
      destruct (myfree_merges_run st (l0 ++ [A; B]) C run rest fuel Hok0 Hrun Hrest)
        as (st1 & H1 & Hok1 & _ & Es1 & _).
      { rewrite <- app_assoc, !length_app. simpl. rewrite ?length_app. lia. }
      rewrite <- app_assoc in Hok1. simpl in Hok1.
      assert (Hok1' : heap_ok st1 ((l0 ++ [A]) ++ B
                        :: [mkBlock (bsize C + total run) true] ++ rest))
        by (now rewrite <- app_assoc).
      destruct (myfree_merges_run st1 (l0 ++ [A]) B
                  [mkBlock (bsize C + total run) true] rest fuel Hok1'
                  eq_refl Hrest)
        as (st2 & H2 & Hok2 & _).
      { rewrite <- app_assoc, !length_app. simpl. rewrite ?length_app. lia. }
      rewrite <- app_assoc in Hok2. simpl in Hok2. rewrite Z.add_0_r in Hok2.
      exists st1, st2. split; [|split; [|exact Hok2]].
      * rewrite <- H1. f_equal. rewrite total_app. simpl. lia.
      * rewrite <- H2, Es1. f_equal. rewrite total_app. simpl. lia.
    + (* B first, then C *)
      assert (Hok0 : heap_ok st ((l0 ++ [A]) ++ B :: [] ++ C :: run ++ rest))
        by (now rewrite <- app_assoc).
      destruct (myfree_merges_run st (l0 ++ [A]) B [] (C :: run ++ rest) fuel
                  Hok0 eq_refl HC)
        as (st1 & H1 & Hok1 & _ & Es1 & _).
      { rewrite <- app_assoc, !length_app. simpl. rewrite ?length_app. lia. }
      rewrite <- app_assoc in Hok1. simpl in Hok1. rewrite Z.add_0_r in Hok1.
      assert (Hok1' : heap_ok st1 ((l0 ++ [A; mkBlock (bsize B) true]) ++ C
                        :: run ++ rest))
        by (now rewrite <- app_assoc).
      destruct (myfree_merges_run st1 (l0 ++ [A; mkBlock (bsize B) true]) C
                  run rest fuel Hok1' Hrun Hrest)
        as (st2 & H2 & Hok2 & _).
      { rewrite <- app_assoc, !length_app. simpl. rewrite ?length_app. lia. }
      rewrite <- app_assoc in Hok2. simpl in Hok2.
      exists st1, st2. split; [|split; [|exact Hok2]].
      * rewrite <- H1. f_equal. rewrite total_app. simpl. lia.
      * rewrite <- H2, Es1. f_equal. rewrite total_app. simpl. lia.
Qed.

(** * The claims about resize *)

(** C5 (amended): the test of [myrealloc] for growing in place is on the
    requested size, not on [needed]: when the right neighbour [n] of the
    block [b] is free and [bsize b + bsize n - new_size], read as a signed
    value, exceeds 32, the call returns the pointer it was given; the
    combined region is re-headered as [needed] bytes in use followed by a
    free block of the [bsize b + bsize n - needed] bytes left over (at least
    24), the free list is rebuilt, and no payload byte that stays inside
    the block is written.  (Requested sizes from 1 and below 2^63.) *)
Theorem myrealloc_grows_in_place st l1 b n l2 fuel new_size :
  let l := l1 ++ b :: n :: l2 in
  let c := segment_start st + total l1 in
  let needed := roundup new_size ALIGNMENT in
  let l' := l1 ++ mkBlock needed false
               :: mkBlock (bsize b + bsize n - needed) true :: l2 in
  heap_ok st l -> bfree b = false -> bfree n = true ->
  0 < new_size < 2 ^ 63 ->
  signed64 (wrap64 (bsize b + bsize n - new_size)) > 32 ->
  (length l < fuel)%nat ->
  exists st',
    myrealloc MAX_REQUEST_SIZE fuel st (c + HEADER_SIZE) new_size
    = Some (c + HEADER_SIZE, st') /\
    heap_ok st' l' /\ list_ok st' l' /\
    24 <= bsize b + bsize n - needed /\
    (forall x, c + HEADER_SIZE <= x < c + Z.min (bsize b) needed ->
               mem st' x = mem st x).
Proof.
  intros l c needed l' Hok Hub Hfn Hns Hcond Hfuel.
  destruct (myrealloc_inplace_spec st l1 b n l2 fuel new_size Hok Hfn Hns Hcond
              Hfuel) as (st' & Hrun & Hok' & Hlk' & _ & _ & _ & Hfr).
  fold l c needed l' in Hrun, Hok', Hlk', Hfr.
  exists st'. unfold HEADER_SIZE.
  split; [exact Hrun|]. split; [exact Hok'|]. split; [exact Hlk'|].
  destruct Hok as (_ & _ & _ & _ & Hl).
  split.
  - destruct Hok' as (_ & _ & _ & _ & Hl'). unfold l' in Hl'.
    apply blocks_ok_app in Hl'. simpl in Hl'.
    destruct Hl' as (_ & _ & [H24 _] & _). exact H24.
  - intros x Hx. apply Hfr; try lia.
    apply (used_not_in_free l _ c b); auto; [apply block_at_app|lia].
Qed.

Lemma block_at_absorb l : forall a c b,
  block_at a l c b -> bfree b = false ->
  block_at (a + fst (absorb l)) (snd (absorb l)) c b.
Proof.
  induction l as [|b' l IH]; intros a c b H Hu; simpl in *; [tauto|].
  destruct (bfree b') eqn:E; simpl.
  - destruct H as [[_ <-]|H]; [congruence|].
    replace (a + (bsize b' + fst (absorb l))) with (a + bsize b' + fst (absorb l))
      by lia.
    now apply IH.
  - rewrite Z.add_0_r. exact H.
Qed.

Lemma block_at_free_other l : forall a c c' b',
  blocks_ok l -> block_at a l c' b' -> bfree b' = false -> c' <> c ->
  block_at a (free_blocks a c l) c' b'.
Proof.
  induction l as [|b l IH]; intros a c c' b' Hok H Hu Hne; simpl in *; [tauto|].
  destruct Hok as [Hb Hl].
  destruct (Z.eqb_spec a c) as [->|Hac].
  - destruct H as [[E _]|H]; [congruence|]. simpl. right.
    replace (c + (bsize b + fst (absorb l))) with (c + bsize b + fst (absorb l))
      by lia.
    now apply block_at_absorb.
  - simpl. destruct H as [H|H]; [now left|right; auto].
Qed.


(** * The free list after every call *)

Lemma serve_malloc_ok st l fuel n :
  heap_ok st l -> list_ok st l \/ fresh st l -> may_malloc l n ->
  (length l + 1 < fuel)%nat ->
  exists p st' l',
    mymalloc MAX_REQUEST_SIZE fuel st n = Some (p, st') /\
    heap_ok st' l' /\ (list_ok st' l' \/ (st' = st /\ l' = l)).
Proof.
  intros Hok Hlk [->|[Hn Hhf]] Hfuel.
  { exists NULL, st, l. split; [reflexivity|]. auto. }
  assert (Hreq : 0 < n <= W64 - 16) by (rewrite W64_val; lia).
  pose proof (mymalloc_spec st l fuel n Hok Hlk Hhf Hreq Hfuel) as Hm.
  cbv zeta in Hm.
  destruct ((wrap64 (roundup n ALIGNMENT + nused st) >? segment_size st)
            || (roundup n ALIGNMENT >? MAX_REQUEST_SIZE)
            || (fit_addr (roundup n ALIGNMENT) (segment_start st) l =? 0)).
  - exists NULL, st, l. auto.
  - destruct Hm as (st' & Hrun & Hok' & Hlk' & _).
    exists (fit_addr (roundup n ALIGNMENT) (segment_start st) l + 8), st',
      (alloc_blocks (roundup n ALIGNMENT) l).
    split; [exact Hrun|]. split; [exact Hok'|]. left. exact Hlk'.
Qed.

Lemma serve_free_ok st l fuel p :
  heap_ok st l -> may_free st l p -> (length l < fuel)%nat ->
  exists st' l',
    myfree fuel st p = Some st' /\
    heap_ok st' l' /\ (list_ok st' l' \/ (st' = st /\ l' = l)).
Proof.
  intros Hok [->|(c & b & -> & Hat & Hu)] Hfuel.
  { exists st, l. split; [reflexivity|]. auto. }
  destruct (myfree_spec st l fuel c b Hok Hat Hfuel)
    as (st' & Hrun & Hok' & Hlk' & _).
  exists st', (free_blocks (segment_start st) c l).
  split; [exact Hrun|]. split; [exact Hok'|]. left. exact Hlk'.
Qed.

(** C9 (amended): [mymalloc], [myfree] and [myrealloc] rebuild the free list
    before they return: every [admissible] call on a well-formed heap
    completes, and after it either nothing was changed, or the heap is
    well-formed and the link words of the free blocks hold exactly the
    address-ordered doubly-linked list of the free blocks, null at both
    ends.  The admissible calls are: an allocation of 0 bytes, or of 1 to
    2^63 - 1 bytes when the heap holds a free block; a release of NULL or of
    an in-use block; a resize of NULL, or to 0 bytes, as the allocation or
    release it stands for; a resize to 1 to 2^63 - 1 bytes that passes the
    test for growing in place on a free right neighbour inside the arena,
    or that fails that test and whose fallback allocation finds a block.
    Not among them: an allocation on a heap without a free block, a resize
    of the last block whose test passes on the word behind the arena, a
    resize whose fallback allocation fails.
    [myinit] does not build the list: it writes the eight header
    bytes and nothing else, so the link words of its single free block keep
    whatever the memory held; the heap it leaves has nothing in use, and the
    first call that changes it builds the list. *)
Theorem free_list_rebuilt_by_every_call :
  (forall st l r fuel,
     heap_ok st l -> list_ok st l \/ fresh st l ->
     admissible MAX_REQUEST_SIZE st l r ->
     (length l + 1 < fuel)%nat ->
     exists p st' l',
       serve MAX_REQUEST_SIZE fuel st r = Some (p, st') /\
       heap_ok st' l' /\
       (list_ok st' l' \/ (st' = st /\ l' = l))) /\
  (forall st heap_start heap_size,
     0 < heap_start -> heap_start + heap_size < W64 ->
     24 <= heap_size -> heap_size mod 8 = 0 ->
     let st' := snd (myinit st heap_start heap_size) in
     heap_ok st' [mkBlock heap_size true] /\
     fresh st' [mkBlock heap_size true] /\
     (forall x, ~ (heap_start <= x < heap_start + 8) -> mem st' x = mem st x)).
Proof.
  split.
  - intros st l r fuel Hok Hlk Hadm Hfuel. destruct r as [n|p|p n]; simpl in *.
    + now apply serve_malloc_ok.
    + destruct (serve_free_ok st l fuel p Hok Hadm) as (st' & l' & Hrun & H);
        [lia|].
      rewrite Hrun. eauto.
    + destruct Hadm as [[-> Hm]|[(Hp & -> & Hfr)|(Hn & c & -> & Hcase)]].
      * unfold myrealloc. simpl. rewrite andb_false_r.
        now apply serve_malloc_ok.
      * unfold myrealloc. simpl.
        destruct (Z.eqb_spec p NULL); [contradiction|]. simpl.
        destruct (serve_free_ok st l fuel p Hok Hfr) as (st' & l' & Hrun & H);
          [lia|].
        rewrite Hrun. eauto.
      * destruct Hcase as [(l1 & b & nb & l2 & -> & -> & Hfn & Hcond)
                          |(b & Hat & Hu & Hcond & Hnu & Hmax & Hf0)].
        -- destruct (myrealloc_inplace_spec st l1 b nb l2 fuel n Hok Hfn Hn Hcond)
             as (st' & Hrun & Hok' & Hlk' & _); [lia|].
           eexists _, st', _. split; [exact Hrun|]. split; [exact Hok'|].
           left. exact Hlk'.
        -- assert (Hlk' : list_ok st l).
           { destruct Hlk as [Hlk|[_ [s ->]]]; [exact Hlk|].
             simpl in Hat. destruct Hat as [[_ <-]|[]]. discriminate. }
           destruct (myrealloc_fallback_spec st l fuel c b n Hok Hlk' Hat Hu Hn
                       Hcond Hnu Hmax Hf0 Hfuel)
             as (st' & Hrun & Hok' & Hlk'' & _).
           eexists _, st', _. split; [exact Hrun|]. split; [exact Hok'|].
           left. exact Hlk''.
  - intros st heap_start heap_size Hs Hw Hsz Hsz8 st'.
    unfold st', myinit. simpl. rewrite placeheader_free.
    split; [|split].
    + unfold heap_ok. simpl. repeat split; auto; try lia.
      rewrite load64_store64_same. unfold hdr. simpl.
      rewrite wrap64_small by lia. lia.
    + split; [reflexivity|]. now exists heap_size.
    + intros x Hx. apply store64_out. lia.
Qed.

End Proofs.

(** * Initialisation *)

(** C10, as stated, fails on an odd length: [placeheader] stores the length
    itself as the header word, so its low bit is read back as the status.
    A 7-byte arena ends up with a header that says "in use, 6 bytes". *)
Lemma myinit_odd_length :
  fst (myinit boot 1000 7) = true /\
  isfree (mem (snd (myinit boot 1000 7))) 1000 = false /\
  getsize (mem (snd (myinit boot 1000 7))) 1000 = 6.
Proof. repeat split; vm_compute; reflexivity. Qed.

(** C10 (amended): [myinit] accepts every base address and every length: it
    returns true, sets the three globals ([nused] to 0) and stores the length
    as the header word at the base, touching no other byte.  For an even
    length that word is the header of one free block whose size is the whole
    arena; for an odd length it reads as an in-use block one byte shorter. *)
Theorem myinit_accepts_all st heap_start heap_size :
  0 <= heap_size < W64 ->
  let st' := snd (myinit st heap_start heap_size) in
  fst (myinit st heap_start heap_size) = true /\
  nused st' = 0 /\
  segment_start st' = heap_start /\
  segment_size st' = heap_size /\
  load64 (mem st') heap_start = heap_size /\
  (forall x, ~ (heap_start <= x < heap_start + 8) -> mem st' x = mem st x) /\
  (heap_size mod 2 = 0 ->
   isfree (mem st') heap_start = true /\
   getsize (mem st') heap_start = heap_size) /\
  (heap_size mod 2 = 1 ->
   isfree (mem st') heap_start = false /\
   getsize (mem st') heap_start = heap_size - 1).
Proof.
  intros Hsz st'. unfold st', myinit. simpl. rewrite placeheader_free.
  assert (Hw : load64 (store64 (mem st) heap_start heap_size) heap_start
               = heap_size).
  { rewrite load64_store64_same. now apply wrap64_small. }
  split; [reflexivity|]. split; [reflexivity|]. split; [reflexivity|].
  split; [reflexivity|]. split; [exact Hw|]. split.
  - intros x Hx. apply store64_out. lia.
  - unfold isfree, getsize. rewrite Hw, land_one, land_even_mask by exact Hsz.
    split; intros Hm; rewrite Hm; split; try reflexivity; lia.
Qed.

Lemma myinit_accepts_all_witness :
  fst (myinit boot 1000 128) = true /\
  nused h128 = 0 /\
  isfree (mem h128) 1000 = true /\
  getsize (mem h128) 1000 = 128.
Proof.
  assert (H : 0 <= 128 < W64) by (rewrite W64_val; lia).
  destruct (myinit_accepts_all boot 1000 128 H) as (H1 & H2 & _ & _ & _ & _ & H3 & _).
  destruct (H3 eq_refl) as [H4 H5].
  exact (conj H1 (conj H2 (conj H4 H5))).
Defined.

(** * The validator *)

Lemma validate_loop_false fuel st : forall a i,
  validate_loop fuel st a i = Some false ->
  exists k, (k < fuel)%nat /\ looks_at k st a i /\ bad_block k st a.
Proof.
  induction fuel as [|fuel IH]; intros a i H; simpl in H; [discriminate|].
  destruct (Z.ltb_spec (wrap64 i) (nused st)) as [Hi|Hi]; [|discriminate].
  destruct (Z.eqb_spec (a mod 8) 0) as [Ha|Ha]; simpl in H.
  - destruct (Z.geb_spec a (segment_end st)) as [He|He]; [discriminate|].
    destruct (Z.eqb_spec (getsize (mem st) a mod 8) 0) as [Hs|Hs]; simpl in H.
    + destruct (IH _ _ H) as (k & Hk & [Hpre Hcnt] & Hbad).
      exists (S k). split; [lia|]. split; [split|exact Hbad].
      * intros [|j] Hj.
        -- unfold walk_ok. simpl. auto.
        -- apply (Hpre j). lia.
      * exact Hcnt.
    + exists O. split; [lia|]. split; [split; [intros j Hj; lia|exact Hi]|].
      right. simpl. auto.
  - exists O. split; [lia|]. split; [split; [intros j Hj; lia|exact Hi]|].
    left. exact Ha.
Qed.

Lemma validate_loop_detects st : forall k fuel a i,
  (k < fuel)%nat -> looks_at k st a i -> bad_block k st a ->
  validate_loop fuel st a i = Some false.
Proof.
  induction k as [|k IH]; intros fuel a i Hf [Hpre Hcnt] Hbad;
    (destruct fuel as [|fuel]; [lia|]); cbn [validate_loop].
  - simpl in Hcnt. destruct (Z.ltb_spec (wrap64 i) (nused st)); [|lia].
    destruct (Z.eqb_spec (a mod 8) 0) as [Ha|Ha]; [|reflexivity]. cbn [negb].
    destruct Hbad as [Hb|[He Hs]]; [simpl in Hb; contradiction|].
    simpl in He, Hs.
    destruct (Z.geb_spec a (segment_end st)); [lia|].
    destruct (Z.eqb_spec (getsize (mem st) a mod 8) 0); [contradiction|].
    reflexivity.
  - destruct (Hpre O ltac:(lia)) as (H0 & H1 & H2 & H3).
    simpl in H0, H1, H2, H3.
    destruct (Z.ltb_spec (wrap64 i) (nused st)); [|lia].
    rewrite H1. cbn [Z.eqb negb].
    destruct (Z.geb_spec a (segment_end st)); [lia|].
    rewrite H3. cbn [Z.eqb negb].
    apply IH; [lia| |exact Hbad].
    split; [|exact Hcnt]. intros j Hj. apply (Hpre (S j)). lia.
Qed.

Lemma validate_loop_true st l : forall a i fuel,
  chain (mem st) a l -> blocks_ok l -> a mod 8 = 0 -> 0 < a ->
  a + total l = segment_end st -> segment_end st < W64 ->
  (length l < fuel)%nat ->
  validate_loop fuel st a i = Some true.
Proof.
  induction l as [|b l IH]; intros a i fuel Hc Hok Ha Ha0 He HW Hf;
    (destruct fuel as [|fuel]; [simpl in Hf; lia|]); simpl in *.
  - destruct (wrap64 i <? nused st); [|reflexivity].
    rewrite Ha. simpl. destruct (Z.geb_spec a (segment_end st)); [reflexivity|lia].
  - destruct Hc as [Hh Hc], Hok as [Hb Hl].
    pose proof (block_ok_even b Hb) as Heven. destruct Hb as [Hb24 Hb8].
    pose proof (total_nonneg l Hl) as Ht.
    destruct (wrap64 i <? nused st); [|reflexivity].
    rewrite Ha. simpl. destruct (Z.geb_spec a (segment_end st)); [reflexivity|].
    rewrite (hdr_getsize _ a b Hh Heven) by lia. rewrite Hb8. simpl.
    rewrite (wrap64_small (a + bsize b)) by lia.
    apply IH; auto; try lia. now apply add_mod8.
Qed.

(** C7, as stated, fails on each of its three walk checks.  The walk of
    [validate_heap] is bounded by [i < nused], so with nothing in use no
    block is looked at and an arena based at the unaligned address 1001
    passes.  A first block of decoded size 0 passes: the address stays where
    it is until the counter reaches [nused].  A first block of decoded size
    136 in an arena of 128 bytes passes: the walk lands beyond the arena
    end. *)
Lemma validate_heap_passes_broken_heaps :
  (segment_start h_odd_base mod 8 <> 0 /\
   validate_heap 8 h_odd_base = Some true) /\
  (getsize (mem h_zero_size) (segment_start h_zero_size) = 0 /\
   validate_heap 20 h_zero_size = Some true) /\
  (getsize (mem h_overshoot) (segment_start h_overshoot) = 136 /\
   segment_size h_overshoot = 128 /\
   validate_heap 8 h_overshoot = Some true).
Proof. repeat split; vm_compute; congruence. Qed.

(** C7 (amended): [validate_heap] returns false whenever [nused] exceeds the
    arena length.  Otherwise it walks from the base by decoded sizes with a
    counter that starts at 0 and grows by the block size plus 2 per block; a
    block is looked at only while the counter is below [nused] and every
    block before it was aligned, below the arena end and of a size that is a
    multiple of 8.  It returns false exactly when a block looked at has an
    address that is not a multiple of 8, or lies below the arena end and has
    a decoded size that is not a multiple of 8.  With [nused] at 0 no block
    is looked at and it returns true.  Sizes of 0 and a walk that runs past
    the arena end are not detected.  On an aligned arena that is exactly
    tiled by well-formed blocks, with [nused] within the arena length, it
    returns true. *)
Theorem validate_heap_checks fuel st :
  (nused st > segment_size st -> validate_heap fuel st = Some false) /\
  (nused st = 0 -> 0 <= segment_size st -> (0 < fuel)%nat ->
   validate_heap fuel st = Some true) /\
  (forall k,
     nused st <= segment_size st -> (k < fuel)%nat ->
     looks_at k st (segment_start st) 0 ->
     bad_block k st (segment_start st) ->
     validate_heap fuel st = Some false) /\
  (validate_heap fuel st = Some false ->
   nused st > segment_size st \/
   exists k,
     (k < fuel)%nat /\
     looks_at k st (segment_start st) 0 /\
     bad_block k st (segment_start st)) /\
  (forall l,
     heap_ok st l -> segment_start st mod 8 = 0 ->
     nused st <= segment_size st -> (length l < fuel)%nat ->
     validate_heap fuel st = Some true).
Proof.
  unfold validate_heap, breakpoint.
  split; [|split; [|split; [|split]]].
  - intros Hgt. destruct (Z.gtb_spec (nused st) (segment_size st)); [reflexivity|lia].
  - intros H0 Hs Hf. destruct (Z.gtb_spec (nused st) (segment_size st)); [lia|].
    destruct fuel as [|fuel]; [lia|]. simpl. rewrite H0.
    unfold wrap64. rewrite Z.mod_0_l by (rewrite W64_val; lia). reflexivity.
  - intros k Hnu Hk Hlook Hbad.
    destruct (Z.gtb_spec (nused st) (segment_size st)); [lia|].
    now apply (validate_loop_detects st k).
  - destruct (Z.gtb_spec (nused st) (segment_size st)); [left; lia|].
    intros Hv. right. now apply validate_loop_false.
  - intros l Hok Hal Hnu Hf.
    destruct (Z.gtb_spec (nused st) (segment_size st)); [lia|].
    pose proof (segment_end_ok st l Hok) as He.
    destruct Hok as (Hs & Hw & Hc & Ht & Hl).
    apply (validate_loop_true st l); auto; lia.
Qed.

Lemma validate_heap_checks_witness :
  validate_heap 8 h128_abc = Some true /\
  validate_heap 8 h128 = Some true /\
  validate_heap 8 h_odd_a = Some false /\
  validate_heap 8 h36_a = Some false /\
  validate_heap 8 h100_abc = Some false.
Proof.
  split; [|split; [|split; [|split]]].
  - apply (proj2 (proj2 (proj2 (proj2 (validate_heap_checks 8 h128_abc))))
             [mkBlock 24 false; mkBlock 24 false; mkBlock 24 false;
              mkBlock 56 true]).
    + concrete_heap.
    + reflexivity.
    + vm_compute. congruence.
    + simpl. lia.
  - apply (proj1 (proj2 (validate_heap_checks 8 h128))).
    + reflexivity.
    + vm_compute. congruence.
    + lia.
  - apply (proj1 (proj2 (proj2 (validate_heap_checks 8 h_odd_a))) O).
    + vm_compute. congruence.
    + lia.
    + split; [intros j Hj; lia|]. vm_compute. reflexivity.
    + left. vm_compute. congruence.
  - apply (proj1 (proj2 (proj2 (validate_heap_checks 8 h36_a))) O).
    + vm_compute. congruence.
    + lia.
    + split; [intros j Hj; lia|]. vm_compute. reflexivity.
    + right. split; [vm_compute; reflexivity|vm_compute; congruence].
  - apply (proj1 (proj2 (proj2 (validate_heap_checks 8 h100_abc))) 2%nat).
    + vm_compute. congruence.
    + lia.
    + split; [|vm_compute; reflexivity].
      intros [|[|j]] Hj; [| |lia];
        unfold walk_ok; vm_compute; repeat split; reflexivity.
    + right. split; [vm_compute; reflexivity|vm_compute; congruence].
Defined.

(** * The in-use counter *)

(** Nothing in [myfree] writes [nused]. *)
Lemma myfree_nused fuel st ptr st' :
  myfree fuel st ptr = Some st' -> nused st' = nused st.
Proof.
  unfold myfree. destruct (ptr =? NULL); [intros [= <-]; reflexivity|].
  destruct (coalesce_loop _ _ _ _ _) as [m|]; [|discriminate].
  unfold updatelinkedlist. simpl.
  destruct (updatelinkedlist_loop _ _ _ _ _) as [m'|]; [|discriminate].
  intros [= <-]. reflexivity.
Qed.

(** C1 (the code at the failing input): one 8-byte allocation from a fresh
    128-byte arena puts [nused] at 24, the size of the block made; releasing
    that block leaves a single free block and no block in use, and [nused]
    is still 24.  After five such rounds the arena is again one free block
    of 128 bytes with [nused] at 120, and a sixth 8-byte request is turned
    down by the test [needed + nused > segment_size].  And [nused] can pass
    the arena length: with 72 bytes counted and 48 in use, a 40-byte request
    takes a whole 80-byte block, [nused] becomes 152 in the arena of 128
    bytes, and [validate_heap] reports the consistent heap as broken. *)
Theorem nused_not_decremented_by_release :
  returned (mymalloc max30 8 h128 8) = Some 1008 /\
  blocks_of 8 h128_a = [mkBlock 24 false; mkBlock 104 true] /\
  inuse (blocks_of 8 h128_a) = 24 /\
  nused h128_a = 24 /\
  myfree 8 h128_a 1008 = Some h128_freed /\
  blocks_of 8 h128_freed = [mkBlock 128 true] /\
  inuse (blocks_of 8 h128_freed) = 0 /\
  nused h128_freed = 24 /\
  blocks_of 8 (churn 5 h128) = [mkBlock 128 true] /\
  nused (churn 5 h128) = 120 /\
  returned (mymalloc max30 8 (churn 5 h128) 8) = Some NULL /\
  inuse (blocks_of 8 h128_c_freed) = 48 /\
  nused h128_c_freed = 72 /\
  returned (mymalloc max30 8 h128_c_freed 40) = Some 1056 /\
  blocks_of 8 h128_over
  = [mkBlock 24 false; mkBlock 24 false; mkBlock 80 false] /\
  nused h128_over = 152 /\
  segment_size h128_over = 128 /\
  validate_heap 8 h128_over = Some false.
Proof.
  repeat split; vm_compute; reflexivity.
Qed.

(** * Failure of the fallback allocation in [myrealloc] *)

(** C3 (the code at the failing input): the 72-byte arena is full, the block
    at 1000 holds a marker word.  Resizing it to 100 bytes cannot grow in
    place and the fallback [mymalloc] returns NULL.  [myrealloc] goes on all
    the same: it moves the 24 old bytes to address 0, releases the old block
    and returns NULL. *)
Theorem myrealloc_failed_fallback_releases :
  blocks_of 8 h72_full = [mkBlock 24 false; mkBlock 48 false] /\
  load64 (mem h72_full) 1008 = 81985529216486895 /\
  load64 (mem h72_full) 0 = 0 /\
  returned (mymalloc max30 8 h72_full 100) = Some NULL /\
  returned (myrealloc max30 8 h72_full 1008 100) = Some NULL /\
  let st' := after (myrealloc max30 8 h72_full 1008 100) h72_full in
  blocks_of 8 st' = [mkBlock 24 true; mkBlock 48 false] /\
  isfree (mem st') 1000 = true /\
  load64 (mem st') 0 = 81985529216486895.
Proof. repeat split; vm_compute; reflexivity. Qed.

(** * The claims on concrete heaps *)

(** C2, as stated, fails between 24 and 39 bytes of remainder: an 8-byte
    request ([needed] = 24) on a single free block of 56 bytes leaves 32
    bytes, enough for a header and two link words, and [mymalloc] hands out
    the whole block. *)
Lemma mymalloc_keeps_32_byte_remainder :
  blocks_of 8 h56 = [mkBlock 56 true] /\
  roundup 8 ALIGNMENT = 24 /\
  HEADER_SIZE + 16 <= 56 - roundup 8 ALIGNMENT /\
  returned (mymalloc max30 8 h56 8) = Some 1008 /\
  blocks_of 8 (after (mymalloc max30 8 h56 8) h56) = [mkBlock 56 false] /\
  nused (after (mymalloc max30 8 h56 8) h56) = 56.
Proof. repeat split; vm_compute; congruence. Qed.

Lemma mymalloc_splits_at_40_witness :
  exists st',
    mymalloc max30 8 h128 8 = Some (1008, st') /\
    heap_ok st' [mkBlock 24 false; mkBlock 104 true] /\
    load64 (mem st') 1000 = 25 /\
    load64 (mem st') 1024 = 104 /\
    nused st' = 24.
Proof.
  destruct (mymalloc_splits_at_40 max30 h128 [] (mkBlock 128 true) [] 8 8)
    as (st' & Hrun & Hsplit & _).
  - concrete_heap.
  - right. split; [reflexivity|]. now exists 128.
  - rewrite W64_val. lia.
  - vm_compute. congruence.
  - vm_compute. congruence.
  - reflexivity.
  - vm_compute. congruence.
  - intros b' [].
  - simpl. lia.
  - exists st'. split; [exact Hrun|]. apply Hsplit. vm_compute. congruence.
Defined.



(** C4, as stated, fails on its own example: with A, B, C the three in-use
    blocks of the 96-byte arena, releasing B and then C leaves two free
    blocks, of 24 and 48 bytes; the header at B still says 24. *)
Lemma release_B_then_C_leaves_two_blocks :
  blocks_of 8 h96_abc = [mkBlock 24 false; mkBlock 24 false; mkBlock 48 false] /\
  let st1 := after_free (myfree 8 h96_abc 1032) h96_abc in
  let st2 := after_free (myfree 8 st1 1056) st1 in
  myfree 8 h96_abc 1032 = Some st1 /\
  myfree 8 st1 1056 = Some st2 /\
  blocks_of 8 st2 = [mkBlock 24 false; mkBlock 24 true; mkBlock 48 true] /\
  getsize (mem st2) 1024 = 24.
Proof. repeat split; vm_compute; reflexivity. Qed.

Lemma myfree_coalesces_right_only_witness :
  (exists st',
     myfree 8 h128_a 1008 = Some st' /\
     heap_ok st' [mkBlock 128 true]) /\
  (exists st1 st2,
     myfree 8 h128_abc 1056 = Some st1 /\
     myfree 8 st1 1032 = Some st2 /\
     heap_ok st2 [mkBlock 24 false; mkBlock 104 true]) /\
  (exists st1 st2,
     myfree 8 h128_abc 1032 = Some st1 /\
     myfree 8 st1 1056 = Some st2 /\
     heap_ok st2 [mkBlock 24 false; mkBlock 24 true; mkBlock 80 true]).
Proof.
  destruct myfree_coalesces_right_only as [Hgen Habc].
  split.
  - destruct (Hgen h128_a [] (mkBlock 24 false) [mkBlock 104 true] [] 8%nat)
      as (st' & Hrun & Hok & _).
    + concrete_heap.
    + reflexivity.
    + reflexivity.
    + exact I.
    + simpl. lia.
    + exists st'. split; [exact Hrun|exact Hok].
  - apply (Habc h128_abc [] (mkBlock 24 false) (mkBlock 24 false)
             (mkBlock 24 false) [mkBlock 56 true] [] 8%nat).
    + concrete_heap.
    + reflexivity.
    + reflexivity.
    + reflexivity.
    + reflexivity.
    + exact I.
    + simpl. lia.
Defined.

(** C5, as stated, fails where the remainder is viable but
    [old + neighbour - new_size] is not above 32: the block at 1000 has 24
    bytes, its right neighbour is free with 32; a resize to 24 bytes needs
    32 and would leave a free remainder of 24, yet [myrealloc] moves the
    block to 1032. *)
Lemma myrealloc_moves_despite_viable_remainder :
  blocks_of 8 g128_hole
  = [mkBlock 24 false; mkBlock 32 true; mkBlock 24 false; mkBlock 48 true] /\
  roundup 24 ALIGNMENT = 32 /\
  HEADER_SIZE + 16 <= 24 + 32 - roundup 24 ALIGNMENT /\
  returned (myrealloc max30 8 g128_hole 1008 24) = Some 1032 /\
  blocks_of 8 (after (myrealloc max30 8 g128_hole 1008 24) g128_hole)
  = [mkBlock 24 true; mkBlock 32 false; mkBlock 24 false; mkBlock 48 true].
Proof. repeat split; vm_compute; congruence. Qed.

Lemma myrealloc_grows_in_place_witness :
  exists st',
    myrealloc max30 8 h128_a 1008 50 = Some (1008, st') /\
    heap_ok st' [mkBlock 64 false; mkBlock 64 true] /\
    list_ok st' [mkBlock 64 false; mkBlock 64 true].
Proof.
  destruct (myrealloc_grows_in_place max30 h128_a [] (mkBlock 24 false)
              (mkBlock 104 true) [] 8 50)
    as (st' & Hrun & Hok & Hlk & _).
  - concrete_heap.
  - reflexivity.
  - reflexivity.
  - vm_compute. split; reflexivity.
  - vm_compute. reflexivity.
  - simpl. lia.
  - exists st'. split; [exact Hrun|]. split; [exact Hok|exact Hlk].
Defined.



(** C9, as stated, fails after [myinit]: set up again over a used heap, the
    128-byte arena is one free block whose next link still holds 1048, the
    address of a block that no longer exists. *)
Lemma myinit_leaves_stale_links :
  heap_ok h128_again [mkBlock 128 true] /\
  getnextptr (mem h128_again) 1000 = 1048 /\
  ~ list_ok h128_again [mkBlock 128 true].
Proof.
  split; [concrete_heap|]. split; [vm_compute; reflexivity|].
  unfold list_ok. intros H. vm_compute in H. destruct H as (_ & H & _).
  discriminate.
Qed.

Lemma free_list_rebuilt_by_every_call_witness :
  (exists p st' l',
     serve max30 8 h128 (Malloc 8) = Some (p, st') /\
     heap_ok st' l' /\
     (list_ok st' l' \/ (st' = h128 /\ l' = [mkBlock 128 true]))) /\
  heap_ok h128 [mkBlock 128 true] /\
  fresh h128 [mkBlock 128 true].
Proof.
  destruct (free_list_rebuilt_by_every_call max30) as [Hstep Hinit].
  split.
  - apply (Hstep h128 [mkBlock 128 true] (Malloc 8) 8%nat).
    + concrete_heap.
    + right. split; [reflexivity|]. now exists 128.
    + right. split; [vm_compute; split; reflexivity|reflexivity].
    + simpl. lia.
  - destruct (Hinit boot 1000 128) as (H1 & H2 & _).
    + lia.
    + vm_compute. reflexivity.
    + lia.
    + reflexivity.
    + split; [exact H1|exact H2].
Defined.

(** * Further properties of the codec *)

(** A header written by [placeheader] with an even size and a status of 0 or
    1 decodes to that size and status, and only the eight header bytes are
    written. *)
Theorem placeheader_round_trip m block_start size status :
  0 <= size < W64 -> size mod 2 = 0 -> status = 0 \/ status = 1 ->
  getsize (placeheader m block_start size status) block_start = size /\
  isfree (placeheader m block_start size status) block_start = (status =? 0) /\
  (forall x, ~ (block_start <= x < block_start + 8) ->
             placeheader m block_start size status x = m x).
Proof.
  intros Hs He [-> | ->].
  - rewrite placeheader_free. split; [|split].
    + apply (hdr_getsize _ _ (mkBlock size true)); simpl; try lia.
      rewrite load64_store64_same. unfold hdr. simpl.
      rewrite wrap64_small by lia. lia.
    + apply (hdr_isfree _ _ (mkBlock size true)); simpl; try lia.
      rewrite load64_store64_same. unfold hdr. simpl.
      rewrite wrap64_small by lia. lia.
    + intros x Hx. apply store64_out. lia.
  - rewrite placeheader_used by exact He.
    assert (Hodd : size + 1 < W64).
    { rewrite W64_val in *. Z.div_mod_to_equations. lia. }
    split; [|split].
    + apply (hdr_getsize _ _ (mkBlock size false)); simpl; try lia.
      rewrite load64_store64_same. unfold hdr. simpl.
      rewrite wrap64_small by lia. lia.
    + apply (hdr_isfree _ _ (mkBlock size false)); simpl; try lia.
      rewrite load64_store64_same. unfold hdr. simpl.
      rewrite wrap64_small by lia. lia.
    + intros x Hx. apply store64_out. lia.
Qed.

Lemma placeheader_round_trip_witness :
  getsize (placeheader (fun _ => 0) 1000 104 1) 1000 = 104 /\
  isfree (placeheader (fun _ => 0) 1000 104 1) 1000 = false.
Proof.
  destruct (placeheader_round_trip (fun _ => 0) 1000 104 1) as (H1 & H2 & _).
  - vm_compute. split; congruence.
  - reflexivity.
  - right. reflexivity.
  - split; [exact H1|exact H2].
Defined.

(** Whatever the header word is, decoding and encoding again gives it back:
    the size read by [getsize] is even and below 2^64, and or-ing the status
    bit read by [isfree] onto it is the word in memory. *)
Theorem header_decode_encode m a :
  getsize m a mod 2 = 0 /\
  0 <= getsize m a < W64 /\
  Z.lor (getsize m a) (if isfree m a then 0 else 1) = load64 m a.
Proof.
  pose proof (load64_range m a) as R. unfold getsize, isfree.
  rewrite land_even_mask, land_one by exact R.
  set (w := load64 m a) in *.
  assert (Hm : w mod 2 = 0 \/ w mod 2 = 1) by (Z.div_mod_to_equations; lia).
  assert (He : (w - w mod 2) mod 2 = 0).
  { destruct Hm as [E|E]; rewrite E; Z.div_mod_to_equations; lia. }
  split; [exact He|]. split; [clearbody w; Z.div_mod_to_equations; lia|].
  destruct Hm as [E|E]; rewrite E.
  - simpl. rewrite Z.lor_0_r. lia.
  - simpl. rewrite lor_one; [lia|]. rewrite <- E. exact He.
Qed.

(** The two link words of a block are independent cells behind its header:
    each reads back what was last written to it, writing one leaves the
    other and the header as they were. *)
Theorem link_words_round_trip m block_header v :
  0 <= block_header -> block_header + 24 <= W64 -> 0 <= v < W64 ->
  getprevptr (setprevptr m block_header v) block_header = v /\
  getnextptr (setnextptr m block_header v) block_header = v /\
  getnextptr (setprevptr m block_header v) block_header
  = getnextptr m block_header /\
  getprevptr (setnextptr m block_header v) block_header
  = getprevptr m block_header /\
  load64 (setprevptr m block_header v) block_header = load64 m block_header /\
  load64 (setnextptr m block_header v) block_header = load64 m block_header.
Proof.
  intros Ha Hb Hv.
  unfold getprevptr, getnextptr, setprevptr, setnextptr, HEADER_SIZE.
  rewrite !(wrap64_small (block_header + 8)) by lia.
  rewrite !(wrap64_small (block_header + 8 + 8)) by lia.
  rewrite !load64_store64_same, !load64_store64_other by lia.
  rewrite wrap64_small by lia. repeat split.
Qed.

Lemma link_words_round_trip_witness :
  getprevptr (setprevptr (fun _ => 0) 1000 1048) 1000 = 1048 /\
  getnextptr (setnextptr (fun _ => 0) 1000 1048) 1000 = 1048.
Proof.
  destruct (link_words_round_trip (fun _ => 0) 1000 1048) as (H1 & H2 & _).
  - lia.
  - vm_compute. congruence.
  - vm_compute. split; congruence.
  - split; [exact H1|exact H2].
Defined.

(** For a request that does not come near 2^64, [roundup] at the alignment
    of 8 gives a multiple of 8 that has room for the header and the request,
    and for the header and two link words, with less than 24 bytes to
    spare. *)
Theorem roundup_makes_room sz :
  0 < sz <= W64 - 16 ->
  roundup sz ALIGNMENT mod 8 = 0 /\
  sz + HEADER_SIZE <= roundup sz ALIGNMENT /\
  HEADER_SIZE + 16 <= roundup sz ALIGNMENT /\
  roundup sz ALIGNMENT < sz + HEADER_SIZE + 16.
Proof.
  intros H. destruct (roundup_props sz H) as (H1 & H2 & H3 & _).
  unfold HEADER_SIZE. repeat split; lia.
Qed.

Lemma roundup_makes_room_witness :
  roundup 100 ALIGNMENT mod 8 = 0 /\
  100 + HEADER_SIZE <= roundup 100 ALIGNMENT /\
  HEADER_SIZE + 16 <= roundup 100 ALIGNMENT /\
  roundup 100 ALIGNMENT < 100 + HEADER_SIZE + 16.
Proof. apply roundup_makes_room. vm_compute. split; congruence. Defined.

(** Within 16 of 2^64 the arithmetic of [roundup] wraps: the fifteen largest
    sizes are rounded to 0 or to 8, less than the header and two link
    words and far less than the request. *)
Theorem roundup_wraps_near_top sz :
  W64 - 16 < sz < W64 ->
  roundup sz ALIGNMENT = (if sz <=? W64 - 8 then 0 else 8).
Proof.
  intros H. unfold roundup, ALIGNMENT, HEADER_SIZE.
  change (wrap64 (8 - 1)) with 7.
  replace (sz + 8 - 1) with (sz + 7) by lia.
  rewrite W64_val in H.
  destruct (Z.leb_spec sz (W64 - 8)) as [Hle|Hgt]; rewrite W64_val in *.
  - assert (E : wrap64 (sz + 7) = sz + 7)
      by (apply wrap64_small; rewrite W64_val; lia).
    rewrite E, land_align_mask by (rewrite W64_val; lia).
    assert (E2 : sz + 7 - (sz + 7) mod 8 = 18446744073709551608)
      by (Z.div_mod_to_equations; lia).
    rewrite E2. reflexivity.
  - assert (E : wrap64 (sz + 7) = sz + 7 - 18446744073709551616).
    { unfold wrap64. rewrite W64_val. Z.div_mod_to_equations. lia. }
    rewrite E, land_align_mask by (rewrite W64_val; lia).
    assert (E2 : sz + 7 - 18446744073709551616
                 - (sz + 7 - 18446744073709551616) mod 8 = 0)
      by (Z.div_mod_to_equations; lia).
    rewrite E2. reflexivity.
Qed.

Lemma roundup_wraps_near_top_witness :
  roundup (W64 - 1) ALIGNMENT = 8 /\ roundup (W64 - 9) ALIGNMENT = 0.
Proof.
  split.
  - apply (roundup_wraps_near_top (W64 - 1)). vm_compute. split; reflexivity.
  - apply (roundup_wraps_near_top (W64 - 9)). vm_compute. split; reflexivity.
Defined.

(** * Further properties of the list maintainer and the scanner *)

Lemma load_le_inj n : forall m m' a,
  load_le n m a = load_le n m' a ->
  forall i, 0 <= i < Z.of_nat n -> load8 m (a + i) = load8 m' (a + i).
Proof.
  induction n as [|n IH]; intros m m' a H i Hi; [simpl in Hi; lia|].
  rewrite Nat2Z.inj_succ in Hi. cbn [load_le] in H.
  pose proof (load8_range m a). pose proof (load8_range m' a).
  assert (E0 : load8 m a = load8 m' a) by lia.
  assert (E1 : load_le n m (a + 1) = load_le n m' (a + 1)) by lia.
  destruct (Z.eq_dec i 0) as [->|Hne].
  - now rewrite Z.add_0_r.
  - replace (a + i) with (a + 1 + (i - 1)) by lia. apply IH; [exact E1|lia].
Qed.

Lemma load64_same_bytes m m' a x :
  load64 m a = load64 m' a -> a <= x < a + 8 -> load8 m x = load8 m' x.
Proof.
  intros H Hx. replace x with (a + (x - a)) by lia.
  apply (load_le_inj 8); [exact H|simpl; lia].
Qed.

Lemma links_same_bytes l : forall m m' a prev x,
  links m a prev l -> links m' a prev l -> in_links a l x ->
  load8 m x = load8 m' x.
Proof.
  induction l as [|b l IH]; intros m m' a prev x H H' Hin; simpl in *; [tauto|].
  destruct (bfree b) eqn:E.
  - destruct H as (Hp & Hn & Hl), H' as (Hp' & Hn' & Hl').
    destruct Hin as [[_ Hx]|Hin]; [|eauto].
    destruct (Z.lt_ge_cases x (a + 16)).
    + apply (load64_same_bytes m m' (a + 8)); [congruence|lia].
    + apply (load64_same_bytes m m' (a + 16)); [congruence|lia].
  - destruct Hin as [[Hf _]|Hin]; [discriminate|eauto].
Qed.

Lemma in_links_dec l : forall a x, in_links a l x \/ ~ in_links a l x.
Proof.
  induction l as [|b l IH]; intros a x; simpl; [tauto|].
  destruct (IH (a + bsize b) x) as [H|H]; [tauto|].
  destruct (bfree b); [|right; intros [[Hf _]|Hin]; [discriminate|tauto]].
  destruct (Z.le_gt_cases (a + 8) x), (Z.lt_ge_cases x (a + 24));
    try (right; intros [[_ Hx]|Hin]; [lia|tauto]).
  left. left. split; [reflexivity|lia].
Qed.

Lemma in_links_block l : forall a x,
  in_links a l x ->
  exists c b, block_at a l c b /\ bfree b = true /\ c + 8 <= x < c + 24.
Proof.
  induction l as [|b l IH]; intros a x H; simpl in *; [tauto|].
  destruct H as [[Hf Hx]|H].
  - exists a, b. repeat split; auto; lia.
  - destruct (IH _ _ H) as (c & b' & Hat & Hf & Hx). exists c, b'. auto.
Qed.

Lemma in_links_no_free l : forall a x, has_free l = false -> ~ in_links a l x.
Proof.
  induction l as [|b l IH]; intros a x H; simpl in *; [tauto|].
  apply orb_false_iff in H. destruct H as [Hb Hl].
  intros [[Hf _]|Hin]; [congruence|]. exact (IH _ _ Hl Hin).
Qed.

(** [updatelinkedlist] is idempotent: on a well-formed heap a first call
    builds the list, and a second call right after it changes no byte of
    memory and none of the globals. *)
Theorem updatelinkedlist_idempotent st l fuel :
  heap_ok st l -> (length l < fuel)%nat ->
  exists st1 st2,
    updatelinkedlist fuel st = Some st1 /\
    updatelinkedlist fuel st1 = Some st2 /\
    list_ok st1 l /\
    (forall x, load8 (mem st2) x = load8 (mem st1) x) /\
    segment_start st2 = segment_start st1 /\
    segment_size st2 = segment_size st1 /\
    nused st2 = nused st1.
Proof.
  intros Hok Hfuel.
  destruct (updatelinkedlist_spec st l fuel Hok Hfuel)
    as (st1 & Hrun1 & Hok1 & Hlk1 & Es1 & _).
  destruct (updatelinkedlist_spec st1 l fuel Hok1 Hfuel)
    as (st2 & Hrun2 & _ & Hlk2 & Es2 & Ez2 & Eu2 & Hfr2).
  exists st1, st2. repeat split; auto.
  intros x. destruct (in_links_dec l (segment_start st1) x) as [Hin|Hout].
  - unfold list_ok in Hlk1, Hlk2. rewrite Es2 in Hlk2.
    exact (links_same_bytes l _ _ _ _ x Hlk2 Hlk1 Hin).
  - unfold load8. now rewrite Hfr2.
Qed.

Lemma updatelinkedlist_idempotent_witness :
  exists st1 st2,
    updatelinkedlist 8 h128_again = Some st1 /\
    updatelinkedlist 8 st1 = Some st2 /\
    list_ok st1 [mkBlock 128 true] /\
    (forall x, load8 (mem st2) x = load8 (mem st1) x).
Proof.
  destruct (updatelinkedlist_idempotent h128_again [mkBlock 128 true] 8)
    as (st1 & st2 & H1 & H2 & H3 & H4 & _).
  - concrete_heap.
  - simpl. lia.
  - exists st1, st2. split; [exact H1|]. split; [exact H2|].
    split; [exact H3|exact H4].
Defined.

(** [updatelinkedlist] writes nothing but link words of free blocks: it
    returns on every well-formed heap, leaves every header, every byte of
    every in-use block and every byte outside the arena as it was, and does
    not touch the globals; with no free block it writes nothing at all. *)
Theorem updatelinkedlist_writes_only_links st l fuel :
  heap_ok st l -> (length l < fuel)%nat ->
  exists st',
    updatelinkedlist fuel st = Some st' /\
    heap_ok st' l /\
    (forall c b x, block_at (segment_start st) l c b ->
                   c <= x < c + 8 -> mem st' x = mem st x) /\
    (forall c b x, block_at (segment_start st) l c b -> bfree b = false ->
                   c <= x < c + bsize b -> mem st' x = mem st x) /\
    (forall x, x < segment_start st \/
               segment_start st + segment_size st <= x ->
               mem st' x = mem st x) /\
    (has_free l = false -> forall x, mem st' x = mem st x) /\
    nused st' = nused st.
Proof.
  intros Hok Hfuel.
  destruct (updatelinkedlist_spec st l fuel Hok Hfuel)
    as (st' & Hrun & Hok' & _ & _ & _ & Eu & Hfr).
  destruct Hok as (_ & _ & _ & Ht & Hl).
  exists st'. split; [exact Hrun|]. split; [exact Hok'|].
  split; [|split; [|split; [|split; [|exact Eu]]]].
  - intros c b x Hat Hx. apply Hfr. intros Hin.
    destruct (in_links_block _ _ _ Hin) as (c' & b' & Hat' & _ & Hx').
    destruct (block_at_range _ _ _ _ Hl Hat) as (_ & _ & [Hb _]).
    destruct (block_at_range _ _ _ _ Hl Hat') as (_ & _ & [Hb' _]).
    destruct (block_at_apart _ _ _ _ _ _ Hl Hat Hat') as [[-> _]|E]; lia.
  - intros c b x Hat Hu Hx. apply Hfr. intros Hin.
    apply in_links_in_free in Hin; [|exact Hl].
    exact (used_not_in_free l _ c b x Hl Hat Hu Hx Hin).
  - intros x Hx. apply Hfr. intros Hin.
    apply in_links_range in Hin; [|exact Hl]. lia.
  - intros Hnf x. apply Hfr. now apply in_links_no_free.
Qed.

Lemma updatelinkedlist_writes_only_links_witness :
  exists st',
    updatelinkedlist 8 g128_hole = Some st' /\
    heap_ok st'
      [mkBlock 24 false; mkBlock 32 true; mkBlock 24 false; mkBlock 48 true] /\
    nused st' = nused g128_hole.
Proof.
  destruct (updatelinkedlist_writes_only_links g128_hole
              [mkBlock 24 false; mkBlock 32 true; mkBlock 24 false;
               mkBlock 48 true] 8)
    as (st' & H1 & H2 & _ & _ & _ & _ & H3).
  - concrete_heap.
  - simpl. lia.
  - exists st'. split; [exact H1|]. split; [exact H2|exact H3].
Defined.

Lemma getfirstfree_loop_full st l : forall a fuel,
  chain (mem st) a l -> blocks_ok l -> has_free l = false ->
  0 < a -> a + total l = segment_end st -> segment_end st < W64 ->
  isfree (mem st) (segment_end st) = true ->
  (length l < fuel)%nat ->
  getfirstfree_loop fuel st a = Some (segment_end st).
Proof.
  induction l as [|b l IH]; intros a fuel Hc Hok Hnf Ha He HW Hend Hf;
    (destruct fuel as [|fuel]; [simpl in Hf; lia|]); simpl in *.
  - replace a with (segment_end st) by lia. rewrite Hend. reflexivity.
  - destruct Hc as [Hh Hc], Hok as [Hb Hl].
    apply orb_false_iff in Hnf. destruct Hnf as [Hu Hnf].
    pose proof (block_ok_even b Hb) as Heven. destruct Hb as [Hb24 Hb8].
    pose proof (total_nonneg l Hl) as Ht.
    rewrite (hdr_isfree _ a b Hh Heven), Hu. simpl.
    rewrite (hdr_getsize _ a b Hh Heven) by lia.
    rewrite (wrap64_small (a + bsize b)) by lia.
    destruct (Z.gtb_spec (a + bsize b) (segment_end st)); [lia|].
    apply IH; auto; lia.
Qed.

(** On a heap without a free block [getfirstfree] does not stop at the arena
    end: its bound test is a strict [>], so it reads the word that follows
    the arena as one more header, and when the low bit of that word is
    clear it returns the arena end address, not NULL. *)
Theorem getfirstfree_runs_past_full_heap st l fuel :
  heap_ok st l -> has_free l = false ->
  isfree (mem st) (segment_start st + segment_size st) = true ->
  (length l < fuel)%nat ->
  getfirstfree fuel st = Some (segment_start st + segment_size st) /\
  segment_start st + segment_size st <> NULL.
Proof.
  intros Hok Hnf Hend Hfuel. pose proof (segment_end_ok st l Hok) as He.
  destruct Hok as (Hs & Hw & Hc & Ht & Hl). pose proof (total_nonneg l Hl).
  split; [|unfold NULL; lia].
  unfold getfirstfree. rewrite <- He.
  apply (getfirstfree_loop_full st l); auto; try lia. now rewrite He.
Qed.

Lemma getfirstfree_runs_past_full_heap_witness :
  getfirstfree 8 h72_ab = Some 1072 /\
  segment_start h72_ab + segment_size h72_ab <> NULL.
Proof.
  apply (getfirstfree_runs_past_full_heap h72_ab
           [mkBlock 24 false; mkBlock 48 false] 8).
  - concrete_heap.
  - reflexivity.
  - vm_compute. reflexivity.
  - simpl. lia.
Defined.

(** * Further properties of allocation and release *)

Lemma total_mod8 l : blocks_ok l -> total l mod 8 = 0.
Proof.
  induction l as [|b l IH]; simpl; [reflexivity|].
  intros [[_ Hb] Hl]. apply add_mod8; auto.
Qed.

Lemma inuse_app l1 l2 : inuse (l1 ++ l2) = inuse l1 + inuse l2.
Proof. induction l1 as [|b l1 IH]; simpl; lia. Qed.

Lemma inuse_absorb l : inuse (snd (absorb l)) = inuse l.
Proof.
  induction l as [|b l IH]; simpl; [reflexivity|].
  destruct (bfree b) eqn:E; simpl; [lia|]. now rewrite E.
Qed.

Lemma inuse_take needed b :
  bfree b = true ->
  inuse (take needed b) = (if bsize b - needed >=? 40 then needed else bsize b).
Proof.
  intros Hf. unfold take. destruct (bsize b - needed >=? 40); simpl; lia.
Qed.

Lemma fit_addr_le needed l : forall a c b,
  blocks_ok l -> 0 < a -> block_at a l c b -> bfree b = true ->
  needed <= bsize b ->
  a <= fit_addr needed a l <= c.
Proof.
  induction l as [|b' l IH]; intros a c b Hok Ha Hat Hf Hn; simpl in *; [tauto|].
  destruct Hok as [[Hb24 _] Hl].
  destruct (bfree b' && (needed <=? bsize b')) eqn:E.
  - destruct Hat as [[<- _]|Hat]; [lia|].
    apply block_at_range in Hat; auto. lia.
  - destruct Hat as [[_ <-]|Hat].
    + rewrite Hf in E. simpl in E. apply Z.leb_gt in E. lia.
    + specialize (IH (a + bsize b') c b Hl ltac:(lia) Hat Hf Hn). lia.
Qed.

Section Extras.

Variable MAX_REQUEST_SIZE : Z.


(** On a well-formed heap that holds a free block, [mymalloc] never writes
    into memory it has handed out, nor outside the arena: for every request
    below 2^63, whether it succeeds or not, every byte of every block that
    was in use (header and payload) and every byte outside the arena is left
    as it was.  (Without a free block the call can write behind the
    arena.) *)
Theorem mymalloc_keeps_client_memory st l fuel req :
  heap_ok st l -> list_ok st l \/ fresh st l -> has_free l = true ->
  0 <= req < 2 ^ 63 ->
  (length l + 1 < fuel)%nat ->
  exists p st',
    mymalloc MAX_REQUEST_SIZE fuel st req = Some (p, st') /\
    (forall c b x, block_at (segment_start st) l c b -> bfree b = false ->
                   c <= x < c + bsize b -> mem st' x = mem st x) /\
    (forall x, x < segment_start st \/
               segment_start st + segment_size st <= x ->
               mem st' x = mem st x).
Proof.
  intros Hok Hlk Hhf Hreq Hfuel.
  destruct (Z.eq_dec req 0) as [->|Hr0].
  { exists NULL, st. split; [reflexivity|]. auto. }
  assert (Hreq' : 0 < req <= W64 - 16) by (rewrite W64_val; lia).
  pose proof (mymalloc_spec MAX_REQUEST_SIZE st l fuel req Hok Hlk Hhf Hreq'
                Hfuel) as Hm.
  cbv zeta in Hm.
  destruct ((wrap64 (roundup req ALIGNMENT + nused st) >? segment_size st)
            || (roundup req ALIGNMENT >? MAX_REQUEST_SIZE)
            || (fit_addr (roundup req ALIGNMENT) (segment_start st) l =? 0)).
  { exists NULL, st. split; [exact Hm|]. auto. }
  destruct Hm as (st' & Hrun & _ & _ & _ & _ & _ & Hfr).
  destruct Hok as (_ & _ & _ & Ht & Hl).
  eexists _, st'. split; [exact Hrun|]. split.
  - intros c b x Hat Hu Hx. apply Hfr.
    exact (used_not_in_free l _ c b x Hl Hat Hu Hx).
  - intros x Hx. apply Hfr. intros Hin.
    apply in_free_range in Hin; [|exact Hl]. lia.
Qed.

(** [myfree] writes only inside free blocks and the block being released:
    every byte of every other in-use block and every byte outside the arena
    is left as it was. *)
Theorem myfree_keeps_other_blocks st l fuel c b :
  heap_ok st l -> block_at (segment_start st) l c b -> bfree b = false ->
  (length l < fuel)%nat ->
  exists st',
    myfree fuel st (c + HEADER_SIZE) = Some st' /\
    (forall c' b' x, block_at (segment_start st) l c' b' -> bfree b' = false ->
                     c' <> c -> c' <= x < c' + bsize b' ->
                     mem st' x = mem st x) /\
    (forall x, x < segment_start st \/
               segment_start st + segment_size st <= x ->
               mem st' x = mem st x).
Proof.
  intros Hok Hat Hu Hfuel.
  destruct (myfree_spec st l fuel c b Hok Hat Hfuel)
    as (st' & Hrun & _ & _ & _ & _ & _ & Hfr).
  destruct Hok as (_ & _ & _ & Ht & Hl).
  destruct (block_at_range _ _ _ _ Hl Hat) as (Hr1 & Hr2 & _).
  exists st'. split; [exact Hrun|]. split.
  - intros c' b' x Hat' Hu' Hne Hx. apply Hfr.
    + exact (used_not_in_free l _ c' b' x Hl Hat' Hu' Hx).
    + destruct (block_at_apart _ _ _ _ _ _ Hl Hat' Hat) as [[E _]|E]; lia.
  - intros x Hx. apply Hfr; [|lia]. intros Hin.
    apply in_free_range in Hin; [|exact Hl]. lia.
Qed.

(** Release followed by allocation reuses memory: once an in-use block has
    been released, a request that fits into it and passes the tests on
    [nused] and on the request bound is served, from that block or from a
    free block at a lower address. *)
Theorem release_then_allocate_reuses st l fuel c b req :
  let needed := roundup req ALIGNMENT in
  heap_ok st l -> block_at (segment_start st) l c b -> bfree b = false ->
  0 < req < 2 ^ 63 -> needed <= bsize b ->
  wrap64 (needed + nused st) <= segment_size st ->
  needed <= MAX_REQUEST_SIZE ->
  (length l + 1 < fuel)%nat ->
  exists st1 p st2,
    myfree fuel st (c + HEADER_SIZE) = Some st1 /\
    mymalloc MAX_REQUEST_SIZE fuel st1 req = Some (p, st2) /\
    p <> NULL /\
    segment_start st + HEADER_SIZE <= p <= c + HEADER_SIZE.
Proof.
  intros needed Hok Hat Hu Hreq Hn Hnu Hmax Hfuel.
  assert (Hreq' : 0 < req <= W64 - 16) by (rewrite W64_val; lia).
  destruct (myfree_spec st l fuel c b Hok Hat ltac:(lia))
    as (st1 & Hrun1 & Hok1 & Hlk1 & Es1 & Ez1 & Eu1 & _).
  pose proof Hok as (Hs & _ & _ & _ & Hl).
  set (lf := free_blocks (segment_start st) c l) in *.
  assert (Hatf : exists s, block_at (segment_start st) lf c (mkBlock s true)
                           /\ bsize b <= s).
  { destruct (block_at_split _ _ _ _ Hat) as (l1 & l2 & El & Ec).
    pose proof Hl as Hl'. rewrite El in Hl'. apply blocks_ok_app in Hl'.
    destruct Hl' as [Hl1 [_ Hl2]].
    exists (bsize b + fst (absorb l2)). split.
    - unfold lf. rewrite El, Ec, free_blocks_split by exact Hl1.
      apply block_at_app.
    - destruct (absorb_ok l2 Hl2) as (_ & H0 & _). lia. }
  destruct Hatf as (s & Hatf & Hs').
  pose proof Hok1 as (_ & _ & _ & _ & Hlf).
  pose proof (fit_addr_le needed lf (segment_start st) c (mkBlock s true) Hlf Hs
                Hatf eq_refl ltac:(simpl; lia)) as Hfit.
  assert (Hhf : has_free lf = true).
  { destruct (has_free lf) eqn:E; [reflexivity|].
    pose proof (fit_addr_none needed lf (segment_start st) E). lia. }
  assert (Hlen : (length lf + 1 < fuel)%nat).
  { destruct (block_at_split _ _ _ _ Hat) as (l1 & l2 & El & Ec).
    pose proof Hl as Hl'. rewrite El in Hl'. apply blocks_ok_app in Hl'.
    destruct Hl' as [Hl1 _].
    unfold lf. rewrite El, Ec, free_blocks_split by exact Hl1.
    rewrite El in Hfuel. rewrite length_app in *. simpl in *.
    pose proof (absorb_length l2). lia. }
  pose proof (mymalloc_spec MAX_REQUEST_SIZE st1 lf fuel req Hok1
                (or_introl Hlk1) Hhf Hreq' Hlen) as Hm.
  cbv zeta in Hm. fold needed in Hm. rewrite Es1, Ez1, Eu1 in Hm.
  destruct (Z.gtb_spec (wrap64 (needed + nused st)) (segment_size st)); [lia|].
  destruct (Z.gtb_spec needed MAX_REQUEST_SIZE); [lia|].
  destruct (Z.eqb_spec (fit_addr needed (segment_start st) lf) 0); [lia|].
  simpl in Hm. destruct Hm as (st2 & Hrun2 & _).
  exists st1, (fit_addr needed (segment_start st) lf + 8), st2.
  unfold HEADER_SIZE, NULL. repeat split; auto; lia.
Qed.

(** Set-up, allocation and release compose: on a freshly initialised arena a
    request that fits is served at [base + 8], and releasing that pointer
    gives back one free block spanning the whole arena with the free list
    built, while [nused] keeps the size of the block that had been made. *)
Theorem init_allocate_release_round_trip st heap_start heap_size req fuel :
  let needed := roundup req ALIGNMENT in
  let st0 := snd (myinit st heap_start heap_size) in
  0 < heap_start -> heap_start + heap_size < W64 ->
  24 <= heap_size -> heap_size mod 8 = 0 ->
  0 < req < 2 ^ 63 -> needed <= heap_size -> needed <= MAX_REQUEST_SIZE ->
  (2 < fuel)%nat ->
  exists st1 st2,
    mymalloc MAX_REQUEST_SIZE fuel st0 req
    = Some (heap_start + HEADER_SIZE, st1) /\
    myfree fuel st1 (heap_start + HEADER_SIZE) = Some st2 /\
    heap_ok st2 [mkBlock heap_size true] /\
    list_ok st2 [mkBlock heap_size true] /\
    nused st2 = (if heap_size - needed >=? 40 then needed else heap_size).
Proof.
  intros needed st0 Hs Hw Hsz Hsz8 Hreq Hn Hmax Hfuel.
  assert (Hreq' : 0 < req <= W64 - 16) by (rewrite W64_val; lia).
  pose proof (roundup_props req Hreq') as (Hn24 & Hn8 & _).
  fold needed in Hn24, Hn8.
  set (b := mkBlock heap_size true).
  assert (Hok0 : heap_ok st0 [b]).
  { unfold st0, myinit. simpl. rewrite placeheader_free.
    unfold heap_ok. simpl. repeat split; auto; try lia.
    rewrite load64_store64_same. unfold hdr. simpl.
    rewrite wrap64_small by lia. lia. }
  assert (Hfr0 : fresh st0 [b]) by (split; [reflexivity|now exists heap_size]).
  pose proof (mymalloc_spec MAX_REQUEST_SIZE st0 [b] fuel req Hok0
                (or_intror Hfr0) eq_refl Hreq' ltac:(simpl; lia)) as Hm.
  cbv zeta in Hm. fold needed in Hm.
  change (segment_start st0) with heap_start in Hm.
  change (segment_size st0) with heap_size in Hm.
  change (nused st0) with 0 in Hm.
  rewrite Z.add_0_r, (wrap64_small needed) in Hm by lia.
  simpl in Hm.
  destruct (Z.leb_spec needed heap_size); [|lia]. simpl in Hm.
  destruct (Z.gtb_spec needed heap_size); [lia|].
  destruct (Z.gtb_spec needed MAX_REQUEST_SIZE); [lia|].
  destruct (Z.eqb_spec heap_start 0); [lia|]. simpl in Hm.
  destruct Hm as (st1 & Hrun1 & Hok1 & _ & Es1 & _ & Eu1 & _).
  rewrite app_nil_r in Hok1.
  assert (Hat1 : exists b1, block_at (segment_start st1) (take needed b)
                              heap_start b1).
  { rewrite Es1. unfold take.
    destruct (bsize b - needed >=? 40); simpl; eexists; left; split; reflexivity. }
  destruct Hat1 as (b1 & Hat1).
  destruct (myfree_spec st1 (take needed b) fuel heap_start b1 Hok1 Hat1)
    as (st2 & Hrun2 & Hok2 & Hlk2 & _ & _ & Eu2 & _).
  { pose proof (length_take needed b). lia. }
  assert (El : free_blocks (segment_start st1) heap_start (take needed b) = [b]).
  { rewrite Es1. unfold take, b. simpl.
    destruct (Z.geb_spec (heap_size - needed) 40); simpl;
      rewrite Z.eqb_refl; simpl; f_equal; f_equal; lia. }
  rewrite El in Hok2, Hlk2.
  exists st1, st2. unfold HEADER_SIZE.
  split; [exact Hrun1|]. split; [exact Hrun2|]. split; [exact Hok2|].
  split; [exact Hlk2|].
  rewrite Eu2, Eu1.
  destruct (Z.geb_spec (heap_size - needed) 40); apply wrap64_small; lia.
Qed.

Lemma inuse_alloc needed l : forall a,
  blocks_ok l -> 0 < a -> fit_addr needed a l <> 0 ->
  inuse (alloc_blocks needed l) = inuse l + alloc_taken needed l.
Proof.
  intros a Hl Ha Hfit.
  destruct (fit_addr_split needed l a Hl Ha Hfit)
    as (l1 & b & l2 & El & _ & Ef & _ & _ & Eal & Etk).
  rewrite Eal, Etk, El, !inuse_app, inuse_take by exact Ef.
  simpl. rewrite Ef. lia.
Qed.

Lemma inuse_free l : forall a c b,
  blocks_ok l -> block_at a l c b -> bfree b = false ->
  inuse (free_blocks a c l) = inuse l - bsize b.
Proof.
  intros a c b Hl Hat Hu.
  destruct (block_at_split _ _ _ _ Hat) as (l1 & l2 & El & Ec).
  rewrite El in Hl. apply blocks_ok_app in Hl. destruct Hl as [Hl1 _].
  rewrite El, Ec, free_blocks_split, !inuse_app by exact Hl1.
  simpl. rewrite Hu, inuse_absorb. lia.
Qed.

(** On a well-formed heap that holds a free block, allocation keeps the
    books: for every request below 2^63 a successful [mymalloc] adds the
    same number of bytes, the size of the block it marks in use, to [nused]
    and to the total of the in-use block sizes; a failed one returns the
    state it was given.  (Without a free block a call served from behind
    the arena adds to [nused] alone.) *)
Theorem allocation_accounting st l fuel req :
  heap_ok st l -> list_ok st l \/ fresh st l -> has_free l = true ->
  0 <= req < 2 ^ 63 ->
  (length l + 1 < fuel)%nat ->
  exists p st',
    mymalloc MAX_REQUEST_SIZE fuel st req = Some (p, st') /\
    ((p = NULL /\ st' = st) \/
     (p <> NULL /\
      exists l' k,
        heap_ok st' l' /\
        inuse l' = inuse l + k /\
        nused st' = wrap64 (nused st + k) /\
        req + HEADER_SIZE <= k <= segment_size st)).
Proof.
  intros Hok Hlk Hhf Hreq Hfuel.
  destruct (Z.eq_dec req 0) as [->|Hr0].
  { exists NULL, st. split; [reflexivity|]. left. auto. }
  assert (Hreq' : 0 < req <= W64 - 16) by (rewrite W64_val; lia).
  pose proof (mymalloc_spec MAX_REQUEST_SIZE st l fuel req Hok Hlk Hhf Hreq'
                Hfuel) as Hm.
  cbv zeta in Hm.
  pose proof (roundup_props req Hreq') as (_ & _ & Hnreq & _).
  set (needed := roundup req ALIGNMENT) in *.
  set (f := fit_addr needed (segment_start st) l) in *.
  destruct ((wrap64 (needed + nused st) >? segment_size st)
            || (needed >? MAX_REQUEST_SIZE)) eqn:Etest; simpl in Hm.
  { exists NULL, st. split; [exact Hm|]. left. auto. }
  destruct (Z.eqb_spec f 0) as [E0|E0].
  { exists NULL, st. split; [exact Hm|]. left. auto. }
  destruct Hm as (st' & Hrun & Hok' & _ & _ & Ez & Eu & _).
  pose proof Hok as (Hs & _ & _ & _ & Hl).
  destruct (block_at_fit needed l (segment_start st) Hl Hs E0)
    as (bw & _ & _ & Hatn & Htk). fold f in Hatn.
  exists (f + 8), st'. split; [exact Hrun|]. right.
  pose proof Hok' as (_ & _ & _ & Ht' & Hl').
  destruct (block_at_range _ _ _ _ Hl' Hatn) as (Hr1 & Hr2 & _).
  simpl in Hr2. rewrite Ht', Ez in Hr2.
  split; [unfold NULL; lia|].
  exists (alloc_blocks needed l), (alloc_taken needed l).
  split; [exact Hok'|]. split; [now apply (inuse_alloc needed l (segment_start st))|].
  split; [exact Eu|]. unfold HEADER_SIZE. fold f in Hr1. lia.
Qed.

(** Release does not keep the books: it lowers the total of the in-use block
    sizes by the size of the released block and leaves [nused] where it
    was, so the counter runs ahead of the heap by that many bytes more. *)
Theorem release_accounting st l fuel c b :
  heap_ok st l -> block_at (segment_start st) l c b -> bfree b = false ->
  (length l < fuel)%nat ->
  exists st' l',
    myfree fuel st (c + HEADER_SIZE) = Some st' /\
    heap_ok st' l' /\
    inuse l' = inuse l - bsize b /\
    nused st' = nused st.
Proof.
  intros Hok Hat Hu Hfuel.
  destruct (myfree_spec st l fuel c b Hok Hat Hfuel)
    as (st' & Hrun & Hok' & _ & _ & _ & Eu & _).
  destruct Hok as (_ & _ & _ & _ & Hl).
  exists st', (free_blocks (segment_start st) c l).
  split; [exact Hrun|]. split; [exact Hok'|]. split; [|exact Eu].
  now apply inuse_free.
Qed.

(** On a heap without a free block, a request that passes the test on
    [nused] is served from beyond the arena when the word behind the arena
    reads as a free header that is large enough: [mymalloc] returns the
    arena end plus the header size and writes an in-use header at the arena
    end.  The blocks of the arena are left as they were. *)
Theorem mymalloc_allocates_past_full_heap st l fuel req w :
  let needed := roundup req ALIGNMENT in
  let e := segment_start st + segment_size st in
  heap_ok st l -> has_free l = false ->
  0 < req < 2 ^ 63 ->
  load64 (mem st) e = w -> w mod 2 = 0 -> needed <= w ->
  e + needed < W64 ->
  wrap64 (needed + nused st) <= segment_size st ->
  needed <= MAX_REQUEST_SIZE ->
  (length l < fuel)%nat ->
  exists st',
    mymalloc MAX_REQUEST_SIZE fuel st req = Some (e + HEADER_SIZE, st') /\
    heap_ok st' l /\
    isfree (mem st') e = false /\
    (forall x, x < e -> mem st' x = mem st x).
Proof.
  intros needed e Hok Hnf Hreq Hw Hw2 Hnw HeW Hnu Hmax Hfuel.
  assert (Hreq' : 0 < req <= W64 - 16) by (rewrite W64_val; lia).
  pose proof (roundup_props req Hreq') as (Hn24 & Hn8 & _).
  fold needed in Hn24, Hn8.
  pose proof (load64_range (mem st) e) as Hwr. rewrite Hw in Hwr.
  assert (Hhe : load64 (mem st) e = hdr (mkBlock w true))
    by (unfold hdr; simpl; lia).
  assert (Hfe : isfree (mem st) e = true)
    by (now rewrite (hdr_isfree _ _ _ Hhe Hw2)).
  assert (Hge : getsize (mem st) e = w)
    by (rewrite (hdr_getsize _ _ _ Hhe Hw2); simpl; lia).
  pose proof (segment_end_ok st l Hok) as He. fold e in He.
  pose proof Hok as (Hs & HW & Hc & Ht & Hl).
  pose proof (total_nonneg l Hl) as Htn.
  assert (He0 : e <> NULL) by (unfold NULL, e; lia).
  assert (Hgff : getfirstfree fuel st = Some e).
  { unfold getfirstfree. rewrite <- He.
    apply (getfirstfree_loop_full st l); auto; try lia; now rewrite He. }
  unfold mymalloc. fold needed.
  destruct (Z.leb_spec req 0); [lia|].
  destruct (Z.gtb_spec (wrap64 (needed + nused st)) (segment_size st)); [lia|].
  destruct (Z.gtb_spec needed MAX_REQUEST_SIZE); [lia|].
  rewrite Hgff. destruct (Z.eqb_spec e NULL); [contradiction|].
  destruct fuel as [|fuel']; [lia|]. cbn [fit_loop]. rewrite Hge.
  destruct (Z.ltb_spec w needed); [lia|].
  destruct (Z.eqb_spec e 0); [unfold NULL in *; lia|].
  rewrite !Hge.
  rewrite (wrap64_small (w - needed)) by lia.
  unfold HEADER_SIZE. rewrite (wrap64_small (e + 8)) by lia.
  rewrite (wrap64_small (e + needed)) by lia.
  set (st1 := if w - needed >=? 40 then _ else _).
  assert (Hst1 : segment_start st1 = segment_start st /\
                 segment_size st1 = segment_size st /\
                 (forall x, x < e -> mem st1 x = mem st x) /\
                 isfree (mem st1) e = false).
  { unfold st1. destruct (w - needed >=? 40); simpl.
    - rewrite placeheader_free, placeheader_used by (now apply mod8_mod2).
      repeat split.
      + intros x Hx. rewrite !store64_out by lia. reflexivity.
      + apply (hdr_isfree _ _ (mkBlock needed false)); [|now apply mod8_mod2].
        rewrite load64_store64_same. unfold hdr. simpl.
        apply wrap64_small. lia.
    - rewrite placeheader_used by exact Hw2. repeat split.
      + intros x Hx. rewrite store64_out by lia. reflexivity.
      + apply (hdr_isfree _ _ (mkBlock w false)); [|exact Hw2].
        rewrite load64_store64_same. unfold hdr. simpl.
        apply wrap64_small. rewrite W64_val in *. Z.div_mod_to_equations. lia. }
  destruct Hst1 as (Es1 & Ez1 & Hm1 & Hf1).
  assert (Hok1 : heap_ok st1 l).
  { unfold heap_ok. rewrite Es1, Ez1.
    split; [exact Hs|]. split; [exact HW|]. split; [|split; assumption].
    apply (chain_ext (mem st)); auto. intros x Hx. apply Hm1. unfold e. lia. }
  destruct (updatelinkedlist_spec st1 l (S fuel') Hok1 Hfuel)
    as (st2 & Hrun2 & Hok2 & _ & _ & _ & _ & Hfr).
  assert (Hall : forall x, mem st2 x = mem st1 x)
    by (intros x; apply Hfr; now apply in_links_no_free).
  rewrite Hrun2. exists st2. split; [reflexivity|]. split; [exact Hok2|].
  split.
  - unfold isfree in *. rewrite <- Hf1. f_equal. f_equal.
    apply load64_ext. intros x Hx. now apply Hall.
  - intros x Hx. rewrite Hall. now apply Hm1.
Qed.

End Extras.

(** ** The further properties on concrete heaps *)


Lemma mymalloc_keeps_client_memory_witness :
  exists p st',
    mymalloc max30 8 g128_hole 30 = Some (p, st') /\
    (forall x, x < segment_start g128_hole \/
               segment_start g128_hole + segment_size g128_hole <= x ->
               mem st' x = mem g128_hole x).
Proof.
  destruct (mymalloc_keeps_client_memory max30 g128_hole
              [mkBlock 24 false; mkBlock 32 true; mkBlock 24 false;
               mkBlock 48 true] 8 30)
    as (p & st' & Hrun & _ & Hout).
  - concrete_heap.
  - left. concrete_list.
  - reflexivity.
  - vm_compute. split; congruence.
  - simpl. lia.
  - exists p, st'. split; [exact Hrun|exact Hout].
Defined.

Lemma myfree_keeps_other_blocks_witness :
  exists st',
    myfree 8 h128_abc (1024 + HEADER_SIZE) = Some st' /\
    (forall x, x < segment_start h128_abc \/
               segment_start h128_abc + segment_size h128_abc <= x ->
               mem st' x = mem h128_abc x).
Proof.
  destruct (myfree_keeps_other_blocks h128_abc
              [mkBlock 24 false; mkBlock 24 false; mkBlock 24 false;
               mkBlock 56 true] 8 1024 (mkBlock 24 false))
    as (st' & Hrun & _ & Hout).
  - concrete_heap.
  - right. left. split; reflexivity.
  - reflexivity.
  - simpl. lia.
  - exists st'. split; [exact Hrun|exact Hout].
Defined.

Lemma release_then_allocate_reuses_witness :
  exists st1 p st2,
    myfree 8 h128_abc (1024 + HEADER_SIZE) = Some st1 /\
    mymalloc max30 8 st1 8 = Some (p, st2) /\
    p <> NULL /\
    segment_start h128_abc + HEADER_SIZE <= p <= 1024 + HEADER_SIZE.
Proof.
  apply (release_then_allocate_reuses max30 h128_abc
           [mkBlock 24 false; mkBlock 24 false; mkBlock 24 false;
            mkBlock 56 true] 8 1024 (mkBlock 24 false) 8).
  - concrete_heap.
  - right. left. split; reflexivity.
  - reflexivity.
  - vm_compute. split; congruence.
  - vm_compute. congruence.
  - vm_compute. congruence.
  - vm_compute. congruence.
  - simpl. lia.
Defined.

Lemma init_allocate_release_round_trip_witness :
  exists st1 st2,
    mymalloc max30 8 (snd (myinit boot 1000 128)) 8
    = Some (1000 + HEADER_SIZE, st1) /\
    myfree 8 st1 (1000 + HEADER_SIZE) = Some st2 /\
    heap_ok st2 [mkBlock 128 true] /\
    list_ok st2 [mkBlock 128 true] /\
    nused st2 = 24.
Proof.
  apply (init_allocate_release_round_trip max30 boot 1000 128 8 8).
  - lia.
  - vm_compute. reflexivity.
  - lia.
  - reflexivity.
  - vm_compute. split; congruence.
  - vm_compute. congruence.
  - vm_compute. congruence.
  - lia.
Defined.

Lemma allocation_accounting_witness :
  exists p st',
    mymalloc max30 8 g128_hole 30 = Some (p, st') /\
    ((p = NULL /\ st' = g128_hole) \/
     (p <> NULL /\
      exists l' k,
        heap_ok st' l' /\
        inuse l' = 48 + k /\
        nused st' = wrap64 (nused g128_hole + k) /\
        30 + HEADER_SIZE <= k <= segment_size g128_hole)).
Proof.
  apply (allocation_accounting max30 g128_hole
           [mkBlock 24 false; mkBlock 32 true; mkBlock 24 false;
            mkBlock 48 true] 8 30).
  - concrete_heap.
  - left. concrete_list.
  - reflexivity.
  - vm_compute. split; congruence.
  - simpl. lia.
Defined.

Lemma release_accounting_witness :
  exists st' l',
    myfree 8 h128_abc (1024 + HEADER_SIZE) = Some st' /\
    heap_ok st' l' /\
    inuse l' = 72 - 24 /\
    nused st' = nused h128_abc.
Proof.
  apply (release_accounting h128_abc
           [mkBlock 24 false; mkBlock 24 false; mkBlock 24 false;
            mkBlock 56 true] 8 1024 (mkBlock 24 false)).
  - concrete_heap.
  - right. left. split; reflexivity.
  - reflexivity.
  - simpl. lia.
Defined.

Lemma mymalloc_allocates_past_full_heap_witness :
  exists st',
    mymalloc max30 8 f128_beyond 8 = Some (1128 + HEADER_SIZE, st') /\
    heap_ok st' [mkBlock 64 false; mkBlock 64 false] /\
    isfree (mem st') 1128 = false.
Proof.
  destruct (mymalloc_allocates_past_full_heap max30 f128_beyond
              [mkBlock 64 false; mkBlock 64 false] 8 8 4096)
    as (st' & H1 & H2 & H3 & _).
  - concrete_heap.
  - reflexivity.
  - vm_compute. split; congruence.
  - vm_compute. reflexivity.
  - reflexivity.
  - vm_compute. congruence.
  - vm_compute. reflexivity.
  - vm_compute. congruence.
  - vm_compute. congruence.
  - simpl. lia.
  - exists st'. split; [exact H1|]. split; [exact H2|exact H3].
Defined.

(** * The implicit-list allocator *)

Ltac implicit_concrete_heap :=
  unfold Implicit.heap_ok;
  split; [vm_compute; reflexivity|];
  split; [vm_compute; reflexivity|];
  split; [vm_compute; repeat split|];
  split; [vm_compute; reflexivity|];
  vm_compute; repeat split; congruence.

Lemma implicit_placeheader_free m a s :
  Implicit.placeheader m a s 0 = store64 m a s.
Proof.
  unfold Implicit.placeheader. change (wrap64 0) with 0. now rewrite Z.lor_0_r.
Qed.

Lemma implicit_placeheader_used m a s :
  s mod 2 = 0 -> Implicit.placeheader m a s 1 = store64 m a (s + 1).
Proof.
  intros H. unfold Implicit.placeheader. change (wrap64 1) with 1.
  now rewrite lor_one.
Qed.

Lemma implicit_roundup_val sz :
  0 <= sz <= W64 - 8 ->
  Implicit.roundup sz ALIGNMENT = sz + 7 - (sz + 7) mod 8.
Proof.
  intros H. unfold Implicit.roundup, ALIGNMENT.
  change (wrap64 (8 - 1)) with 7.
  replace (sz + 8 - 1) with (sz + 7) by lia.
  rewrite W64_val in H.
  rewrite wrap64_small by (rewrite W64_val; lia).
  apply land_align_mask. rewrite W64_val. lia.
Qed.

Lemma implicit_needed_props sz :
  0 < sz <= W64 - 16 ->
  let needed := wrap64 (Implicit.roundup sz ALIGNMENT + HEADER_SIZE) in
  16 <= needed /\ needed mod 8 = 0 /\ sz + 8 <= needed <= sz + 15 /\
  needed < W64.
Proof.
  intros H needed. subst needed. rewrite W64_val in H.
  rewrite implicit_roundup_val by (rewrite W64_val; lia).
  unfold HEADER_SIZE.
  pose proof (Z.div_mod (sz + 7) 8). pose proof (Z.mod_pos_bound (sz + 7) 8).
  rewrite wrap64_small by (rewrite W64_val; lia).
  assert (E : (sz + 7 - (sz + 7) mod 8 + 8) mod 8 = 0).
  { replace (sz + 7 - (sz + 7) mod 8 + 8) with (((sz + 7) / 8 + 1) * 8) by lia.
    apply Z.mod_mul. lia. }
  rewrite W64_val. repeat split; solve [lia | exact E].
Qed.

Lemma implicit_block_ok_even b : Implicit.block_ok b -> bsize b mod 2 = 0.
Proof. intros [_ H]. now apply mod8_mod2. Qed.

Lemma implicit_total_nonneg l : Implicit.blocks_ok l -> 0 <= total l.
Proof.
  induction l as [|b l IH]; simpl; [lia|].
  intros [[H _] Hl]. specialize (IH Hl). lia.
Qed.

Lemma implicit_blocks_ok_app l1 l2 :
  Implicit.blocks_ok (l1 ++ l2) <->
  Implicit.blocks_ok l1 /\ Implicit.blocks_ok l2.
Proof. induction l1; simpl; tauto. Qed.

Lemma implicit_chain_ext m m' l : forall a,
  Implicit.blocks_ok l -> chain m a l ->
  (forall x, a <= x < a + total l -> m' x = m x) ->
  chain m' a l.
Proof.
  induction l as [|b l IH]; intros a Hok Hc Hx; simpl in *; [exact I|].
  destruct Hok as [[Hb Hb8] Hl], Hc as [Hh Hc].
  pose proof (implicit_total_nonneg l Hl). split.
  - rewrite <- Hh. apply load64_ext. intros x Hx'. apply Hx. lia.
  - apply IH; auto. intros x Hx'. apply Hx. lia.
Qed.

Lemma implicit_segment_end_ok st l :
  Implicit.heap_ok st l ->
  segment_end st = segment_start st + segment_size st.
Proof.
  intros (Hs & Hw & _ & Ht & Hok). unfold segment_end. apply wrap64_small.
  pose proof (implicit_total_nonneg l Hok). lia.
Qed.

Lemma implicit_block_at_range l : forall a c b,
  Implicit.blocks_ok l -> block_at a l c b ->
  a <= c /\ c + bsize b <= a + total l /\ Implicit.block_ok b.
Proof.
  induction l as [|b' l IH]; intros a c b Hok H; simpl in *; [tauto|].
  destruct Hok as [Hb Hl]. pose proof (implicit_total_nonneg l Hl).
  pose proof Hb as [Hb16 _].
  destruct H as [[<- <-]|H]; [split; [lia|split; [lia|exact Hb]]|].
  destruct (IH _ _ _ Hl H) as (H1 & H2 & H3).
  split; [lia|split; [lia|exact H3]].
Qed.

Lemma implicit_block_at_apart l : forall a c1 b1 c2 b2,
  Implicit.blocks_ok l -> block_at a l c1 b1 -> block_at a l c2 b2 ->
  (c1 = c2 /\ b1 = b2) \/ c1 + bsize b1 <= c2 \/ c2 + bsize b2 <= c1.
Proof.
  induction l as [|b' l IH]; intros a c1 b1 c2 b2 Hok H1 H2; simpl in *;
    [tauto|].
  destruct Hok as [Hb Hl].
  destruct H1 as [[<- <-]|H1], H2 as [[<- <-]|H2].
  - left. auto.
  - apply implicit_block_at_range in H2; auto. right. left. lia.
  - apply implicit_block_at_range in H1; auto. right. right. lia.
  - eauto.
Qed.

Lemma getsize_even_range m a :
  getsize m a mod 2 = 0 /\ 0 <= getsize m a < W64.
Proof.
  pose proof (load64_range m a) as R. unfold getsize.
  rewrite land_even_mask by exact R.
  set (w := load64 m a) in *. clearbody w.
  split; Z.div_mod_to_equations; lia.
Qed.

(** ** The scan *)

Lemma implicit_fit_addr_split needed l : forall a,
  Implicit.blocks_ok l -> 0 < a -> fit_addr needed a l <> 0 ->
  exists l1 b l2,
    l = l1 ++ b :: l2 /\
    fit_addr needed a l = a + total l1 /\
    bfree b = true /\ needed <= bsize b /\
    (forall b', In b' l1 -> bfree b' = true -> bsize b' < needed).
Proof.
  induction l as [|b l IH]; intros a Hok Ha Hfit; simpl in *; [congruence|].
  destruct Hok as [[Hb16 Hb8] Hl].
  destruct (bfree b && (needed <=? bsize b)) eqn:E.
  - apply andb_true_iff in E. destruct E as [Ef En]. apply Z.leb_le in En.
    exists [], b, l. simpl. repeat split; auto; try lia.
  - destruct (IH (a + bsize b) Hl ltac:(lia) Hfit)
      as (l1 & b1 & l2 & El & Ea & Ef & En & Hall).
    exists (b :: l1), b1, l2. simpl. rewrite Ea.
    repeat split; auto; try lia.
    + now rewrite El.
    + intros b' [<-|Hin] Hfb; [|auto].
      rewrite Hfb in E. simpl in E. apply Z.leb_gt in E. exact E.
Qed.

Lemma implicit_search_loop_spec st needed l : forall a fuel,
  chain (mem st) a l -> Implicit.blocks_ok l ->
  fit_addr needed a l <> 0 ->
  0 < a -> a + total l <= segment_end st -> segment_end st < W64 ->
  (length l <= fuel)%nat ->
  Implicit.search_loop fuel st needed a = Some (Some (fit_addr needed a l)).
Proof.
  induction l as [|b l IH]; intros a fuel Hc Hok Hfit Ha He HW Hf;
    simpl in Hc, Hok, Hfit, He, Hf |- *; [congruence|].
  destruct fuel as [|fuel]; [lia|].
  destruct Hc as [Hh Hc], Hok as [Hb Hl].
  pose proof (implicit_block_ok_even b Hb) as Heven. destruct Hb as [Hb16 Hb8].
  pose proof (implicit_total_nonneg l Hl) as Ht.
  cbn [Implicit.search_loop].
  rewrite (hdr_isfree _ a b Hh Heven).
  rewrite !(hdr_getsize _ a b Hh Heven) by lia.
  destruct (bfree b && (needed <=? bsize b)) eqn:E.
  - apply andb_true_iff in E. destruct E as [Ef En]. apply Z.leb_le in En.
    rewrite Ef. simpl.
    destruct (Z.ltb_spec (bsize b) needed); [lia|]. reflexivity.
  - assert (Hc' : negb (bfree b) || (bsize b <? needed) = true).
    { destruct (bfree b); simpl in *; [|reflexivity].
      apply Z.leb_gt in E. now apply Z.ltb_lt. }
    rewrite Hc'. rewrite (wrap64_small (a + bsize b)) by lia.
    destruct (Z.gtb_spec (a + bsize b) (segment_end st)); [lia|].
    apply IH; auto; lia.
Qed.

(** With no fitting block the scan walks over the whole arena and goes on
    at the arena end. *)
Lemma implicit_search_loop_skip st needed l : forall a fuel,
  chain (mem st) a l -> Implicit.blocks_ok l ->
  fit_addr needed a l = 0 ->
  0 < a -> a + total l = segment_end st -> segment_end st < W64 ->
  Implicit.search_loop (length l + fuel) st needed a
  = Implicit.search_loop fuel st needed (segment_end st).
Proof.
  induction l as [|b l IH]; intros a fuel Hc Hok Hfit Ha He HW;
    simpl in Hc, Hok, Hfit, He.
  - replace a with (segment_end st) by lia. reflexivity.
  - destruct Hc as [Hh Hc], Hok as [Hb Hl].
    pose proof (implicit_block_ok_even b Hb) as Heven.
    destruct Hb as [Hb16 Hb8].
    pose proof (implicit_total_nonneg l Hl) as Ht.
    change (length (b :: l) + fuel)%nat with (S (length l + fuel)).
    cbn [Implicit.search_loop].
    rewrite (hdr_isfree _ a b Hh Heven).
    rewrite !(hdr_getsize _ a b Hh Heven) by lia.
    destruct (bfree b && (needed <=? bsize b)) eqn:E; [lia|].
    assert (Hc' : negb (bfree b) || (bsize b <? needed) = true).
    { destruct (bfree b); simpl in *; [|reflexivity].
      apply Z.leb_gt in E. now apply Z.ltb_lt. }
    rewrite Hc'. rewrite (wrap64_small (a + bsize b)) by lia.
    destruct (Z.gtb_spec (a + bsize b) (segment_end st)); [lia|].
    apply IH; auto; lia.
Qed.

(** A header of size 0 at the arena end holds the scan in place. *)
Lemma implicit_search_loop_stuck st needed : forall fuel,
  0 < segment_end st ->
  getsize (mem st) (segment_end st) = 0 -> 0 < needed ->
  Implicit.search_loop fuel st needed (segment_end st) = None.
Proof.
  intros fuel He Hz Hn.
  assert (HW : 0 <= segment_end st < W64)
    by (unfold segment_end, wrap64; apply Z.mod_pos_bound; reflexivity).
  induction fuel as [|fuel IH]; [reflexivity|].
  cbn [Implicit.search_loop]. rewrite !Hz.
  destruct (Z.ltb_spec 0 needed); [|lia]. rewrite orb_true_r.
  rewrite Z.add_0_r, wrap64_small by lia.
  destruct (Z.gtb_spec (segment_end st) (segment_end st)); [lia|].
  exact IH.
Qed.

Section ImplicitProofs.

Variable MAX_REQUEST_SIZE : Z.

(** ** Allocation *)

Lemma implicit_mymalloc_spec st l1 b l2 fuel req :
  let needed := wrap64 (Implicit.roundup req ALIGNMENT + HEADER_SIZE) in
  let c := segment_start st + total l1 in
  Implicit.heap_ok st (l1 ++ b :: l2) ->
  fit_addr needed (segment_start st) (l1 ++ b :: l2) = c ->
  bfree b = true -> needed <= bsize b ->
  0 < req <= W64 - 16 ->
  wrap64 (needed + nused st) <= segment_size st ->
  needed <= MAX_REQUEST_SIZE ->
  (length (l1 ++ b :: l2) <= fuel)%nat ->
  exists st',
    Implicit.mymalloc MAX_REQUEST_SIZE fuel st req
      = Some (c + HEADER_SIZE, st') /\
    Implicit.heap_ok st' (l1 ++ Implicit.take needed b ++ l2) /\
    segment_start st' = segment_start st /\
    segment_size st' = segment_size st /\
    nused st' = wrap64 (nused st +
                        (if bsize b - needed >=? HEADER_SIZE + ALIGNMENT
                         then needed else bsize b)) /\
    load64 (mem st') c
      = (if bsize b - needed >=? HEADER_SIZE + ALIGNMENT
         then needed else bsize b) + 1 /\
    (forall x, x < c \/ c + bsize b <= x \/ c + 8 <= x < c + needed ->
               mem st' x = mem st x).
Proof.
  intros needed c Hok Hfit Hfb Hnb Hreq Hnu Hmax Hfuel.
  pose proof (implicit_needed_props req Hreq) as (Hn16 & Hn8 & Hnreq & HnW).
  fold needed in Hn16, Hn8, Hnreq, HnW.
  pose proof (implicit_segment_end_ok st _ Hok) as He.
  destruct Hok as (Hs & Hw & Hc & Ht & Hl).
  pose proof (implicit_total_nonneg _ Hl) as Htn.
  unfold Implicit.mymalloc, breakpoint. fold needed.
  destruct (Z.leb_spec req 0); [lia|].
  destruct (Z.gtb_spec (wrap64 (needed + nused st)) (segment_size st)); [lia|].
  destruct (Z.gtb_spec needed MAX_REQUEST_SIZE); [lia|].
  apply implicit_blocks_ok_app in Hl. destruct Hl as [Hl1 Hl2].
  simpl in Hl2. destruct Hl2 as [Hb Hl2].
  pose proof (implicit_block_ok_even b Hb) as Heven.
  pose proof Hb as [Hb16 Hb8].
  rewrite total_app in Ht, Htn. simpl in Ht, Htn.
  pose proof (implicit_total_nonneg l1 Hl1) as Ht1.
  pose proof (implicit_total_nonneg l2 Hl2) as Ht2.
  rewrite (implicit_search_loop_spec st needed (l1 ++ b :: l2)); auto;
    [| apply implicit_blocks_ok_app; simpl; auto
     | rewrite Hfit; unfold c; lia
     | rewrite He, total_app; simpl; lia
     | rewrite He; lia ].
  rewrite Hfit.
  apply chain_app in Hc. destruct Hc as [Hc1 Hc2].
  simpl in Hc2. destruct Hc2 as [Hh Hc2]. fold c in Hh, Hc2.
  rewrite (hdr_getsize _ c b Hh Heven) by lia.
  rewrite (wrap64_small (bsize b - needed)) by lia.
  rewrite (wrap64_small (c + HEADER_SIZE)) by (unfold HEADER_SIZE, c; lia).
  rewrite (wrap64_small (c + needed)) by (unfold c; lia).
  unfold Implicit.take.
  assert (Hmod : needed mod 2 = 0) by (now apply mod8_mod2).
  destruct (Z.geb_spec (bsize b - needed) (HEADER_SIZE + ALIGNMENT)) as [Hsp|Hsp];
    unfold HEADER_SIZE, ALIGNMENT in Hsp.
  - rewrite implicit_placeheader_free, implicit_placeheader_used by exact Hmod.
    eexists. split; [reflexivity|]. simpl.
    split; [|split; [reflexivity|split; [reflexivity|split; [reflexivity|split]]]].
    + unfold Implicit.heap_ok. simpl.
      split; [exact Hs|]. split; [exact Hw|]. split; [|split].
      * apply chain_app. split.
        -- apply (implicit_chain_ext (mem st)); auto. intros x Hx.
           rewrite !store64_out by (unfold c; lia). reflexivity.
        -- fold c. simpl. split; [|split].
           ++ rewrite load64_store64_same. unfold hdr. simpl.
              apply wrap64_small. lia.
           ++ rewrite load64_store64_other by lia.
              rewrite load64_store64_same. unfold hdr. simpl.
              rewrite wrap64_small by lia. lia.
           ++ replace (c + needed + (bsize b - needed)) with (c + bsize b) by lia.
              apply (implicit_chain_ext (mem st)); auto. intros x Hx.
              rewrite !store64_out by lia. reflexivity.
      * rewrite total_app. simpl. lia.
      * apply implicit_blocks_ok_app. split; [exact Hl1|].
        simpl. unfold Implicit.block_ok. simpl.
        split; [split; [lia|exact Hn8]|].
        split; [split; [lia|now apply sub_mod8]|exact Hl2].
    + rewrite load64_store64_same. apply wrap64_small. lia.
    + intros x Hx. rewrite !store64_out by lia. reflexivity.
  - rewrite implicit_placeheader_used by exact Heven.
    eexists. split; [reflexivity|]. simpl.
    split; [|split; [reflexivity|split; [reflexivity|split; [reflexivity|split]]]].
    + unfold Implicit.heap_ok. simpl.
      split; [exact Hs|]. split; [exact Hw|]. split; [|split].
      * apply chain_app. split.
        -- apply (implicit_chain_ext (mem st)); auto. intros x Hx.
           rewrite !store64_out by (unfold c; lia). reflexivity.
        -- fold c. simpl. split.
           ++ rewrite load64_store64_same. unfold hdr. simpl.
              apply wrap64_small. lia.
           ++ apply (implicit_chain_ext (mem st)); auto. intros x Hx.
              rewrite !store64_out by lia. reflexivity.
      * rewrite total_app. simpl. lia.
      * apply implicit_blocks_ok_app. split; [exact Hl1|].
        simpl. unfold Implicit.block_ok. simpl.
        split; [split; [lia|exact Hb8]|exact Hl2].
    + rewrite load64_store64_same. apply wrap64_small. lia.
    + intros x Hx. rewrite !store64_out by lia. reflexivity.
Qed.

End ImplicitProofs.

(** ** Release *)

Lemma implicit_myfree_spec st l1 b l2 :
  Implicit.heap_ok st (l1 ++ b :: l2) ->
  let c := segment_start st + total l1 in
  let st' := Implicit.myfree st (c + HEADER_SIZE) in
  Implicit.heap_ok st' (l1 ++ mkBlock (bsize b) true :: l2) /\
  segment_start st' = segment_start st /\
  segment_size st' = segment_size st /\
  nused st' = nused st.
Proof.
  intros Hok c st'. subst st'.
  destruct Hok as (Hs & Hw & Hc & Ht & Hl).
  apply implicit_blocks_ok_app in Hl. destruct Hl as [Hl1 Hl2].
  simpl in Hl2. destruct Hl2 as [Hb Hl2].
  pose proof (implicit_block_ok_even b Hb) as Heven.
  pose proof Hb as [Hb16 Hb8].
  rewrite total_app in Ht. simpl in Ht.
  pose proof (implicit_total_nonneg l1 Hl1) as Ht1.
  pose proof (implicit_total_nonneg l2 Hl2) as Ht2.
  apply chain_app in Hc. destruct Hc as [Hc1 Hc2].
  simpl in Hc2. destruct Hc2 as [Hh Hc2]. fold c in Hh, Hc2.
  unfold Implicit.myfree, HEADER_SIZE, NULL.
  destruct (Z.eqb_spec (c + 8) 0); [unfold c in *; lia|].
  replace (c + 8 - 8) with c by lia.
  rewrite (wrap64_small c) by (unfold c; lia).
  fold (getsize (mem st) c).
  rewrite (hdr_getsize _ c b Hh Heven) by lia.
  split; [|repeat split].
  unfold Implicit.heap_ok. simpl.
  split; [exact Hs|]. split; [exact Hw|]. split; [|split].
  - apply chain_app. split.
    + apply (implicit_chain_ext (mem st)); auto. intros x Hx.
      rewrite store64_out by (unfold c; lia). reflexivity.
    + fold c. simpl. split.
      * rewrite load64_store64_same. unfold hdr. simpl.
        rewrite wrap64_small by lia. lia.
      * apply (implicit_chain_ext (mem st)); auto. intros x Hx.
        rewrite store64_out by lia. reflexivity.
  - rewrite total_app. simpl. lia.
  - apply implicit_blocks_ok_app. split; [exact Hl1|].
    simpl. unfold Implicit.block_ok. simpl. auto.
Qed.

(** ** More fuel does not change a result *)

Lemma implicit_search_loop_mono st needed : forall fuel a r,
  Implicit.search_loop fuel st needed a = Some r ->
  forall fuel', (fuel <= fuel')%nat ->
  Implicit.search_loop fuel' st needed a = Some r.
Proof.
  induction fuel as [|fuel IH]; intros a r H fuel' Hle; [discriminate|].
  destruct fuel' as [|fuel']; [lia|].
  revert H. cbn [Implicit.search_loop].
  destruct (negb (isfree (mem st) a) || (getsize (mem st) a <? needed));
    [|auto].
  destruct (wrap64 (a + getsize (mem st) a) >? segment_end st); [auto|].
  intros H. apply (IH _ _ H). lia.
Qed.

Lemma implicit_mymalloc_mono max st req fuel fuel' x :
  Implicit.mymalloc max fuel st req = Some x -> (fuel <= fuel')%nat ->
  Implicit.mymalloc max fuel' st req = Some x.
Proof.
  unfold Implicit.mymalloc, breakpoint. intros H Hle. revert H.
  destruct (req <=? 0); [auto|].
  set (needed := wrap64 (Implicit.roundup req ALIGNMENT + HEADER_SIZE)).
  destruct (wrap64 (needed + nused st) >? segment_size st); [auto|].
  destruct (needed >? max); [auto|].
  destruct (Implicit.search_loop fuel st needed (segment_start st))
    as [r|] eqn:E; [|discriminate].
  rewrite (implicit_search_loop_mono _ _ _ _ _ E _ Hle). auto.
Qed.

(** ** Lists of blocks *)

Lemma implicit_total_take needed b : total (Implicit.take needed b) = bsize b.
Proof.
  unfold Implicit.take.
  destruct (bsize b - needed >=? HEADER_SIZE + ALIGNMENT); simpl; lia.
Qed.

Lemma implicit_fit_addr_tail needed t : forall l0 a,
  Implicit.blocks_ok l0 -> 0 < a -> needed <= t ->
  fit_addr needed a (l0 ++ [mkBlock t true]) <> 0.
Proof.
  induction l0 as [|b l0 IH]; intros a Hl Ha Ht; simpl in *.
  - destruct (Z.leb_spec needed t); simpl; lia.
  - destruct Hl as [[Hb16 _] Hl].
    destruct (bfree b && (needed <=? bsize b)); [lia|].
    apply IH; auto. lia.
Qed.

Lemma fit_addr_used_prefix needed : forall l1 a b l2,
  (forall b', In b' l1 -> bfree b' = false) ->
  bfree b = true -> needed <= bsize b ->
  fit_addr needed a (l1 ++ b :: l2) = a + total l1.
Proof.
  induction l1 as [|b1 l1 IH]; intros a b l2 Hu Hf Hn; simpl.
  - rewrite Hf. destruct (Z.leb_spec needed (bsize b)); simpl; lia.
  - rewrite (Hu b1) by (left; reflexivity). simpl.
    rewrite IH; auto; [lia|]. intros b' Hin. apply Hu. now right.
Qed.

Lemma fit_addr_all_used needed : forall l1 a,
  (forall b', In b' l1 -> bfree b' = false) -> fit_addr needed a l1 = 0.
Proof.
  induction l1 as [|b1 l1 IH]; intros a Hu; simpl; [reflexivity|].
  rewrite (Hu b1) by (left; reflexivity). simpl.
  apply IH. intros b' Hin. apply Hu. now right.
Qed.

Lemma split_last_block (l1 : list block) b l2 l0 t :
  l1 ++ b :: l2 = l0 ++ [t] ->
  (l2 = [] /\ l1 = l0 /\ b = t) \/
  (exists l2', l2 = l2' ++ [t] /\ l0 = l1 ++ b :: l2').
Proof.
  intros H. destruct l2 as [|x l2 _] using rev_ind.
  - apply app_inj_tail in H. destruct H as [H1 H2]. left. auto.
  - right. exists l2.
    change (l1 ++ b :: l2 ++ [x]) with (l1 ++ (b :: l2) ++ [x]) in H.
    rewrite app_assoc in H. apply app_inj_tail in H. destruct H as [H1 H2].
    subst. auto.
Qed.

Lemma implicit_chain_unique m : forall l l' a,
  Implicit.blocks_ok l -> Implicit.blocks_ok l' ->
  chain m a l -> chain m a l' -> total l = total l' -> l = l'.
Proof.
  induction l as [|b l IH]; intros [|b' l'] a Hl Hl' Hc Hc' Ht; simpl in *.
  - reflexivity.
  - destruct Hl' as [[H16 _] Hl']. pose proof (implicit_total_nonneg l' Hl'). lia.
  - destruct Hl as [[H16 _] Hl]. pose proof (implicit_total_nonneg l Hl). lia.
  - destruct Hl as [[Hb16 Hb8] Hl], Hl' as [[Hb16' Hb8'] Hl'].
    destruct Hc as [Hh Hc], Hc' as [Hh' Hc'].
    assert (E : b = b').
    { rewrite Hh in Hh'. unfold hdr in Hh'.
      destruct b as [s f], b' as [s' f']; simpl in *.
      destruct f, f'; try (f_equal; lia);
        exfalso; Z.div_mod_to_equations; lia. }
    subst b'. f_equal. apply (IH l' (a + bsize b)); auto. lia.
Qed.

Lemma inuse_le_total l : Implicit.blocks_ok l -> inuse l <= total l.
Proof.
  induction l as [|b l IH]; simpl; [lia|].
  intros [[Hb _] Hl]. specialize (IH Hl). destruct (bfree b); lia.
Qed.

(** ** The accounting invariant *)

Lemma implicit_myinit_inv st0 hs sz :
  0 < hs -> hs + sz < W64 -> 16 <= sz -> sz mod 8 = 0 ->
  Implicit.heap_inv (snd (Implicit.myinit st0 hs sz)) [mkBlock sz true].
Proof.
  intros H1 H2 H3 H4. unfold Implicit.myinit. simpl. split.
  - unfold Implicit.heap_ok. simpl. rewrite implicit_placeheader_free.
    split; [exact H1|]. split; [exact H2|]. split; [|split].
    + split; [|exact I]. rewrite load64_store64_same. unfold hdr. simpl.
      rewrite wrap64_small by lia. lia.
    + lia.
    + unfold Implicit.block_ok. simpl. auto.
  - exists [], [mkBlock sz true]. simpl. split; [reflexivity|].
    split; [right; eexists; reflexivity|]. lia.
Qed.

Lemma implicit_myfree_inv st l1 b l2 :
  Implicit.heap_inv st (l1 ++ b :: l2) ->
  Implicit.heap_inv
    (Implicit.myfree st (segment_start st + total l1 + HEADER_SIZE))
    (l1 ++ mkBlock (bsize b) true :: l2).
Proof.
  intros [Hok (l0 & tl & El & Htl & Hacc)].
  destruct (implicit_myfree_spec st l1 b l2 Hok) as (Hok' & Es & Ez & Eu).
  split; [exact Hok'|]. rewrite Eu, Ez.
  destruct Htl as [->|[t ->]].
  - rewrite app_nil_r in El. subst l0.
    exists (l1 ++ mkBlock (bsize b) true :: l2), []. rewrite app_nil_r.
    split; [reflexivity|]. split; [left; reflexivity|].
    rewrite total_app in *. simpl in *. lia.
  - destruct (split_last_block _ _ _ _ _ El) as [(E2 & E1 & Eb)|(l2' & E2 & E0)].
    + subst l2 l1 b. exists l0, [mkBlock t true]. simpl.
      split; [reflexivity|]. split; [right; eexists; reflexivity|]. exact Hacc.
    + subst l2 l0. exists (l1 ++ mkBlock (bsize b) true :: l2'), [mkBlock t true].
      split; [now rewrite <- app_assoc|].
      split; [right; eexists; reflexivity|].
      rewrite total_app in *. simpl in *. lia.
Qed.

Lemma implicit_mymalloc_inv max st l fuel req :
  let needed := wrap64 (Implicit.roundup req ALIGNMENT + HEADER_SIZE) in
  Implicit.heap_inv st l -> max + segment_size st + 8 < W64 ->
  0 < req <= W64 - 16 -> (length l <= fuel)%nat ->
  exists p st' l',
    Implicit.mymalloc max fuel st req = Some (p, st') /\
    Implicit.heap_inv st' l' /\
    segment_start st' = segment_start st /\
    segment_size st' = segment_size st /\
    (p = NULL <->
     wrap64 (needed + nused st) > segment_size st \/ needed > max) /\
    (p = NULL -> st' = st) /\
    (p <> NULL ->
       p = fit_addr needed (segment_start st) l + HEADER_SIZE /\
       segment_start st + HEADER_SIZE <= p /\
       p + req <= segment_start st + segment_size st /\
       nused st < nused st').
Proof.
  intros needed Hinv HB Hreq Hfuel.
  pose proof (implicit_needed_props req Hreq) as (Hn16 & Hn8 & Hnreq & HnW).
  fold needed in Hn16, Hn8, Hnreq, HnW.
  assert (Hfail :
    wrap64 (needed + nused st) > segment_size st \/ needed > max ->
    Implicit.mymalloc max fuel st req = Some (NULL, st)).
  { intros Hor. unfold Implicit.mymalloc, breakpoint. fold needed.
    destruct (Z.leb_spec req 0); [reflexivity|].
    destruct (Z.gtb_spec (wrap64 (needed + nused st)) (segment_size st));
      [reflexivity|].
    destruct (Z.gtb_spec needed max); [reflexivity|]. lia. }
  destruct (Z_le_gt_dec (wrap64 (needed + nused st)) (segment_size st))
    as [H1|H1];
    [destruct (Z_le_gt_dec needed max) as [H2|H2]|].
  2,3: exists NULL, st, l;
       (split; [apply Hfail; auto|]); (split; [exact Hinv|]);
       (split; [reflexivity|]); (split; [reflexivity|]);
       (split; [split; auto|]); (split; [reflexivity|]);
       intros Hp; contradiction.
  destruct Hinv as [Hok (l0 & tl & El & Htl & Hacc)].
  pose proof Hok as (Hs & HW & Hc & Ht & Hl).
  assert (Hl0 : Implicit.blocks_ok l0).
  { rewrite El in Hl. now apply implicit_blocks_ok_app in Hl. }
  pose proof (implicit_total_nonneg l0 Hl0) as Ht0.
  assert (Hsum : needed + nused st <= segment_size st).
  { rewrite wrap64_small in H1 by lia. exact H1. }
  destruct Htl as [Etl|[t Etl]]; subst tl.
  { rewrite app_nil_r in El. subst l0. lia. }
  assert (Htt : needed <= t).
  { rewrite El, total_app in Ht. simpl in Ht. lia. }
  assert (Hfit : fit_addr needed (segment_start st) l <> 0).
  { rewrite El. now apply implicit_fit_addr_tail. }
  destruct (implicit_fit_addr_split needed l (segment_start st) Hl Hs Hfit)
    as (l1 & b & l2 & El' & Ea & Ef & En & _).
  rewrite Ea. clear Hfit.
  assert (El2 : l1 ++ b :: l2 = l0 ++ [mkBlock t true])
    by (rewrite <- El', El; reflexivity).
  clear El. subst l.
  destruct (implicit_mymalloc_spec max st l1 b l2 fuel req
              Hok Ea Ef En Hreq H1 H2 Hfuel)
    as (st' & Hrun & Hok1 & Es & Ez & Eu & _ & _).
  fold needed in Hok1, Eu.
  apply implicit_blocks_ok_app in Hl. destruct Hl as [Hl1 Hl2].
  simpl in Hl2. destruct Hl2 as [[Hb16 Hb8] Hl2].
  pose proof (implicit_total_nonneg l1 Hl1) as Ht1.
  pose proof (implicit_total_nonneg l2 Hl2) as Ht2.
  rewrite total_app in Ht. simpl in Ht.
  set (taken := if bsize b - needed >=? HEADER_SIZE + ALIGNMENT
                then needed else bsize b) in *.
  assert (Htk : needed <= taken <= needed + 8 /\ taken <= bsize b).
  { unfold taken, HEADER_SIZE, ALIGNMENT.
    destruct (Z.geb_spec (bsize b - needed) (8 + 8)); [lia|].
    Z.div_mod_to_equations. lia. }
  rewrite wrap64_small in Eu by lia.
  exists (segment_start st + total l1 + HEADER_SIZE), st',
         (l1 ++ Implicit.take needed b ++ l2).
  split; [exact Hrun|].
  split; [split; [exact Hok1|]|].
  { rewrite Eu, Ez.
    destruct (split_last_block _ _ _ _ _ El2) as [(E2 & E1 & Eb)|(l2' & E2 & E0)].
    - subst l2 l1 b. unfold Implicit.take, taken. simpl bsize in *.
      change (HEADER_SIZE + ALIGNMENT) with 16.
      destruct (Z.geb_spec (t - needed) 16) as [Hsp|Hsp].
      + exists (l0 ++ [mkBlock needed false]), [mkBlock (t - needed) true].
        split; [now rewrite <- app_assoc|].
        split; [right; eexists; reflexivity|].
        rewrite total_app. simpl. lia.
      + exists (l0 ++ [mkBlock t false]), [].
        split; [now rewrite !app_nil_r|]. split; [left; reflexivity|].
        rewrite total_app. simpl. Z.div_mod_to_equations. lia.
    - subst l2 l0.
      exists (l1 ++ Implicit.take needed b ++ l2'), [mkBlock t true].
      split; [now rewrite <- !app_assoc|].
      split; [right; eexists; reflexivity|].
      rewrite !total_app, implicit_total_take.
      rewrite total_app in Hacc. simpl in Hacc. lia. }
  split; [exact Es|]. split; [exact Ez|].
  unfold NULL, HEADER_SIZE.
  split; [split; [lia|intros [?|?]; lia]|].
  split; [intros; lia|].
  intros _. split; [reflexivity|]. split; [lia|]. split; lia.
Qed.

Lemma implicit_reachable_inv max st :
  Implicit.reachable max st ->
  exists l, Implicit.heap_inv st l /\ max + segment_size st + 8 < W64.
Proof.
  induction 1 as [st0 hs sz H1 H2 H3 H4 H5
                 | st fuel req p st' Hr IH Hreq Hrun
                 | st l c b Hr IH Hok Hat].
  - exists [mkBlock sz true]. split; [now apply implicit_myinit_inv|].
    simpl. exact H5.
  - destruct IH as (l & Hinv & HB).
    destruct (Z.eq_dec req 0) as [E0|Hnz].
    + subst req. unfold Implicit.mymalloc, breakpoint in Hrun. simpl in Hrun.
      injection Hrun as _ <-. exists l. auto.
    + destruct (implicit_mymalloc_inv max st l (Nat.max fuel (length l)) req
                  Hinv HB ltac:(lia) ltac:(lia))
        as (p' & st'' & l' & Hrun' & Hinv' & Es & Ez & _).
      pose proof (implicit_mymalloc_mono _ _ _ _ (Nat.max fuel (length l)) _
                    Hrun ltac:(lia)) as Hrun2.
      rewrite Hrun2 in Hrun'. injection Hrun' as <- <-.
      exists l'. split; [exact Hinv'|]. rewrite Ez. exact HB.
  - destruct IH as (l' & Hinv & HB).
    assert (E : l' = l).
    { destruct Hinv as [(_ & _ & Hc' & Ht' & Hl') _].
      destruct Hok as (_ & _ & Hc & Ht & Hl).
      apply (implicit_chain_unique (mem st) l' l (segment_start st)); auto.
      lia. }
    subst l'.
    destruct (block_at_split _ _ _ _ Hat) as (l1 & l2 & El & Ec). subst l c.
    exists (l1 ++ mkBlock (bsize b) true :: l2).
    split; [now apply implicit_myfree_inv|].
    destruct (implicit_myfree_spec st l1 b l2 Hok) as (_ & _ & Ez & _).
    rewrite Ez. exact HB.
Qed.

(** ** A header of size 0 in use stops every scan that reaches it *)

Lemma implicit_search_loop_trap st needed c : forall l1 a fuel,
  chain (mem st) a l1 -> Implicit.blocks_ok l1 ->
  fit_addr needed a l1 = 0 -> 0 < a -> a + total l1 = c ->
  c <= segment_end st -> segment_end st < W64 ->
  isfree (mem st) c = false -> getsize (mem st) c = 0 ->
  Implicit.search_loop fuel st needed a = None.
Proof.
  induction l1 as [|b l1 IH]; intros a fuel Hc Hok Hfit Ha Hac Hce HW Hu Hz;
    simpl in Hc, Hok, Hfit, Hac.
  - assert (a = c) by lia. subst a. clear Hac.
    induction fuel as [|fuel IHf]; [reflexivity|].
    cbn [Implicit.search_loop]. rewrite Hu, !Hz. simpl.
    rewrite Z.add_0_r, wrap64_small by lia.
    destruct (Z.gtb_spec c (segment_end st)); [lia|]. exact IHf.
  - destruct fuel as [|fuel]; [reflexivity|].
    destruct Hc as [Hh Hc], Hok as [Hb Hl].
    pose proof (implicit_block_ok_even b Hb) as Heven.
    destruct Hb as [Hb16 Hb8].
    pose proof (implicit_total_nonneg l1 Hl) as Ht.
    cbn [Implicit.search_loop].
    rewrite (hdr_isfree _ a b Hh Heven).
    rewrite !(hdr_getsize _ a b Hh Heven) by lia.
    destruct (bfree b && (needed <=? bsize b)) eqn:E; [lia|].
    assert (Hc' : negb (bfree b) || (bsize b <? needed) = true).
    { destruct (bfree b); simpl in *; [|reflexivity].
      apply Z.leb_gt in E. now apply Z.ltb_lt. }
    rewrite Hc'. rewrite (wrap64_small (a + bsize b)) by lia.
    destruct (Z.gtb_spec (a + bsize b) (segment_end st)); [lia|].
    apply IH; auto; lia.
Qed.

Lemma implicit_needed_wrapped req :
  W64 - 16 < req <= W64 - 8 ->
  wrap64 (Implicit.roundup req ALIGNMENT + HEADER_SIZE) = 0.
Proof.
  intros H. rewrite W64_val in H.
  rewrite implicit_roundup_val by (rewrite W64_val; lia). unfold HEADER_SIZE.
  assert (E : req + 7 - (req + 7) mod 8 = W64 - 8).
  { rewrite W64_val. Z.div_mod_to_equations. lia. }
  rewrite E. replace (W64 - 8 + 8) with (1 * W64) by lia.
  unfold wrap64. apply Z.mod_mul. rewrite W64_val. lia.
Qed.

(** * Properties of the implicit-list allocator *)

(** [roundup] of implicit.c is plain rounding: at the alignment of 8 the
    result is a multiple of 8; for sizes up to 2^64 - 8 it is the least such
    multiple not below the size, and the seven sizes above wrap to 0. *)
Theorem implicit_roundup_rounds sz :
  0 <= sz < W64 ->
  let r := Implicit.roundup sz ALIGNMENT in
  r mod 8 = 0 /\
  (sz <= W64 - 8 -> sz <= r < sz + 8) /\
  (W64 - 8 < sz -> r = 0).
Proof.
  intros H r. subst r.
  destruct (Z.le_gt_cases sz (W64 - 8)) as [Hs|Hs].
  - rewrite implicit_roundup_val by lia.
    pose proof (Z.div_mod (sz + 7) 8). pose proof (Z.mod_pos_bound (sz + 7) 8).
    split; [|split; [intros _; lia | intros; lia]].
    replace (sz + 7 - (sz + 7) mod 8) with ((sz + 7) / 8 * 8) by lia.
    apply Z.mod_mul. lia.
  - unfold Implicit.roundup, ALIGNMENT. change (wrap64 (8 - 1)) with 7.
    assert (E : wrap64 (sz + 8 - 1) = sz + 7 - W64).
    { unfold wrap64. symmetry. apply Z.mod_unique with 1; rewrite W64_val in *; lia. }
    rewrite E, land_align_mask by (rewrite W64_val in *; lia).
    rewrite (Z.mod_small (sz + 7 - W64) 8) by (rewrite W64_val in *; lia).
    rewrite Z.sub_diag. split; [reflexivity|]. split; [lia|reflexivity].
Qed.

Lemma implicit_roundup_rounds_witness :
  let r := Implicit.roundup 13 ALIGNMENT in
  r mod 8 = 0 /\
  (13 <= W64 - 8 -> 13 <= r < 13 + 8) /\
  (W64 - 8 < 13 -> r = 0).
Proof.
  apply (implicit_roundup_rounds 13). rewrite W64_val. lia.
Defined.

(** [myfree] of implicit.c only clears the status bit of the header in front
    of the pointer: the size stays, no other byte changes, nothing is merged
    and [nused] is not decremented. *)
Theorem implicit_myfree_clears_status_only st ptr :
  ptr <> NULL ->
  let c := wrap64 (ptr - HEADER_SIZE) in
  let st' := Implicit.myfree st ptr in
  isfree (mem st') c = true /\
  getsize (mem st') c = getsize (mem st) c /\
  (forall x, x < c \/ c + 8 <= x -> mem st' x = mem st x) /\
  segment_start st' = segment_start st /\
  segment_size st' = segment_size st /\
  nused st' = nused st.
Proof.
  intros Hp c st'. subst st'. unfold Implicit.myfree.
  destruct (Z.eqb_spec ptr NULL); [contradiction|]. fold c. simpl.
  fold (getsize (mem st) c).
  destruct (getsize_even_range (mem st) c) as [Hev Hr].
  set (v := getsize (mem st) c) in *.
  assert (Hh : load64 (store64 (mem st) c v) c = hdr (mkBlock v true)).
  { rewrite load64_store64_same. unfold hdr. simpl.
    rewrite wrap64_small by lia. lia. }
  split; [|split; [|split; [|repeat split]]].
  - now rewrite (hdr_isfree _ _ _ Hh Hev).
  - rewrite (hdr_getsize _ _ _ Hh Hev); simpl; lia.
  - intros x Hx. apply store64_out. lia.
Qed.

Lemma implicit_myfree_clears_status_only_witness :
  isfree (mem (Implicit.myfree Implicit.i128_abc 1024)) 1016 = true /\
  getsize (mem (Implicit.myfree Implicit.i128_abc 1024)) 1016
  = getsize (mem Implicit.i128_abc) 1016 /\
  nused (Implicit.myfree Implicit.i128_abc 1024) = nused Implicit.i128_abc.
Proof.
  destruct (implicit_myfree_clears_status_only Implicit.i128_abc 1024)
    as (H1 & H2 & _ & _ & _ & H3).
  - unfold NULL. lia.
  - split; [exact H1|]. split; [exact H2|exact H3].
Defined.

(** Releasing a block of a well-formed implicit heap turns that block free
    and leaves the block sequence otherwise as it was: free neighbours on
    either side stay separate blocks. *)
Theorem implicit_myfree_never_merges st l1 b l2 :
  Implicit.heap_ok st (l1 ++ b :: l2) ->
  let c := segment_start st + total l1 in
  let st' := Implicit.myfree st (c + HEADER_SIZE) in
  Implicit.heap_ok st' (l1 ++ mkBlock (bsize b) true :: l2) /\
  nused st' = nused st.
Proof.
  intros Hok c st'.
  destruct (implicit_myfree_spec st l1 b l2 Hok) as (H1 & _ & _ & H2).
  split; [exact H1|exact H2].
Qed.

Lemma implicit_myfree_never_merges_witness :
  Implicit.heap_ok (Implicit.myfree Implicit.i128_holes 1048)
    [mkBlock 16 true; mkBlock 24 true; mkBlock 16 true; mkBlock 72 true] /\
  nused (Implicit.myfree Implicit.i128_holes 1048) = nused Implicit.i128_holes.
Proof.
  apply (implicit_myfree_never_merges Implicit.i128_holes
           [mkBlock 16 true; mkBlock 24 true] (mkBlock 16 false)
           [mkBlock 72 true]).
  implicit_concrete_heap.
Defined.

Section ImplicitExtras.

Variable MAX_REQUEST_SIZE : Z.

(** [mymalloc] of implicit.c is first fit over all blocks in address order:
    with [needed] the request rounded up to a multiple of 8 plus the header,
    it takes the first free block of at least [needed] bytes, returns the
    address behind its header, splits off the remainder as a free block when
    the remainder is at least 16 bytes and otherwise takes the whole block,
    adds the size of the block made to [nused], and writes neither outside
    the block it takes nor into the payload it hands out. *)
Theorem implicit_mymalloc_takes_first_fit st l fuel req :
  let needed := wrap64 (Implicit.roundup req ALIGNMENT + HEADER_SIZE) in
  Implicit.heap_ok st l ->
  0 < req <= W64 - 16 ->
  wrap64 (needed + nused st) <= segment_size st ->
  needed <= MAX_REQUEST_SIZE ->
  fit_addr needed (segment_start st) l <> 0 ->
  (length l <= fuel)%nat ->
  exists l1 b l2 st',
    l = l1 ++ b :: l2 /\
    bfree b = true /\ needed <= bsize b /\
    (forall b', In b' l1 -> bfree b' = true -> bsize b' < needed) /\
    req + HEADER_SIZE <= needed /\
    Implicit.mymalloc MAX_REQUEST_SIZE fuel st req
      = Some (segment_start st + total l1 + HEADER_SIZE, st') /\
    Implicit.heap_ok st' (l1 ++ Implicit.take needed b ++ l2) /\
    nused st' = wrap64 (nused st +
                        (if bsize b - needed >=? 16 then needed else bsize b)) /\
    (forall x, x < segment_start st + total l1 \/
               segment_start st + total l1 + bsize b <= x \/
               segment_start st + total l1 + HEADER_SIZE <= x
               < segment_start st + total l1 + needed ->
               mem st' x = mem st x).
Proof.
  intros needed Hok Hreq Hnu Hmax Hfit Hfuel.
  pose proof (implicit_needed_props req Hreq) as (_ & _ & Hnreq & _).
  fold needed in Hnreq.
  pose proof Hok as (Hs & _ & _ & _ & Hl).
  destruct (implicit_fit_addr_split needed l (segment_start st) Hl Hs Hfit)
    as (l1 & b & l2 & El & Ea & Ef & En & Hall).
  subst l.
  destruct (implicit_mymalloc_spec MAX_REQUEST_SIZE st l1 b l2 fuel req
              Hok Ea Ef En Hreq Hnu Hmax Hfuel)
    as (st' & Hrun & Hok' & _ & _ & Eu & _ & Hfr).
  exists l1, b, l2, st'.
  split; [reflexivity|]. split; [exact Ef|]. split; [exact En|].
  split; [exact Hall|]. split; [unfold HEADER_SIZE; lia|].
  split; [exact Hrun|]. split; [exact Hok'|]. split; [exact Eu|exact Hfr].
Qed.

End ImplicitExtras.

Lemma implicit_mymalloc_takes_first_fit_witness :
  exists l1 b l2 st',
    [mkBlock 16 true; mkBlock 24 true; mkBlock 16 false; mkBlock 72 true]
    = l1 ++ b :: l2 /\
    Implicit.mymalloc max30 8 Implicit.i128_holes 12
      = Some (segment_start Implicit.i128_holes + total l1 + HEADER_SIZE, st') /\
    Implicit.heap_ok st'
      (l1 ++ Implicit.take
               (wrap64 (Implicit.roundup 12 ALIGNMENT + HEADER_SIZE)) b ++ l2).
Proof.
  destruct (implicit_mymalloc_takes_first_fit max30 Implicit.i128_holes
              [mkBlock 16 true; mkBlock 24 true; mkBlock 16 false;
               mkBlock 72 true] 8 12)
    as (l1 & b & l2 & st' & H1 & _ & _ & _ & _ & H2 & H3 & _).
  - implicit_concrete_heap.
  - rewrite W64_val. lia.
  - vm_compute. congruence.
  - vm_compute. congruence.
  - vm_compute. congruence.
  - simpl. lia.
  - exists l1, b, l2, st'. split; [exact H1|]. split; [exact H2|exact H3].
Defined.

Section ImplicitResize.

Variable MAX_REQUEST_SIZE : Z.

(** [myrealloc] of implicit.c always moves: with a fitting free block it
    returns the payload of that block, never the old address; the bytes
    copied are the minimum of the requested size and the old block size cut
    to 32 bits, so that many leading payload bytes are preserved; the old
    block is then marked free with its size kept, and the new one is in
    use. *)
Theorem implicit_myrealloc_moves st l fuel co bo new_size :
  let needed := wrap64 (Implicit.roundup new_size ALIGNMENT + HEADER_SIZE) in
  let f := fit_addr needed (segment_start st) l in
  let cnt := Z.min (bsize bo mod 2 ^ 32) new_size in
  Implicit.heap_ok st l ->
  block_at (segment_start st) l co bo -> bfree bo = false ->
  0 < new_size <= W64 - 16 ->
  wrap64 (needed + nused st) <= segment_size st ->
  needed <= MAX_REQUEST_SIZE ->
  f <> 0 ->
  (length l <= fuel)%nat ->
  exists st',
    Implicit.myrealloc MAX_REQUEST_SIZE fuel st (co + HEADER_SIZE) new_size
      = Some (f + HEADER_SIZE, st') /\
    f <> co /\
    (forall i, 0 <= i < cnt -> i < bsize bo - HEADER_SIZE ->
       mem st' (f + HEADER_SIZE + i) = mem st (co + HEADER_SIZE + i)) /\
    isfree (mem st') co = true /\
    getsize (mem st') co = bsize bo /\
    isfree (mem st') f = false.
Proof.
  intros needed f cnt Hok Hat Hu Hreq Hnu Hmax Hfit Hfuel.
  pose proof (implicit_needed_props new_size Hreq) as (Hn16 & Hn8 & Hnreq & HnW).
  fold needed in Hn16, Hn8, Hnreq, HnW.
  pose proof Hok as (Hs & HW & Hc & Ht & Hl).
  destruct (implicit_fit_addr_split needed l (segment_start st) Hl Hs Hfit)
    as (l1 & b & l2 & El & Ea & Ef & En & _).
  fold f in Ea.
  assert (Hatb : block_at (segment_start st) l f b).
  { rewrite El, Ea. apply block_at_app_r. simpl. left. auto. }
  destruct (implicit_block_at_range _ _ _ _ Hl Hatb) as (Hb1 & Hb2 & [Hb16 Hb8]).
  destruct (implicit_block_at_range _ _ _ _ Hl Hat) as (Ho1 & Ho2 & [Ho16 Ho8]).
  assert (Hap : f + bsize b <= co \/ co + bsize bo <= f).
  { destruct (implicit_block_at_apart _ _ _ _ _ _ Hl Hatb Hat)
      as [[_ Eb]|Hap]; [|exact Hap]. subst bo. congruence. }
  pose proof (chain_block_at _ _ _ _ _ Hc Hat) as Hho.
  assert (Hevo : bsize bo mod 2 = 0) by (now apply mod8_mod2).
  assert (Hrun : exists st1 taken,
    Implicit.mymalloc MAX_REQUEST_SIZE fuel st new_size
      = Some (f + HEADER_SIZE, st1) /\
    load64 (mem st1) f = taken + 1 /\ taken mod 2 = 0 /\
    (forall x, x < f \/ f + bsize b <= x \/ f + 8 <= x < f + needed ->
               mem st1 x = mem st x)).
  { revert Hok Hfuel. rewrite El. intros Hok Hfuel.
    assert (Ea' : fit_addr needed (segment_start st) (l1 ++ b :: l2)
                  = segment_start st + total l1).
    { rewrite <- Ea. unfold f. now rewrite El. }
    destruct (implicit_mymalloc_spec MAX_REQUEST_SIZE st l1 b l2 fuel new_size
                Hok Ea' Ef En Hreq Hnu Hmax Hfuel)
      as (st1 & Hrun & _ & _ & _ & _ & Hh1 & Hfr1).
    rewrite <- Ea in Hrun, Hh1, Hfr1. fold needed in Hh1, Hfr1.
    exists st1. eexists. split; [exact Hrun|]. split; [exact Hh1|].
    split; [|exact Hfr1].
    destruct (bsize b - needed >=? HEADER_SIZE + ALIGNMENT);
      now apply mod8_mod2. }
  destruct Hrun as (st1 & taken & Hrun & Hh1 & Htk & Hfr1).
  assert (Hho1 : load64 (mem st1) co = hdr bo).
  { rewrite <- Hho. apply load64_ext. intros x Hx. apply Hfr1. lia. }
  assert (Hcnt : 0 <= cnt <= new_size).
  { unfold cnt. pose proof (Z.mod_pos_bound (bsize bo) (2 ^ 32)). lia. }
  unfold Implicit.myrealloc, breakpoint.
  destruct (Z.eqb_spec new_size 0); [lia|]. cbn [andb].
  destruct (Z.eqb_spec (co + HEADER_SIZE) NULL);
    [unfold HEADER_SIZE, NULL in *; lia|].
  rewrite Hrun. unfold HEADER_SIZE.
  replace (co + 8 - 8) with co by lia. rewrite (wrap64_small co) by lia.
  rewrite (hdr_getsize _ co bo Hho1 Hevo) by lia.
  assert (Em : (if bsize bo mod 2 ^ 32 >? new_size
                then Implicit.memcpy (mem st1) (f + 8) (co + 8) new_size
                else Implicit.memcpy (mem st1) (f + 8) (co + 8)
                       (bsize bo mod 2 ^ 32))
               = memmove (mem st1) (f + 8) (co + 8) cnt).
  { unfold cnt, Implicit.memcpy.
    destruct (Z.gtb_spec (bsize bo mod 2 ^ 32) new_size); f_equal; lia. }
  rewrite Em. clear Em.
  set (m2 := memmove (mem st1) (f + 8) (co + 8) cnt).
  assert (Hm2 : forall x, x < f + 8 \/ f + 8 + cnt <= x -> m2 x = mem st1 x).
  { intros x Hx. unfold m2, memmove.
    destruct (Z.leb_spec (f + 8) x), (Z.ltb_spec x (f + 8 + cnt)); simpl;
      try reflexivity; lia. }
  assert (Hho2 : load64 m2 co = hdr bo).
  { rewrite <- Hho1. apply load64_ext. intros x Hx. apply Hm2. lia. }
  unfold Implicit.myfree, HEADER_SIZE.
  destruct (Z.eqb_spec (co + 8) NULL); [unfold NULL in *; lia|].
  unfold set_mem. cbn [mem segment_start segment_size nused].
  replace (co + 8 - 8) with co by lia. rewrite (wrap64_small co) by lia.
  fold (getsize m2 co).
  rewrite (hdr_getsize _ co bo Hho2 Hevo) by lia.
  eexists. split; [reflexivity|]. cbn [mem].
  split; [lia|]. split; [|split; [|split]].
  - intros i Hi Hi2. rewrite store64_out by lia. unfold m2, memmove.
    destruct (Z.leb_spec (f + 8) (f + 8 + i)); [|lia].
    destruct (Z.ltb_spec (f + 8 + i) (f + 8 + cnt)); [|lia]. simpl.
    replace (co + 8 + (f + 8 + i - (f + 8))) with (co + 8 + i) by lia.
    apply Hfr1. lia.
  - apply (hdr_isfree _ _ (mkBlock (bsize bo) true)); [|exact Hevo].
    rewrite load64_store64_same. unfold hdr. simpl.
    rewrite wrap64_small by lia. lia.
  - apply (hdr_getsize _ _ (mkBlock (bsize bo) true)); simpl; [|exact Hevo|lia].
    rewrite load64_store64_same. unfold hdr. simpl.
    rewrite wrap64_small by lia. lia.
  - apply (hdr_isfree _ _ (mkBlock taken false)); [|exact Htk].
    rewrite load64_store64_other by lia.
    transitivity (load64 (mem st1) f); [|exact Hh1].
    apply load64_ext. intros x Hx. apply Hm2. lia.
Qed.



(** A request within 16 of 2^64 is not refused by [mymalloc] of implicit.c:
    the size computation wraps to 0, both tests pass, and the first free
    block gets the header of an in-use block of size 0.  After that every
    request that passes the two tests makes the scan stop at that header for
    ever. *)
Theorem implicit_mymalloc_wrapped_request st l1 b l2 fuel req :
  let c := segment_start st + total l1 in
  Implicit.heap_ok st (l1 ++ b :: l2) ->
  (forall b', In b' l1 -> bfree b' = false) -> bfree b = true ->
  W64 - 16 < req <= W64 - 8 ->
  0 <= nused st <= segment_size st -> 0 <= MAX_REQUEST_SIZE ->
  (length (l1 ++ b :: l2) <= fuel)%nat ->
  exists st',
    Implicit.mymalloc MAX_REQUEST_SIZE fuel st req
      = Some (c + HEADER_SIZE, st') /\
    load64 (mem st') c = 1 /\
    nused st' = nused st /\
    (forall x, x < c \/ c + 8 <= x -> mem st' x = mem st x) /\
    (forall req' fuel',
       0 < req' <= W64 - 16 ->
       wrap64 (wrap64 (Implicit.roundup req' ALIGNMENT + HEADER_SIZE)
               + nused st') <= segment_size st' ->
       wrap64 (Implicit.roundup req' ALIGNMENT + HEADER_SIZE)
       <= MAX_REQUEST_SIZE ->
       Implicit.mymalloc MAX_REQUEST_SIZE fuel' st' req' = None).
Proof.
  intros c Hok Hused Hf Hreq Hnu Hmax Hfuel.
  pose proof (implicit_needed_wrapped req Hreq) as En0.
  pose proof (implicit_segment_end_ok st _ Hok) as He.
  pose proof Hok as (Hs & HW & Hc & Ht & Hl).
  pose proof Hl as Hl'. apply implicit_blocks_ok_app in Hl'.
  destruct Hl' as [Hl1 Hl2]. simpl in Hl2. destruct Hl2 as [Hb Hl2].
  pose proof (implicit_block_ok_even b Hb) as Heven.
  pose proof Hb as [Hb16 Hb8].
  rewrite total_app in Ht. simpl in Ht.
  pose proof (implicit_total_nonneg l1 Hl1) as Ht1.
  pose proof (implicit_total_nonneg l2 Hl2) as Ht2.
  assert (Efit : fit_addr 0 (segment_start st) (l1 ++ b :: l2) = c)
    by (apply fit_addr_used_prefix; auto; lia).
  pose proof Hc as Hc'. apply chain_app in Hc'. destruct Hc' as [Hc1 Hc2].
  simpl in Hc2. destruct Hc2 as [Hh Hc2]. fold c in Hh, Hc2.
  unfold Implicit.mymalloc, breakpoint. rewrite En0.
  destruct (Z.leb_spec req 0); [rewrite W64_val in *; lia|].
  rewrite (wrap64_small (0 + nused st)) by lia.
  destruct (Z.gtb_spec (0 + nused st) (segment_size st)); [lia|].
  destruct (Z.gtb_spec 0 MAX_REQUEST_SIZE); [lia|].
  rewrite (implicit_search_loop_spec st 0 (l1 ++ b :: l2)); auto;
    [| rewrite Efit; unfold c; lia
     | rewrite He, total_app; simpl; lia
     | rewrite He; lia ].
  rewrite Efit.
  rewrite (hdr_getsize _ c b Hh Heven) by lia.
  rewrite Z.sub_0_r, (wrap64_small (bsize b)) by lia.
  change (HEADER_SIZE + ALIGNMENT) with 16.
  destruct (Z.geb_spec (bsize b) 16); [|lia].
  rewrite !Z.add_0_r.
  rewrite (wrap64_small c), (wrap64_small (c + HEADER_SIZE))
    by (unfold c, HEADER_SIZE; lia).
  rewrite implicit_placeheader_free, (implicit_placeheader_used _ _ 0)
    by reflexivity.
  change (0 + 1) with 1.
  set (m' := store64 (store64 (mem st) c (bsize b)) c 1).
  exists (mkState m' (segment_start st) (segment_size st) (wrap64 (nused st))).
  split; [reflexivity|]. cbn [mem nused segment_size segment_start].
  assert (Hh' : load64 m' c = 1).
  { unfold m'. rewrite load64_store64_same. reflexivity. }
  split; [exact Hh'|].
  split; [apply wrap64_small; lia|].
  split; [intros x Hx; unfold m'; rewrite !store64_out by lia; reflexivity|].
  intros req' fuel' Hreq' Hnu' Hmax'.
  unfold Implicit.mymalloc, breakpoint.
  cbn [mem nused segment_size segment_start] in Hnu' |- *.
  set (needed' := wrap64 (Implicit.roundup req' ALIGNMENT + HEADER_SIZE)) in *.
  destruct (Z.leb_spec req' 0); [lia|].
  destruct (Z.gtb_spec (wrap64 (needed' + wrap64 (nused st))) (segment_size st));
    [lia|].
  destruct (Z.gtb_spec needed' MAX_REQUEST_SIZE); [lia|].
  rewrite (implicit_search_loop_trap _ needed' c l1); [reflexivity|..].
  - cbn [mem]. apply (implicit_chain_ext (mem st)); auto. intros x Hx.
    unfold m'. rewrite !store64_out by (unfold c; lia). reflexivity.
  - exact Hl1.
  - now apply fit_addr_all_used.
  - exact Hs.
  - reflexivity.
  - unfold segment_end. cbn [segment_start segment_size].
    rewrite wrap64_small by lia. unfold c. lia.
  - unfold segment_end. cbn [segment_start segment_size].
    rewrite wrap64_small by lia. lia.
  - cbn [mem]. unfold isfree. rewrite Hh'. reflexivity.
  - cbn [mem]. unfold getsize. rewrite Hh'. reflexivity.
Qed.

End ImplicitResize.

(** * Requests within 16 of 2^64 in the explicit allocator *)

Lemma roundup_wrapped req :
  W64 - 16 < req <= W64 - 8 -> roundup req ALIGNMENT = 0.
Proof.
  intros H. unfold roundup.
  change (Z.land (wrap64 (req + ALIGNMENT - 1)) (not64 (wrap64 (ALIGNMENT - 1))))
    with (Implicit.roundup req ALIGNMENT).
  rewrite W64_val in H.
  rewrite implicit_roundup_val by (rewrite W64_val; lia).
  assert (E : req + 7 - (req + 7) mod 8 = W64 - 8).
  { rewrite W64_val. Z.div_mod_to_equations. lia. }
  rewrite E. rewrite W64_val. reflexivity.
Qed.

Lemma getfirstfree_loop_used_prefix st c : forall l1 a fuel,
  chain (mem st) a l1 -> blocks_ok l1 ->
  (forall b', In b' l1 -> bfree b' = false) ->
  0 < a -> a + total l1 = c -> c <= segment_end st -> segment_end st < W64 ->
  isfree (mem st) c = true ->
  getfirstfree_loop fuel st a = None \/ getfirstfree_loop fuel st a = Some c.
Proof.
  induction l1 as [|b l1 IH]; intros a fuel Hc Hok Hu Ha Hac Hce HW Hf;
    (destruct fuel as [|fuel]; [left; reflexivity|]);
    simpl in Hc, Hok, Hac; cbn [getfirstfree_loop].
  - assert (a = c) by lia. subst a. rewrite Hf. right. reflexivity.
  - destruct Hc as [Hh Hc], Hok as [Hb Hl].
    pose proof (block_ok_even b Hb) as Heven. destruct Hb as [Hb24 Hb8].
    pose proof (total_nonneg l1 Hl) as Ht.
    rewrite (hdr_isfree _ a b Hh Heven), (Hu b) by (left; reflexivity).
    cbn [negb].
    rewrite (hdr_getsize _ a b Hh Heven) by lia.
    rewrite (wrap64_small (a + bsize b)) by lia.
    destruct (Z.gtb_spec (a + bsize b) (segment_end st)); [lia|].
    apply IH; auto; try lia. intros b' Hin. apply Hu. now right.
Qed.

Lemma updatelinkedlist_loop_trap m e c : forall l1 a prev fuel,
  chain m a l1 -> blocks_ok l1 ->
  (forall b', In b' l1 -> bfree b' = false) ->
  0 < a -> a + total l1 = c -> c < e -> e <= W64 ->
  isfree m c = false -> getsize m c = 0 ->
  updatelinkedlist_loop fuel m e a prev = None.
Proof.
  induction l1 as [|b l1 IH]; intros a prev fuel Hc Hok Hu Ha Hac Hce HW Hf Hz;
    simpl in Hc, Hok, Hac.
  - assert (a = c) by lia. subst a. clear Hac.
    induction fuel as [|fuel IHf]; [reflexivity|].
    cbn [updatelinkedlist_loop].
    destruct (Z.ltb_spec c e); [|lia]. rewrite Hf, Hz.
    rewrite Z.add_0_r, wrap64_small by lia. exact IHf.
  - destruct fuel as [|fuel]; [reflexivity|].
    destruct Hc as [Hh Hc], Hok as [Hb Hl].
    pose proof (block_ok_even b Hb) as Heven. destruct Hb as [Hb24 Hb8].
    pose proof (total_nonneg l1 Hl) as Ht.
    cbn [updatelinkedlist_loop].
    destruct (Z.ltb_spec a e); [|lia].
    rewrite (hdr_isfree _ a b Hh Heven), (Hu b) by (left; reflexivity).
    rewrite (hdr_getsize _ a b Hh Heven) by lia.
    rewrite (wrap64_small (a + bsize b)) by lia.
    apply IH; auto; try lia. intros b' Hin. apply Hu. now right.
Qed.

Section WrappedRequest.

Variable MAX_REQUEST_SIZE : Z.

(** A request within 16 of 2^64 is not refused by [mymalloc] of explicit.c:
    [roundup] wraps to 0 and both tests pass.  When the first free block
    has at least 40 bytes, the split writes the header of an in-use block
    of size 0 over it, and the walk of [updatelinkedlist] that ends the
    call stays at that header: the call does not return. *)
Theorem mymalloc_wrapped_request_hangs st l1 b l2 req :
  heap_ok st (l1 ++ b :: l2) ->
  (forall b', In b' l1 -> bfree b' = false) ->
  bfree b = true -> 40 <= bsize b ->
  W64 - 16 < req <= W64 - 8 ->
  0 <= nused st <= segment_size st -> 0 <= MAX_REQUEST_SIZE ->
  forall fuel, mymalloc MAX_REQUEST_SIZE fuel st req = None.
Proof.
  intros Hok Hused Hf H40 Hreq Hnu Hmax fuel.
  pose proof (segment_end_ok st _ Hok) as He.
  pose proof Hok as (Hs & HW & Hc & Ht & Hl).
  apply blocks_ok_app in Hl. destruct Hl as [Hl1 Hl2].
  simpl in Hl2. destruct Hl2 as [Hb Hl2].
  pose proof (block_ok_even b Hb) as Heven. pose proof Hb as [Hb24 Hb8].
  rewrite total_app in Ht. simpl in Ht.
  pose proof (total_nonneg l1 Hl1) as Ht1.
  pose proof (total_nonneg l2 Hl2) as Ht2.
  apply chain_app in Hc. destruct Hc as [Hc1 Hc2].
  simpl in Hc2. destruct Hc2 as [Hh Hc2].
  set (c := segment_start st + total l1) in *.
  assert (Hfc : isfree (mem st) c = true)
    by (now rewrite (hdr_isfree _ c b Hh Heven)).
  unfold mymalloc. rewrite (roundup_wrapped req Hreq).
  destruct (Z.leb_spec req 0); [rewrite W64_val in *; lia|].
  rewrite (wrap64_small (0 + nused st)) by lia.
  destruct (Z.gtb_spec (0 + nused st) (segment_size st)); [lia|].
  destruct (Z.gtb_spec 0 MAX_REQUEST_SIZE); [lia|].
  unfold getfirstfree.
  destruct (getfirstfree_loop_used_prefix st c l1 (segment_start st) fuel)
    as [E|E]; auto; try (rewrite He; unfold c; lia);
    rewrite E; [reflexivity|].
  unfold NULL. destruct (Z.eqb_spec c 0); [unfold c in *; lia|].
  destruct fuel as [|fuel']; [reflexivity|]. cbn [fit_loop].
  rewrite !(hdr_getsize _ c b Hh Heven) by lia.
  destruct (Z.ltb_spec (bsize b) 0); [lia|].
  destruct (Z.eqb_spec c 0); [contradiction|].
  rewrite !(hdr_getsize _ c b Hh Heven) by lia.
  rewrite Z.sub_0_r, (wrap64_small (bsize b)) by lia.
  destruct (Z.geb_spec (bsize b) 40); [|lia].
  rewrite !Z.add_0_r, (wrap64_small c) by (unfold c; lia).
  rewrite placeheader_free, (placeheader_used _ _ 0) by reflexivity.
  change (0 + 1) with 1.
  set (m' := store64 (store64 (mem st) c (bsize b)) c 1).
  assert (Hh' : load64 m' c = 1).
  { unfold m'. rewrite load64_store64_same. reflexivity. }
  unfold updatelinkedlist. cbn [mem segment_start segment_size].
  rewrite (updatelinkedlist_loop_trap m' _ c l1); [reflexivity|..].
  - apply (chain_ext (mem st)); auto. intros x Hx.
    unfold m'. rewrite !store64_out by (unfold c; lia). reflexivity.
  - exact Hl1.
  - exact Hused.
  - exact Hs.
  - reflexivity.
  - unfold segment_end. cbn [segment_start segment_size].
    rewrite wrap64_small by lia. unfold c. lia.
  - unfold segment_end. cbn [segment_start segment_size].
    rewrite wrap64_small by lia. lia.
  - unfold isfree. rewrite Hh'. reflexivity.
  - unfold getsize. rewrite Hh'. reflexivity.
Qed.

End WrappedRequest.

(** ** The implicit allocator on concrete heaps *)

Lemma implicit_myrealloc_moves_witness :
  exists st',
    Implicit.myrealloc max30 8 Implicit.i128_abc (1016 + HEADER_SIZE) 30
    = Some (1056 + HEADER_SIZE, st') /\
    isfree (mem st') 1016 = true /\
    getsize (mem st') 1016 = 24 /\
    isfree (mem st') 1056 = false.
Proof.
  destruct (implicit_myrealloc_moves max30 Implicit.i128_abc
              [mkBlock 16 false; mkBlock 24 false; mkBlock 16 false;
               mkBlock 72 true] 8 1016 (mkBlock 24 false) 30)
    as (st' & H1 & _ & _ & H2 & H3 & H4).
  - implicit_concrete_heap.
  - right. left. split; reflexivity.
  - reflexivity.
  - rewrite W64_val. lia.
  - vm_compute. congruence.
  - vm_compute. congruence.
  - vm_compute. congruence.
  - simpl. lia.
  - exists st'. split; [exact H1|]. split; [exact H2|].
    split; [exact H3|exact H4].
Defined.



Lemma implicit_mymalloc_wrapped_request_witness :
  exists st',
    Implicit.mymalloc max30 8 Implicit.i128_a (W64 - 10)
    = Some (segment_start Implicit.i128_a + total [mkBlock 16 false]
            + HEADER_SIZE, st') /\
    load64 (mem st')
      (segment_start Implicit.i128_a + total [mkBlock 16 false]) = 1 /\
    nused st' = nused Implicit.i128_a.
Proof.
  destruct (implicit_mymalloc_wrapped_request max30 Implicit.i128_a
              [mkBlock 16 false] (mkBlock 112 true) [] 8 (W64 - 10))
    as (st' & H1 & H2 & H3 & _).
  - implicit_concrete_heap.
  - intros b' [<-|[]]. reflexivity.
  - reflexivity.
  - lia.
  - vm_compute. split; congruence.
  - vm_compute. congruence.
  - simpl. lia.
  - exists st'. split; [exact H1|]. split; [exact H2|exact H3].
Defined.

Lemma mymalloc_wrapped_request_hangs_witness :
  mymalloc max30 8 h128 (W64 - 10) = None.
Proof.
  apply (mymalloc_wrapped_request_hangs max30 h128 [] (mkBlock 128 true) []
           (W64 - 10)).
  - concrete_heap.
  - intros b' [].
  - reflexivity.
  - simpl. lia.
  - lia.
  - vm_compute. split; congruence.
  - vm_compute. congruence.
Defined.
